(** * SearchLight: relevance scoring and match partitioning

    A shallow embedding of [search-light.js] as it is built and distributed
    ([dist/search-light.js]; the copy that wraps the module in a function
    and abbreviates the namespaces to [s_], [o_], [fn_] and [i_] is the same
    program, and the names below are its names).  The file
    [src/search-light.js] is an earlier draft of the module - a fixed
    threshold, no stored filters, a [for] that does not clear - and is not
    what is embedded here.

    The instance state [s_] and the options [o_] are records, every method
    is a function on instances, and a method that can raise returns a
    [completion].

    Conventions of the embedding.
    - A JavaScript string is a [string]: a sequence of code units below 256.
    - A JavaScript number is an integer ([Z]), printed in full and read from
      decimal integer literals; [NaN] only arises as the result of a failed
      conversion and is the [None] of [to_number].
    - Arrays are dense lists.  An object is the list of its own enumerable
      properties in [Object.keys] order; it inherits from [Object.prototype]
      and no value is a function.  The inherited members the program or a
      conversion reaches are modelled where they are reached
      ([hasOwnProperty], [toString], [valueOf], the setter [__proto__]);
      read as a property, an inherited member is [undefined].  A property
      the program creates goes last in the list, which is its place in
      [Object.keys] order unless its name is an array index: an engine
      lists such a name among the indices, and the embedding does not.
    - Two entries of a collection never hold the same object.
    - Callbacks of the caller (a comparator) are pure functions and answer a
      value that converts to a number.
    - [console.warn] writes to the console only and is left out. *)

From Stdlib Require Import ZArith List String Ascii Bool Lia DecimalString
  Permutation.
From Stdlib Require DecimalNat DecimalPos DecimalN DecimalZ DecimalFacts Sorted.
Import ListNotations.
Local Open Scope string_scope.
Local Open Scope Z_scope.
Set Warnings "-register-all".

(** ** Host language: values, conversions and the built-ins the program calls *)

Module Js.

Inductive value : Type :=
| VUndefined
| VNull
| VBool (b : bool)
| VNum (n : Z)
| VStr (s : string)
| VArr (elems : list value)
| VObj (props : list (string * value)).

Inductive error : Type :=
| TypeError (msg : string)
| Error (msg : string).

(** The outcome of evaluating code that may raise. *)
Inductive completion (A : Type) : Type :=
| Normal (a : A)
| Throw (e : error).
Arguments Normal {A} a.
Arguments Throw {A} e.

Definition bind {A B} (c : completion A) (k : A -> completion B) : completion B :=
  match c with
  | Normal a => k a
  | Throw e => Throw e
  end.

Definition typeof (v : value) : string :=
  match v with
  | VUndefined => "undefined"
  | VNull => "object"
  | VBool _ => "boolean"
  | VNum _ => "number"
  | VStr _ => "string"
  | VArr _ => "object"
  | VObj _ => "object"
  end.

Definition isArray (v : value) : bool :=
  match v with VArr _ => true | _ => false end.

Definition string_of_Z (n : Z) : string :=
  NilZero.string_of_int (Z.to_int n).

Definition string_of_nat (n : nat) : string :=
  NilZero.string_of_uint (Nat.to_uint n).

(** The string a value prints as, when printing it raises nothing (see
    [to_string_c]); an array prints as its elements joined with a comma,
    where [null] and [undefined] elements print as nothing. *)
Fixpoint to_string (v : value) : string :=
  match v with
  | VUndefined => "undefined"
  | VNull => "null"
  | VBool true => "true"
  | VBool false => "false"
  | VNum n => string_of_Z n
  | VStr s => s
  | VArr l =>
      String.concat ","
        (map (fun e => match e with
                       | VUndefined | VNull => ""
                       | _ => to_string e
                       end) l)
  | VObj _ => "[object Object]"
  end.

(** Whether converting a value to a primitive raises.  [ToPrimitive] calls
    the object's [toString] and [valueOf], in the order the hint gives; the
    inherited [valueOf] answers the object itself, which is no primitive, so
    it is [toString] that decides.  A plain object inherits a [toString]
    that answers [[object Object]], unless it has a property of its own
    named [toString]: no value of this model is a function, so that
    property cannot be called and the conversion raises a [TypeError].  An
    array prints through [join], which converts each of its elements. *)
Fixpoint unconvertible (v : value) : bool :=
  match v with
  | VArr l => existsb unconvertible l
  | VObj ps => existsb (fun p => (fst p =? "toString")%string) ps
  | _ => false
  end.

Definition conversion_error : error :=
  TypeError "Cannot convert object to primitive value".

(** A result that is reached once every operand has been converted to a
    primitive. *)
Definition converting {A : Type} (operands : list value) (result : A)
  : completion A :=
  if existsb unconvertible operands then Throw conversion_error
  else Normal result.

(** [ToString]. *)
Definition to_string_c (v : value) : completion string :=
  converting [v] (to_string v).

(** What one element contributes to [Array.prototype.join]. *)
Definition join_piece (e : value) : string :=
  match e with
  | VUndefined | VNull => ""
  | _ => to_string e
  end.

(** The string [Array.prototype.join] builds, when no element raises. *)
Definition join (sep : string) (l : list value) : string :=
  String.concat sep (map join_piece l).

(** [Array.prototype.join]. *)
Definition join_c (sep : string) (l : list value) : completion string :=
  converting l (join sep l).

(** [ToBoolean]. *)
Definition truthy (v : value) : bool :=
  match v with
  | VUndefined | VNull => false
  | VBool b => b
  | VNum n => negb (n =? 0)
  | VStr s => negb (s =? "")%string
  | VArr _ | VObj _ => true
  end.

(** [a || b] on values. *)
Definition or_else (a b : value) : value :=
  if truthy a then a else b.

(** *** Strings *)

Definition is_upper (c : ascii) : bool :=
  let n := N_of_ascii c in
  ((65 <=? n) && (n <=? 90) ||
   (192 <=? n) && (n <=? 222) && negb (n =? 215))%N.

Definition lower_char (c : ascii) : ascii :=
  if is_upper c then ascii_of_N (N_of_ascii c + 32) else c.

(** [String.prototype.toLowerCase]. *)
Fixpoint toLowerCase (s : string) : string :=
  match s with
  | EmptyString => EmptyString
  | String c s' => String (lower_char c) (toLowerCase s')
  end.

Definition is_space (c : ascii) : bool :=
  let n := N_of_ascii c in
  ((9 <=? n) && (n <=? 13) || (n =? 32) || (n =? 160))%N.

Fixpoint trim_start (s : string) : string :=
  match s with
  | EmptyString => EmptyString
  | String c s' => if is_space c then trim_start s' else s
  end.

Fixpoint trim_end (s : string) : string :=
  match s with
  | EmptyString => EmptyString
  | String c s' =>
      let r := trim_end s' in
      if is_space c && (r =? "")%string then EmptyString else String c r
  end.

(** [String.prototype.trim]. *)
Definition trim (s : string) : string := trim_end (trim_start s).

(** [split_from sep skip cur s] scans [s] from the left: [cur] is the piece
    being built and [skip] counts the code units of a separator just matched
    that are still to be passed over. *)
Fixpoint split_from (sep : string) (skip : nat) (cur s : string) : list string :=
  match s with
  | EmptyString => [cur]
  | String c s' =>
      match skip with
      | S k => split_from sep k cur s'
      | O =>
          if String.prefix sep s
          then cur :: split_from sep (String.length sep - 1) EmptyString s'
          else split_from sep 0 (cur ++ String c EmptyString) s'
      end
  end.

(** [String.prototype.split] with a string separator and no limit: an empty
    separator cuts the string into its code units (none for the empty
    string); otherwise the separator is matched left to right, without
    overlap. *)
Definition split (s sep : string) : list string :=
  match sep with
  | EmptyString => map (fun c => String c EmptyString) (list_ascii_of_string s)
  | _ => split_from sep 0 EmptyString s
  end.

(** *** Conversions and comparison operators *)

Definition is_nullish (v : value) : bool :=
  match v with VUndefined | VNull => true | _ => false end.

Definition is_object (v : value) : bool :=
  match v with VArr _ | VObj _ => true | _ => false end.

(** The primitive [ToPrimitive] gives when it raises nothing: arrays and
    plain objects convert through [toString]. *)
Definition to_primitive (v : value) : value :=
  match v with
  | VArr _ | VObj _ => VStr (to_string v)
  | _ => v
  end.

Definition digits_to_number (s : string) : option Z :=
  match s with
  | EmptyString => None
  | _ => option_map Z.of_uint (NilEmpty.uint_of_string s)
  end.

(** [StringToNumber] on integer literals; [None] is [NaN]. *)
Definition string_to_number (s : string) : option Z :=
  match trim s with
  | EmptyString => Some 0
  | String "+" r => digits_to_number r
  | String "-" r => option_map Z.opp (digits_to_number r)
  | t => digits_to_number t
  end.

(** The number [ToNumber] gives when it raises nothing; [None] is [NaN]. *)
Definition to_number (v : value) : option Z :=
  match to_primitive v with
  | VUndefined => None
  | VNull => Some 0
  | VBool b => Some (if b then 1 else 0)
  | VNum n => Some n
  | VStr s => string_to_number s
  | _ => None
  end.

(** [a === b].  Two arrays or objects are equal only when they are the same
    object; the value model has no object identity, and a comparison value is
    taken never to be the very object an item stores. *)
Definition strict_eq (a b : value) : bool :=
  match a, b with
  | VUndefined, VUndefined => true
  | VNull, VNull => true
  | VBool x, VBool y => Bool.eqb x y
  | VNum x, VNum y => x =? y
  | VStr x, VStr y => (x =? y)%string
  | _, _ => false
  end.

(** The truth of [a == b], when the comparison raises nothing. *)
Definition loose_eq (a b : value) : bool :=
  if is_nullish a || is_nullish b then is_nullish a && is_nullish b
  else if is_object a && is_object b then false
  else
    match to_primitive a, to_primitive b with
    | VStr x, VStr y => (x =? y)%string
    | pa, pb =>
        match to_number pa, to_number pb with
        | Some x, Some y => x =? y
        | _, _ => false
        end
    end.

(** The abstract relational comparison [a < b]; [None] is its [undefined]
    result (an operand converts to [NaN]). *)
Definition less_than (a b : value) : option bool :=
  match to_primitive a, to_primitive b with
  | VStr x, VStr y => Some (String.ltb x y)
  | pa, pb =>
      match to_number pa, to_number pb with
      | Some x, Some y => Some (x <? y)
      | _, _ => None
      end
  end.

Definition is_some_bool (expected : bool) (r : option bool) : bool :=
  match r with
  | Some b => Bool.eqb b expected
  | None => false
  end.

Definition lt (a b : value) : bool := is_some_bool true (less_than a b).
Definition gt (a b : value) : bool := is_some_bool true (less_than b a).
Definition le (a b : value) : bool := is_some_bool false (less_than b a).
Definition ge (a b : value) : bool := is_some_bool false (less_than a b).

(** [a == b]: an operand is converted to a primitive only when it is an
    array or an object and the other one is a primitive other than [null]
    and [undefined]. *)
Definition loose_eq_c (a b : value) : completion bool :=
  if is_nullish a || is_nullish b || (is_object a && is_object b)
  then Normal (loose_eq a b)
  else converting [a; b] (loose_eq a b).

(** [a < b], [a > b], [a <= b] and [a >= b]: both operands are converted to
    primitives. *)
Definition lt_c (a b : value) : completion bool := converting [a; b] (lt a b).
Definition gt_c (a b : value) : completion bool := converting [a; b] (gt a b).
Definition le_c (a b : value) : completion bool := converting [a; b] (le a b).
Definition ge_c (a b : value) : completion bool := converting [a; b] (ge a b).

(** A boolean used as a number. *)
Definition number_of_bool (b : bool) : Z := if b then 1 else 0.

(** *** Property access *)

(** The array index a property key denotes, if it is a canonical one. *)
Definition index_of_key (k : string) : option nat :=
  match NilEmpty.uint_of_string k with
  | Some d =>
      let n := Nat.of_uint d in
      if (string_of_nat n =? k)%string then Some n else None
  | None => None
  end.

Fixpoint assoc (k : string) (ps : list (string * value)) : option value :=
  match ps with
  | [] => None
  | (k', v) :: ps' => if (k' =? k)%string then Some v else assoc k ps'
  end.

(** The property [k] of a value other than [null] and [undefined].  Members
    inherited from the built-in prototypes are not modelled: a name that is
    none of the value's own properties reads as [undefined]. *)
Definition own_property (base : value) (k : string) : value :=
  match base with
  | VStr s =>
      match index_of_key k with
      | Some i =>
          match String.get i s with
          | Some c => VStr (String c EmptyString)
          | None => VUndefined
          end
      | None =>
          if (k =? "length")%string
          then VNum (Z.of_nat (String.length s))
          else VUndefined
      end
  | VArr l =>
      match index_of_key k with
      | Some i => nth i l VUndefined
      | None =>
          if (k =? "length")%string
          then VNum (Z.of_nat (List.length l))
          else VUndefined
      end
  | VObj ps =>
      match assoc k ps with
      | Some v => v
      | None => VUndefined
      end
  | _ => VUndefined
  end.

(** [base[key]]: [null] and [undefined] have no properties; otherwise the
    key is converted to a property name. *)
Definition get (base key : value) : completion value :=
  if is_nullish base then
    Throw (TypeError ("Cannot read property " ++ to_string key
                      ++ " of " ++ to_string base))
  else
    converting [key] (own_property base (to_string key)).

(** A property of a plain object written in its list of properties: an
    existing property keeps its place, a new one goes last. *)
Fixpoint assoc_set (k : string) (v : value) (ps : list (string * value))
  : list (string * value) :=
  match ps with
  | [] => [(k, v)]
  | (k', v') :: ps' =>
      if (k' =? k)%string then (k, v) :: ps' else (k', v') :: assoc_set k v ps'
  end.

(** [obj[k] = v] on a plain object.  A property the object has is written.
    A new one is created, except under the name [__proto__]: there the
    assignment reaches the setter [Object.prototype] holds, which changes
    the prototype when [v] is an object or [null] and creates no property
    of the object in either case. *)
Definition put (k : string) (v : value) (ps : list (string * value))
  : list (string * value) :=
  match assoc k ps with
  | Some _ => assoc_set k v ps
  | None => if (k =? "__proto__")%string then ps else assoc_set k v ps
  end.

(** [obj.hasOwnProperty(k)] for a plain object and one of the names
    [Object.keys] lists: the method is the inherited one unless the object
    has a property of its own under that name, which is no function. *)
Definition hasOwnProperty (obj : value) (k : string) : completion bool :=
  match obj with
  | VObj ps =>
      match assoc "hasOwnProperty" ps with
      | Some _ => Throw (TypeError "collection.hasOwnProperty is not a function")
      | None =>
          Normal (match assoc k ps with Some _ => true | None => false end)
      end
  | _ => Normal false
  end.

(** [Object.keys]. *)
Definition keys (v : value) : completion (list string) :=
  match v with
  | VUndefined | VNull =>
      Throw (TypeError "Cannot convert undefined or null to object")
  | VBool _ | VNum _ => Normal []
  | VStr s => Normal (map string_of_nat (seq 0 (String.length s)))
  | VArr l => Normal (map string_of_nat (seq 0 (List.length l)))
  | VObj ps => Normal (map fst ps)
  end.

(** *** Sequencing code that may raise *)

Declare Scope completion_scope.
Delimit Scope completion_scope with completion.
Notation "x <- c ;; k" := (bind c (fun x => k))
  (at level 61, c at next level, right associativity) : completion_scope.

(** [Array.prototype.map] with a callback that may raise. *)
Fixpoint map_c {A B} (f : A -> completion B) (l : list A) : completion (list B) :=
  match l with
  | [] => Normal []
  | x :: l' =>
      bind (f x) (fun y => bind (map_c f l') (fun ys => Normal (y :: ys)))
  end.

(** [Array.prototype.filter] with a callback that may raise. *)
Fixpoint filter_c {A} (f : A -> completion bool) (l : list A) : completion (list A) :=
  match l with
  | [] => Normal []
  | x :: l' =>
      bind (f x) (fun keep =>
        bind (filter_c f l') (fun xs => Normal (if keep then x :: xs else xs)))
  end.

(** [forEach] / [reduce] with a callback that may raise: the accumulator is
    threaded left to right and the first exception ends the loop. *)
Fixpoint fold_c {A B} (f : B -> A -> completion B) (l : list A) (b : B)
  : completion B :=
  match l with
  | [] => Normal b
  | x :: l' => bind (f b x) (fun b' => fold_c f l' b')
  end.

(** *** [Array.prototype.sort]

    The order [sort] produces belongs to the host, not to the program: the
    program is embedded over an arbitrary [sort] function (section
    [Program]).  [stable_sort] is one host, used to run the program: a stable
    insertion sort that moves an element in front of another only when the
    comparator answers a negative number, as the engines whose sort is stable
    do. *)

Section Sort.
Context {A : Type}.
Variable comparefn : A -> A -> value.

(** The comparator's answer as [sort] reads it: [ToNumber], [NaN] as 0. *)
Definition sort_order (a b : A) : Z :=
  match to_number (comparefn a b) with
  | Some n => n
  | None => 0
  end.

Fixpoint insert_sorted (x : A) (l : list A) : list A :=
  match l with
  | [] => [x]
  | y :: l' =>
      if sort_order x y <? 0 then x :: l else y :: insert_sorted x l'
  end.

Definition stable_sort (l : list A) : list A :=
  fold_left (fun acc x => insert_sorted x acc) l [].
End Sort.

End Js.

(** ** The program state *)

Import Js.

(** A key of the collection: an index of the array it was built from, or a
    property name of the object. *)
Inductive Key : Type :=
| KIndex (i : nat)
| KName (name : string).

Definition key_value (k : Key) : value :=
  match k with
  | KIndex i => VNum (Z.of_nat i)
  | KName name => VStr name
  end.

Definition key_eqb (a b : Key) : bool :=
  match a, b with
  | KIndex i, KIndex j => Nat.eqb i j
  | KName x, KName y => (x =? y)%string
  | _, _ => false
  end.

(** A match is the array [[key, relevance, missing terms]]. *)
Record Match : Type := mkMatch {
  m_key : Key;
  m_relevance : Z;
  m_missing : string
}.

(** A filter is the array [[key, operator, value]]. *)
Record Filter : Type := mkFilter {
  f_key : value;
  f_operator : value;
  f_value : value
}.

(** A caller's comparator: it is handed the item lookup and two matches. *)
Definition SortCallback : Type := (Match -> value) -> Match -> Match -> value.

(** [s_.matches] is either an array of its own or, after an unconstrained
    search ([this.s_.matches = this.s_.allItems]), the very array that
    [s_.allItems] holds. *)
Inductive MatchesRef : Type :=
| OwnArray (a : list Match)
| AllItemsArray.

(** The [Map] behind [s_.collection]: entries in insertion order. *)
Fixpoint map_get (k : Key) (m : list (Key * value)) : option value :=
  match m with
  | [] => None
  | (k', v) :: m' => if key_eqb k' k then Some v else map_get k m'
  end.

Fixpoint map_set (k : Key) (v : value) (m : list (Key * value))
  : list (Key * value) :=
  match m with
  | [] => [(k, v)]
  | (k', v') :: m' =>
      if key_eqb k' k then (k', v) :: m' else (k', v') :: map_set k v m'
  end.

Record State : Type := mkState {
  s_matches : MatchesRef;
  s_partial : list Match;
  s_allItems : list Match;
  s_searchText : string;
  s_searchTerms : list string;
  s_keys : list value;
  s_filters : list Filter;
  s_threshold : Z;
  s_error : bool;
  s_errorMessage : string;
  s_index : Z;
  s_lastIndex : Z;
  s_totalMatches : Z;
  s_ready : bool;
  s_complete : bool;
  s_searched : bool;
  s_collection : list (Key * value)
}.

Record Options : Type := mkOptions {
  o_collectionType : string;
  o_case : bool;
  o_baseThreshold : Z;
  o_sort : bool;
  o_customSort : option SortCallback;
  o_inject_property : value;
  o_inject_enabled : bool
}.

(** A SearchLight instance: the objects [s_] and [o_] it owns. *)
Record Instance : Type := mkInstance {
  s_ : State;
  o_ : Options
}.

(** Assignments to the fields of [s_] and [o_]. *)
Definition set_matches (x : MatchesRef) (s : State) : State :=
  mkState x (s_partial s) (s_allItems s) (s_searchText s) (s_searchTerms s) (s_keys s) (s_filters s) (s_threshold s) (s_error s) (s_errorMessage s) (s_index s) (s_lastIndex s) (s_totalMatches s) (s_ready s) (s_complete s) (s_searched s) (s_collection s).
Definition set_partial (x : list Match) (s : State) : State :=
  mkState (s_matches s) x (s_allItems s) (s_searchText s) (s_searchTerms s) (s_keys s) (s_filters s) (s_threshold s) (s_error s) (s_errorMessage s) (s_index s) (s_lastIndex s) (s_totalMatches s) (s_ready s) (s_complete s) (s_searched s) (s_collection s).
Definition set_allItems (x : list Match) (s : State) : State :=
  mkState (s_matches s) (s_partial s) x (s_searchText s) (s_searchTerms s) (s_keys s) (s_filters s) (s_threshold s) (s_error s) (s_errorMessage s) (s_index s) (s_lastIndex s) (s_totalMatches s) (s_ready s) (s_complete s) (s_searched s) (s_collection s).
Definition set_searchText (x : string) (s : State) : State :=
  mkState (s_matches s) (s_partial s) (s_allItems s) x (s_searchTerms s) (s_keys s) (s_filters s) (s_threshold s) (s_error s) (s_errorMessage s) (s_index s) (s_lastIndex s) (s_totalMatches s) (s_ready s) (s_complete s) (s_searched s) (s_collection s).
Definition set_searchTerms (x : list string) (s : State) : State :=
  mkState (s_matches s) (s_partial s) (s_allItems s) (s_searchText s) x (s_keys s) (s_filters s) (s_threshold s) (s_error s) (s_errorMessage s) (s_index s) (s_lastIndex s) (s_totalMatches s) (s_ready s) (s_complete s) (s_searched s) (s_collection s).
Definition set_keys (x : list value) (s : State) : State :=
  mkState (s_matches s) (s_partial s) (s_allItems s) (s_searchText s) (s_searchTerms s) x (s_filters s) (s_threshold s) (s_error s) (s_errorMessage s) (s_index s) (s_lastIndex s) (s_totalMatches s) (s_ready s) (s_complete s) (s_searched s) (s_collection s).
Definition set_filters (x : list Filter) (s : State) : State :=
  mkState (s_matches s) (s_partial s) (s_allItems s) (s_searchText s) (s_searchTerms s) (s_keys s) x (s_threshold s) (s_error s) (s_errorMessage s) (s_index s) (s_lastIndex s) (s_totalMatches s) (s_ready s) (s_complete s) (s_searched s) (s_collection s).
Definition set_threshold (x : Z) (s : State) : State :=
  mkState (s_matches s) (s_partial s) (s_allItems s) (s_searchText s) (s_searchTerms s) (s_keys s) (s_filters s) x (s_error s) (s_errorMessage s) (s_index s) (s_lastIndex s) (s_totalMatches s) (s_ready s) (s_complete s) (s_searched s) (s_collection s).
Definition set_error (x : bool) (s : State) : State :=
  mkState (s_matches s) (s_partial s) (s_allItems s) (s_searchText s) (s_searchTerms s) (s_keys s) (s_filters s) (s_threshold s) x (s_errorMessage s) (s_index s) (s_lastIndex s) (s_totalMatches s) (s_ready s) (s_complete s) (s_searched s) (s_collection s).
Definition set_errorMessage (x : string) (s : State) : State :=
  mkState (s_matches s) (s_partial s) (s_allItems s) (s_searchText s) (s_searchTerms s) (s_keys s) (s_filters s) (s_threshold s) (s_error s) x (s_index s) (s_lastIndex s) (s_totalMatches s) (s_ready s) (s_complete s) (s_searched s) (s_collection s).
Definition set_index (x : Z) (s : State) : State :=
  mkState (s_matches s) (s_partial s) (s_allItems s) (s_searchText s) (s_searchTerms s) (s_keys s) (s_filters s) (s_threshold s) (s_error s) (s_errorMessage s) x (s_lastIndex s) (s_totalMatches s) (s_ready s) (s_complete s) (s_searched s) (s_collection s).
Definition set_lastIndex (x : Z) (s : State) : State :=
  mkState (s_matches s) (s_partial s) (s_allItems s) (s_searchText s) (s_searchTerms s) (s_keys s) (s_filters s) (s_threshold s) (s_error s) (s_errorMessage s) (s_index s) x (s_totalMatches s) (s_ready s) (s_complete s) (s_searched s) (s_collection s).
Definition set_totalMatches (x : Z) (s : State) : State :=
  mkState (s_matches s) (s_partial s) (s_allItems s) (s_searchText s) (s_searchTerms s) (s_keys s) (s_filters s) (s_threshold s) (s_error s) (s_errorMessage s) (s_index s) (s_lastIndex s) x (s_ready s) (s_complete s) (s_searched s) (s_collection s).
Definition set_ready (x : bool) (s : State) : State :=
  mkState (s_matches s) (s_partial s) (s_allItems s) (s_searchText s) (s_searchTerms s) (s_keys s) (s_filters s) (s_threshold s) (s_error s) (s_errorMessage s) (s_index s) (s_lastIndex s) (s_totalMatches s) x (s_complete s) (s_searched s) (s_collection s).
Definition set_complete (x : bool) (s : State) : State :=
  mkState (s_matches s) (s_partial s) (s_allItems s) (s_searchText s) (s_searchTerms s) (s_keys s) (s_filters s) (s_threshold s) (s_error s) (s_errorMessage s) (s_index s) (s_lastIndex s) (s_totalMatches s) (s_ready s) x (s_searched s) (s_collection s).
Definition set_searched (x : bool) (s : State) : State :=
  mkState (s_matches s) (s_partial s) (s_allItems s) (s_searchText s) (s_searchTerms s) (s_keys s) (s_filters s) (s_threshold s) (s_error s) (s_errorMessage s) (s_index s) (s_lastIndex s) (s_totalMatches s) (s_ready s) (s_complete s) x (s_collection s).
Definition set_collection (x : list (Key * value)) (s : State) : State :=
  mkState (s_matches s) (s_partial s) (s_allItems s) (s_searchText s) (s_searchTerms s) (s_keys s) (s_filters s) (s_threshold s) (s_error s) (s_errorMessage s) (s_index s) (s_lastIndex s) (s_totalMatches s) (s_ready s) (s_complete s) (s_searched s) x.

Definition set_collectionType (x : string) (o : Options) : Options :=
  mkOptions x (o_case o) (o_baseThreshold o) (o_sort o) (o_customSort o) (o_inject_property o) (o_inject_enabled o).
Definition set_case (x : bool) (o : Options) : Options :=
  mkOptions (o_collectionType o) x (o_baseThreshold o) (o_sort o) (o_customSort o) (o_inject_property o) (o_inject_enabled o).
Definition set_baseThreshold (x : Z) (o : Options) : Options :=
  mkOptions (o_collectionType o) (o_case o) x (o_sort o) (o_customSort o) (o_inject_property o) (o_inject_enabled o).
Definition set_sort (x : bool) (o : Options) : Options :=
  mkOptions (o_collectionType o) (o_case o) (o_baseThreshold o) x (o_customSort o) (o_inject_property o) (o_inject_enabled o).
Definition set_customSort (x : option SortCallback) (o : Options) : Options :=
  mkOptions (o_collectionType o) (o_case o) (o_baseThreshold o) (o_sort o) x (o_inject_property o) (o_inject_enabled o).
Definition set_inject_property (x : value) (o : Options) : Options :=
  mkOptions (o_collectionType o) (o_case o) (o_baseThreshold o) (o_sort o) (o_customSort o) x (o_inject_enabled o).
Definition set_inject_enabled (x : bool) (o : Options) : Options :=
  mkOptions (o_collectionType o) (o_case o) (o_baseThreshold o) (o_sort o) (o_customSort o) (o_inject_property o) x.

Definition on_s (f : State -> State) (sl : Instance) : Instance :=
  mkInstance (f (s_ sl)) (o_ sl).

Definition on_o (f : Options -> Options) (sl : Instance) : Instance :=
  mkInstance (s_ sl) (f (o_ sl)).

(** The contents of the array [s_.matches] refers to. *)
Definition matches_array (s : State) : list Match :=
  match s_matches s with
  | OwnArray a => a
  | AllItemsArray => s_allItems s
  end.

(** A change made in place to the array [s_.matches] refers to. *)
Definition update_matches_array (f : list Match -> list Match) (s : State) : State :=
  match s_matches s with
  | OwnArray a => set_matches (OwnArray (f a)) s
  | AllItemsArray => set_allItems (f (s_allItems s)) s
  end.

(** ** The program

    Definitions follow the source method by method and keep its names;
    [for], [and], [in], [or], [then], [catch] and [length] take a trailing
    underscore or a [get_] prefix. *)

Local Open Scope completion_scope.

(** *** Construction *)

Definition initial_s : State :=
  mkState (OwnArray []) [] [] "" [] [] [] 0 false "" 0 0 0 false false false [].

Definition initial_o : Options :=
  mkOptions "array" false 0 false None (VStr "searchResults") false.

(** [i_.collection_]: the entry [[key, collection[key]]]. *)
Definition i_collection_ (collection : value) (key : Key) : completion (Key * value) :=
  v <- get collection (key_value key) ;;
  Normal (key, v).

(** [new Map(entries)]. *)
Definition new_Map (entries : list (Key * value)) : list (Key * value) :=
  fold_left (fun m e => map_set (fst e) (snd e) m) entries [].

(** [fn_.collection_]. *)
Definition collection_ (sl : Instance) (collection : value) : completion Instance :=
  r <- match collection with
       | VArr elems =>
           Normal (map KIndex (seq 0 (List.length elems)), sl)
       | _ =>
           if (typeof collection =? "object")%string then
             ks <- Js.keys collection ;;
             ks <- filter_c (hasOwnProperty collection) ks ;;
             Normal (map KName ks, on_o (set_collectionType "object") sl)
           else
             Normal ([],
                     on_s (fun s =>
                             set_errorMessage
                               ("Invalid collection type: " ++ typeof collection)
                               (set_error true s)) sl)
       end ;;
  entries <- map_c (i_collection_ collection) (fst r) ;;
  Normal (on_s (fun s =>
                  set_searched false
                    (set_complete false (set_collection (new_Map entries) s)))
               (snd r)).

(** [search]: a new instance with its own [s_] and [o_]. *)
Definition search (items : value) : completion Instance :=
  collection_ (mkInstance initial_s initial_o) items.

(** *** Constraints *)

(** [and]. *)
Definition and_ (sl : Instance) (constraint : value) : completion Instance :=
  let sl :=
    on_s (fun s => set_searched false (set_complete false (set_ready false s))) sl in
  if (typeof constraint =? "string")%string then
    Normal (on_s (fun s =>
                    set_searchText
                      (trim (s_searchText s ++ " " ++ to_string constraint)) s) sl)
  else if (typeof constraint =? "object")%string then
    kov <- (if isArray constraint then
              k <- get constraint (VNum 0) ;;
              o <- get constraint (VNum 1) ;;
              v <- get constraint (VNum 2) ;;
              Normal (k, o, v)
            else
              k <- get constraint (VStr "key") ;;
              o <- get constraint (VStr "operator") ;;
              v <- get constraint (VStr "value") ;;
              Normal (k, o, v)) ;;
    let '(key, operator, value) := kov in
    let filter :=
      if (typeof value =? "undefined")%string
      then mkFilter key (VStr "==") operator
      else mkFilter key operator value in
    Normal (on_s (fun s => set_filters (s_filters s ++ [filter]) s) sl)
  else
    Normal sl.

(** [for]. *)
Definition for_ (sl : Instance) (constraint : value) : completion Instance :=
  and_ (on_s (fun s => set_filters [] (set_searchText "" s)) sl) constraint.

(** The arguments [Function.prototype.apply] reads off its second operand. *)
Definition list_from_array_like (v : value) : completion (list value) :=
  match v with
  | VUndefined | VNull => Normal []
  | VArr l => Normal l
  | VObj ps =>
      n <- match assoc "length" ps with
           | Some len =>
               converting [len] (match to_number len with
                                 | Some n => Z.to_nat n
                                 | None => O
                                 end)
           | None => Normal O
           end ;;
      Normal (map (fun i => match assoc (string_of_nat i) ps with
                            | Some x => x
                            | None => VUndefined
                            end) (seq 0 n))
  | _ => Throw (TypeError "CreateListFromArrayLike called on non-object")
  end.

(** [or]. *)
Definition or_ (sl : Instance) (keys : value) : completion Instance :=
  let sl :=
    on_s (fun s => set_searched false (set_complete false (set_ready false s))) sl in
  if (typeof keys =? "string")%string then
    Normal (on_s (fun s => set_keys (s_keys s ++ [keys]) s) sl)
  else
    more <- list_from_array_like keys ;;
    Normal (on_s (fun s => set_keys (s_keys s ++ more) s) sl).

(** [in]. *)
Definition in_ (sl : Instance) (keys : value) : completion Instance :=
  or_ (on_s (set_keys []) sl) keys.

Definition sorted (sl : Instance) : Instance :=
  if negb (o_sort (o_ sl))
  then on_s (set_complete false) (on_o (set_sort true) sl)
  else sl.

Definition unsorted (sl : Instance) : Instance :=
  if o_sort (o_ sl)
  then on_s (set_complete false) (on_o (set_sort false) sl)
  else sl.

(** [sortUsing]: the argument is a comparator or [null]. *)
Definition sortUsing (sl : Instance) (fn : option SortCallback) : Instance :=
  on_s (set_complete false) (on_o (set_customSort fn) sl).

Definition compareCase (sl : Instance) : Instance :=
  if negb (o_case (o_ sl))
  then on_s (fun s => set_searched false (set_complete false s))
            (on_o (set_case true) sl)
  else sl.

Definition ignoreCase (sl : Instance) : Instance :=
  if o_case (o_ sl)
  then on_s (fun s => set_searched false (set_complete false s))
            (on_o (set_case false) sl)
  else sl.

Definition withStats (sl : Instance) (property : value) : Instance :=
  let sl := on_o (set_inject_enabled true) sl in
  if negb (typeof property =? "undefined")%string
  then on_o (set_inject_property property) sl
  else sl.

Definition withoutStats (sl : Instance) : Instance :=
  on_o (set_inject_enabled false) sl.

(** [fn_.updateConstraints_]. *)
Definition updateConstraints_ (sl : Instance) : Instance :=
  if negb (s_ready (s_ sl)) then
    let terms :=
      if (s_searchText (s_ sl) =? "")%string then []
      else split (if o_case (o_ sl)
                  then s_searchText (s_ sl)
                  else toLowerCase (s_searchText (s_ sl))) " " in
    let threshold :=
      o_baseThreshold (o_ sl) + Z.of_nat (List.length (s_filters (s_ sl)))
      + number_of_bool (0 <? Z.of_nat (List.length terms)) in
    on_s (fun s => set_ready true (set_threshold threshold (set_searchTerms terms s))) sl
  else sl.

(** [fn_.isConstrained]: the instance after [updateConstraints_] and the
    truth of [searchTerms.length || filters.length]. *)
Definition isConstrained (sl : Instance) : Instance * bool :=
  let sl := updateConstraints_ sl in
  (sl,
   negb (Nat.eqb (List.length (s_searchTerms (s_ sl))) 0)
   || negb (Nat.eqb (List.length (s_filters (s_ sl))) 0)).

(** *** Relevance engine *)

(** [i_.property_]: [item[property] || null]. *)
Definition property_ (item property : value) : completion value :=
  v <- get item property ;;
  Normal (or_else v VNull).

(** [i_.search_]. *)
Definition search_ (match_ : Match) (subject term : string) : Match :=
  let relevance := Z.of_nat (List.length (split subject term)) - 1 in
  if negb (relevance =? 0)
  then mkMatch (m_key match_) (m_relevance match_ + relevance) (m_missing match_)
  else mkMatch (m_key match_) (m_relevance match_) (m_missing match_ ++ " " ++ term).

(** [match[1] += (boolean)]. *)
Definition add_result (match_ : Match) (b : bool) : Match :=
  mkMatch (m_key match_) (m_relevance match_ + number_of_bool b) (m_missing match_).

(** [i_.filter_]; the [switch] compares the operator with [===]. *)
Definition filter_ (item : value) (match_ : Match) (filter : Filter)
  : completion Match :=
  let key := f_key filter in
  let operator := f_operator filter in
  let value := f_value filter in
  if negb (typeof item =? "string")%string then
    if strict_eq operator (VStr "==") then
      v <- get item key ;; b <- loose_eq_c v value ;;
      Normal (add_result match_ b)
    else if strict_eq operator (VStr "===") then
      v <- get item key ;; Normal (add_result match_ (strict_eq v value))
    else if strict_eq operator (VStr "!=") then
      v <- get item key ;; b <- loose_eq_c v value ;;
      Normal (add_result match_ (negb b))
    else if strict_eq operator (VStr "!==") then
      v <- get item key ;; Normal (add_result match_ (negb (strict_eq v value)))
    else if strict_eq operator (VStr ">") then
      v <- get item key ;; b <- gt_c v value ;; Normal (add_result match_ b)
    else if strict_eq operator (VStr ">=") then
      v <- get item key ;; b <- ge_c v value ;; Normal (add_result match_ b)
    else if strict_eq operator (VStr "<") then
      v <- get item key ;; b <- lt_c v value ;; Normal (add_result match_ b)
    else if strict_eq operator (VStr "<=") then
      v <- get item key ;; b <- le_c v value ;; Normal (add_result match_ b)
    else
      Normal match_
  else
    Normal match_.

(** [i_.reduceProperties_]. *)
Definition reduceProperties_ (item : value) (subject key : string)
  : completion string :=
  v <- get item (VStr key) ;;
  text <- to_string_c v ;;
  Normal (subject ++ ("|" ++ text)).

(** The subject string [calculateRelevance_] derives from an item, before
    case folding. *)
Definition subject_of (sl : Instance) (item : value) : completion string :=
  if (typeof item =? "string")%string then
    Normal (to_string item)
  else if negb (Nat.eqb (List.length (s_keys (s_ sl))) 0) then
    parts <- map_c (property_ item) (s_keys (s_ sl)) ;;
    join_c "|" parts
  else
    match item with
    | VArr elems => join_c "|" elems
    | _ =>
        ks <- Js.keys item ;;
        fold_c (reduceProperties_ item) ks ""
    end.

(** The three-way branch that ends [calculateRelevance_]. *)
Definition classify (sl : Instance) (match_ : Match) : Instance :=
  let sl := on_s (fun s => set_allItems (s_allItems s ++ [match_]) s) sl in
  if m_relevance match_ =? 0 then
    sl
  else if m_relevance match_ <? s_threshold (s_ sl) then
    on_s (fun s => set_partial (s_partial s ++ [match_]) s) sl
  else
    on_s (update_matches_array (fun a => (a ++ [match_])%list)) sl.

(** The match [calculateRelevance_] computes for an item. *)
Definition score (sl : Instance) (item : value) (key : Key) : completion Match :=
  scored <- fold_c (filter_ item) (s_filters (s_ sl)) (mkMatch key 0 "") ;;
  subject <- subject_of sl item ;;
  let subject := if negb (o_case (o_ sl)) then toLowerCase subject else subject in
  Normal (fold_left (fun m term => search_ m subject term)
                    (s_searchTerms (s_ sl)) scored).

(** [i_.calculateRelevance_]. *)
Definition calculateRelevance_ (sl : Instance) (item : value) (key : Key)
  : completion Instance :=
  match_ <- score sl item key ;;
  Normal (classify sl match_).

(** [i_.emptyMatch_]. *)
Definition emptyMatch_ (key : Key) : Match := mkMatch key 0 "".

(** [i_.sortComparator_]: a number on two of its paths, the boolean
    [matchB[0] < matchA[0]] on the third. *)
Definition sortComparator_ (matchA matchB : Match) : value :=
  if m_relevance matchB >? m_relevance matchA then
    VNum 1
  else if m_relevance matchB =? m_relevance matchA then
    VBool (lt (key_value (m_key matchB)) (key_value (m_key matchA)))
  else
    VNum (-1).

(** *** Classification *)

(** [fn_.performSearch_].  When the scoring of an item raises, the exception
    leaves the method (see [performSearch_interrupted] for the instance it
    leaves behind). *)
Definition performSearch_ (sl : Instance) : completion Instance :=
  let '(sl, constrained) := isConstrained sl in
  sl <- (if constrained then
           fold_c (fun sl e => calculateRelevance_ sl (snd e) (fst e))
                  (s_collection (s_ sl))
                  (on_s (fun s =>
                           set_partial []
                             (set_matches (OwnArray []) (set_allItems [] s))) sl)
         else
           Normal (on_s (fun s =>
                           set_partial []
                             (set_matches AllItemsArray
                                (set_allItems
                                   (map emptyMatch_ (map fst (s_collection s))) s)))
                        sl)) ;;
  Normal (on_s (set_searched true) sl).

(** A [forEach] that an exception ends: the accumulator as the call that
    raised found it. *)
Fixpoint fold_interrupted {A B} (f : B -> A -> completion B) (l : list A) (b : B)
  : B :=
  match l with
  | [] => b
  | x :: l' =>
      match f b x with
      | Normal b' => fold_interrupted f l' b'
      | Throw _ => b
      end
  end.

(** The instance a [performSearch_] that raises leaves behind: the search
    terms and the threshold are up to date, the arrays hold the matches of
    the items scored before the one that raised, and the search is not
    marked as done. *)
Definition performSearch_interrupted (sl : Instance) : Instance :=
  let '(sl, constrained) := isConstrained sl in
  if constrained then
    fold_interrupted (fun sl e => calculateRelevance_ sl (snd e) (fst e))
                     (s_collection (s_ sl))
                     (on_s (fun s =>
                              set_partial []
                                (set_matches (OwnArray []) (set_allItems [] s))) sl)
  else sl.

(** *** Output *)

(** The item a collection stores under a key ([undefined] when absent). *)
Definition item_of (collection : list (Key * value)) (k : Key) : value :=
  match map_get k collection with
  | Some v => v
  | None => VUndefined
  end.

(** [fn_.getItem_]. *)
Definition getItem_ (sl : Instance) (match_ : Match) : value :=
  item_of (s_collection (s_ sl)) (m_key match_).

(** The object [{ relevance: match[1], missing: match[2] }]. *)
Definition stats (match_ : Match) : value :=
  VObj [("relevance", VNum (m_relevance match_));
        ("missing", VStr (m_missing match_))].

(** [fn_.getItemInject_].  The item is changed in place, so the change shows
    in the collection; the method returns the item itself, which the output
    holds by reference (see [Output]). *)
Definition getItemInject_ (sl : Instance) (match_ : Match) : completion Instance :=
  let store v :=
    on_s (fun s => set_collection (map_set (m_key match_) v (s_collection s)) s) sl in
  match getItem_ sl match_ with
  | VArr elems => Normal (store (VArr (elems ++ [stats match_])))
  | VObj props =>
      property <- to_string_c (o_inject_property (o_ sl)) ;;
      Normal (store (VObj (put property (stats match_) props)))
  | VNull =>
      Throw (TypeError ("Cannot set property "
                        ++ to_string (o_inject_property (o_ sl)) ++ " of null"))
  | _ => Normal sl
  end.

(** What an accessor returns: an array of items, or an object holding each
    item under its key.  Items are held by reference, and the only way to an
    item is through the collection, so a reference is the key the collection
    stores the item under. *)
Inductive Output : Type :=
| OutArray (items : list Key)
| OutObject (entries : list (string * Key)).

(** An entry written in the list of an output object's entries. *)
Fixpoint entry_set (name : string) (k : Key) (entries : list (string * Key))
  : list (string * Key) :=
  match entries with
  | [] => [(name, k)]
  | (name', k') :: entries' =>
      if (name' =? name)%string then (name, k) :: entries'
      else (name', k') :: entry_set name k entries'
  end.

(** [items[name] = item] on the object an output is built in, which starts
    empty: under the name [__proto__] the assignment reaches the inherited
    setter and the object gains no property (see [put]). *)
Definition entry_put (name : string) (k : Key) (entries : list (string * Key))
  : list (string * Key) :=
  if (name =? "__proto__")%string then entries else entry_set name k entries.

(** [i_.reduce_]. *)
Definition reduce_ (items : list (string * Key)) (match_ : Match)
  : list (string * Key) :=
  entry_put (to_string (key_value (m_key match_))) (m_key match_) items.

(** [i_.reduceInject_]: the accumulator and the instance, whose items change. *)
Definition reduceInject_ (acc : Instance * list (string * Key)) (match_ : Match)
  : completion (Instance * list (string * Key)) :=
  sl <- getItemInject_ (fst acc) match_ ;;
  Normal (sl, entry_put (to_string (key_value (m_key match_))) (m_key match_) (snd acc)).

(** [fn_.toOriginalFormat_]. *)
Definition toOriginalFormat_ (sl : Instance) (matches : list Match)
  : completion (Instance * Output) :=
  if (o_collectionType (o_ sl) =? "array")%string then
    if o_inject_enabled (o_ sl) then
      sl <- fold_c getItemInject_ matches sl ;;
      Normal (sl, OutArray (map m_key matches))
    else
      Normal (sl, OutArray (map m_key matches))
  else
    if o_inject_enabled (o_ sl) then
      r <- fold_c reduceInject_ matches (sl, []) ;;
      Normal (fst r, OutObject (snd r))
    else
      Normal (sl, OutObject (fold_left reduce_ matches [])).

(** What a caller reading through an output sees, given the items as they
    are in the instance at that moment. *)
Definition snapshot (sl : Instance) (out : Output) : value :=
  match out with
  | OutArray items => VArr (map (item_of (s_collection (s_ sl))) items)
  | OutObject entries =>
      VObj (map (fun e => (fst e, item_of (s_collection (s_ sl)) (snd e))) entries)
  end.

(** *** Sorting, caching and the accessors

    [array_sort comparefn a] stands for the contents of the array [a] after
    [a.sort(comparefn)]. *)

Section Program.

Variable array_sort : (Match -> Match -> value) -> list Match -> list Match.

(** [fn_.performSort_]: the instance (whose terms [isConstrained] may
    refresh) and the new contents of the array handed in. *)
Definition performSort_ (sl : Instance) (matches : list Match)
  : Instance * list Match :=
  let '(sl, matches) :=
    if o_sort (o_ sl) then
      let '(sl, constrained) := isConstrained sl in
      if constrained && negb (Nat.eqb (List.length matches) 0)
      then (sl, array_sort sortComparator_ matches)
      else (sl, matches)
    else (sl, matches) in
  match o_customSort (o_ sl) with
  | Some fn => (sl, array_sort (fn (getItem_ sl)) matches)
  | None => (sl, matches)
  end.

(** [fn_.updateMatches_]. *)
Definition updateMatches_ (sl : Instance) : completion Instance :=
  if negb (s_complete (s_ sl)) then
    sl <- (if negb (s_searched (s_ sl)) then performSearch_ sl else Normal sl) ;;
    let '(sl, sorted_matches) := performSort_ sl (matches_array (s_ sl)) in
    let sl := on_s (update_matches_array (fun _ => sorted_matches)) sl in
    let total := Z.of_nat (List.length (matches_array (s_ sl))) in
    Normal (on_s (fun s =>
                    set_complete true
                      (set_lastIndex (total - 1)
                         (set_index 0 (set_totalMatches total s)))) sl)
  else
    Normal sl.

(** [get length]. *)
Definition get_length (sl : Instance) : completion (Instance * Z) :=
  sl <- updateMatches_ sl ;;
  Normal (sl, s_totalMatches (s_ sl)).

(** [get matches]. *)
Definition get_matches (sl : Instance) : completion (Instance * Output) :=
  sl <- updateMatches_ sl ;;
  toOriginalFormat_ sl (matches_array (s_ sl)).

(** [get partialMatches]. *)
Definition get_partialMatches (sl : Instance) : completion (Instance * Output) :=
  sl <- updateMatches_ sl ;;
  let '(sl, sorted_partial) := performSort_ sl (s_partial (s_ sl)) in
  let sl := on_s (set_partial sorted_partial) sl in
  toOriginalFormat_ sl (s_partial (s_ sl)).

(** [get allMatches]. *)
Definition get_allMatches (sl : Instance) : completion (Instance * Output) :=
  sl <- updateMatches_ sl ;;
  let allMatches := (matches_array (s_ sl) ++ s_partial (s_ sl))%list in
  let '(sl, allMatches) := performSort_ sl allMatches in
  toOriginalFormat_ sl allMatches.

(** [get allItems]. *)
Definition get_allItems (sl : Instance) : completion (Instance * Output) :=
  sl <- updateMatches_ sl ;;
  let '(sl, sorted_items) := performSort_ sl (s_allItems (s_ sl)) in
  let sl := on_s (set_allItems sorted_items) sl in
  toOriginalFormat_ sl (s_allItems (s_ sl)).

(** How the promise [then] creates is settled: fulfilled with an object of
    three getters, or rejected.  An exception inside the executor rejects
    the promise. *)
Inductive Settled : Type :=
| Fulfilled (getters : list string)
| Rejected (reason : error).

(** [then]: the instance it returns and the outcome handed to the callbacks.
    [updateMatches_] raises only inside [performSearch_]; the promise is
    then rejected and the instance is given back as the search left it. *)
Definition then_ (sl : Instance) : Instance * Settled :=
  match updateMatches_ sl with
  | Normal sl =>
      if s_error (s_ sl)
      then (sl, Rejected (Error (s_errorMessage (s_ sl))))
      else (sl, Fulfilled ["matches"; "partialMatchess"; "allMatchess"])
  | Throw e => (performSearch_interrupted sl, Rejected e)
  end.

(** [catch]. *)
Definition catch_ (sl : Instance) : Instance * Settled := then_ sl.

(** *** Iteration *)

(** The properties an instance owns and those of [SearchLight.prototype];
    the helpers, [updateMatches_] among them, live one level down, in the
    objects [fn_] and [i_]. *)
Definition own_members : list string := ["s_"; "o_"].

Definition prototype_members : list string :=
  ["search"; "for"; "and"; "in"; "or"; "sorted"; "unsorted"; "sortUsing";
   "compareCase"; "ignoreCase"; "withStats"; "withoutStats"; "then"; "catch";
   "length"; "matches"; "partialMatches"; "allMatches"; "allItems";
   "Symbol.iterator"; "fn_"; "i_"].

(** Whether [this.name] resolves on an instance. *)
Definition resolves (name : string) : bool :=
  existsb (String.eqb name) (own_members ++ prototype_members).

(** The object [{ next: ... }] an iteration request returns. *)
Inductive NextIterator : Type :=
| Next
| NextInject.

(** [[Symbol.iterator]]: it begins with the call [this.updateMatches_()]. *)
Definition Symbol_iterator (sl : Instance) : completion (Instance * NextIterator) :=
  if resolves "updateMatches_" then
    sl <- updateMatches_ sl ;;
    Normal (sl, if o_inject_enabled (o_ sl) then NextInject else Next)
  else
    Throw (TypeError "this.updateMatches_ is not a function").

(** *** Instances in use *)

(** The calls a program makes on an instance. *)
Inductive Call : Type :=
| CallFor (constraint : value)
| CallAnd (constraint : value)
| CallIn (keys : value)
| CallOr (keys : value)
| CallSorted
| CallUnsorted
| CallSortUsing (fn : option SortCallback)
| CallCompareCase
| CallIgnoreCase
| CallWithStats (property : value)
| CallWithoutStats
| CallThen
| CallCatch
| ReadLength
| ReadMatches
| ReadPartialMatches
| ReadAllMatches
| ReadAllItems.

(** The instance after a call. *)
Definition call (c : Call) (sl : Instance) : completion Instance :=
  match c with
  | CallFor constraint => for_ sl constraint
  | CallAnd constraint => and_ sl constraint
  | CallIn keys => in_ sl keys
  | CallOr keys => or_ sl keys
  | CallSorted => Normal (sorted sl)
  | CallUnsorted => Normal (unsorted sl)
  | CallSortUsing fn => Normal (sortUsing sl fn)
  | CallCompareCase => Normal (compareCase sl)
  | CallIgnoreCase => Normal (ignoreCase sl)
  | CallWithStats property => Normal (withStats sl property)
  | CallWithoutStats => Normal (withoutStats sl)
  | CallThen => Normal (fst (then_ sl))
  | CallCatch => Normal (fst (catch_ sl))
  | ReadLength => r <- get_length sl ;; Normal (fst r)
  | ReadMatches => r <- get_matches sl ;; Normal (fst r)
  | ReadPartialMatches => r <- get_partialMatches sl ;; Normal (fst r)
  | ReadAllMatches => r <- get_allMatches sl ;; Normal (fst r)
  | ReadAllItems => r <- get_allItems sl ;; Normal (fst r)
  end.

(** The instances a program can hold: made by [search], then used. *)
Inductive Reachable : Instance -> Prop :=
| reach_search items sl :
    search items = Normal sl -> Reachable sl
| reach_call c sl sl' :
    Reachable sl -> call c sl = Normal sl' -> Reachable sl'.

End Program.

(** *** The iterators

    [i_.next_] and [i_.nextInject_] are bound to the instance, and both
    reach their helper through a method call, [this.fn_.getItem_(...)] and
    [this.fn_.getItemInject_(...)]: inside the helper [this] is then the
    object [fn_], not the instance. *)

(** What a helper of [fn_] finds as [this]. *)
Inductive Receiver : Type :=
| TheInstance (sl : Instance)
| TheFnObject.

(** [this.s_]: an instance owns the property, the object [fn_], whose
    members are the nine helpers, does not. *)
Definition receiver_s_ (this : Receiver) : option State :=
  match this with
  | TheInstance sl => Some (s_ sl)
  | TheFnObject => None
  end.

(** [this.s_.collection.get(match[0])], the expression [getItem_] returns
    and [getItemInject_] begins with.  The match is [undefined] when the
    index it was read at is outside the array. *)
Definition collection_get (this : Receiver) (match_ : option Match)
  : completion value :=
  match receiver_s_ this with
  | None => Throw (TypeError "Cannot read property collection of undefined")
  | Some s =>
      match match_ with
      | None => Throw (TypeError "Cannot read property 0 of undefined")
      | Some m => Normal (item_of (s_collection s) (m_key m))
      end
  end.

(** [fn_.getItem_] with its receiver. *)
Definition getItem_as (this : Receiver) (match_ : option Match)
  : completion value :=
  collection_get this match_.

(** [fn_.getItemInject_] with its receiver: the lookup first, then the
    injection, which [getItemInject_] describes for an instance. *)
Definition getItemInject_as (this : Receiver) (match_ : option Match)
  : completion (Receiver * value) :=
  item <- collection_get this match_ ;;
  match this, match_ with
  | TheInstance sl, Some m =>
      sl' <- getItemInject_ sl m ;;
      Normal (TheInstance sl', getItem_ sl' m)
  | _, _ => Normal (this, item)
  end.

(** The object an iterator step returns: [{ done: true }] or
    [{ done: false, value: item }]. *)
Inductive IteratorResult : Type :=
| Done
| Value (item : value).

(** [this.s_.matches[this.s_.index++]]: the instance with the index moved
    on, and the element read. *)
Definition next_match (sl : Instance) : Instance * option Match :=
  (on_s (fun s => set_index (s_index s + 1) s) sl,
   if s_index (s_ sl) <? 0 then None
   else nth_error (matches_array (s_ sl)) (Z.to_nat (s_index (s_ sl)))).

(** [i_.next_]: the instance after the step, and what the step returns. *)
Definition next_ (sl : Instance) : Instance * completion IteratorResult :=
  if s_index (s_ sl) >? s_lastIndex (s_ sl) then
    (sl, Normal Done)
  else
    let '(sl, match_) := next_match sl in
    (sl, item <- getItem_as TheFnObject match_ ;; Normal (Value item)).

(** [i_.nextInject_]. *)
Definition nextInject_ (sl : Instance) : Instance * completion IteratorResult :=
  if s_index (s_ sl) >? s_lastIndex (s_ sl) then
    (sl, Normal Done)
  else
    let '(sl, match_) := next_match sl in
    (sl, r <- getItemInject_as TheFnObject match_ ;; Normal (Value (snd r))).

(** ** Vocabulary of the statements *)

(** The instance with its three result arrays replaced. *)
Definition with_arrays (all : list Match) (full : MatchesRef) (part : list Match)
    (sl : Instance) : Instance :=
  on_s (fun s => set_partial part (set_matches full (set_allItems all s))) sl.

(** The two non-empty branches of [calculateRelevance_], as tests on a match. *)
Definition is_partial (threshold : Z) (m : Match) : bool :=
  negb (m_relevance m =? 0) && (m_relevance m <? threshold).

Definition is_full (threshold : Z) (m : Match) : bool :=
  negb (m_relevance m =? 0) && negb (m_relevance m <? threshold).

(** The matches a scoring pass computes, in collection order. *)
Definition pass_scores (sl : Instance) : completion (list Match) :=
  map_c (fun e => score sl (snd e) (fst e)) (s_collection (s_ sl)).

(** No filter and no search text: nothing constrains the search. *)
Definition unconstrained (sl : Instance) : Prop :=
  s_searchText (s_ sl) = "" /\ s_filters (s_ sl) = [].

(** The falsy values a property can hold: [0], [false] and the empty string. *)
Definition falsy_present (v : value) : Prop :=
  v = VNum 0 \/ v = VBool false \/ v = VStr "".

(** What holds of every instance in use (see [Reachable_Inv]): the keys of
    the collection are distinct; the base threshold is the one [search]
    sets; constraints marked ready are in step with the search text and the
    filters; results marked complete come from a search; after an
    unconstrained search [s_.matches] is [s_.allItems], one empty match per
    key; an invalid collection leaves everything empty; no key has two full
    matches; and results marked complete carry the number of full matches. *)
Record Inv (sl : Instance) : Prop := mkInv {
  inv_keys : NoDup (map fst (s_collection (s_ sl)));
  inv_base : o_baseThreshold (o_ sl) = 0;
  inv_ready :
    s_ready (s_ sl) = true ->
    (s_searchTerms (s_ sl) = [] <-> s_searchText (s_ sl) = "")
    /\ s_threshold (s_ sl)
       = o_baseThreshold (o_ sl) + Z.of_nat (List.length (s_filters (s_ sl)))
         + number_of_bool (0 <? Z.of_nat (List.length (s_searchTerms (s_ sl))));
  inv_complete : s_complete (s_ sl) = true -> s_searched (s_ sl) = true;
  inv_unconstrained :
    s_searched (s_ sl) = true -> unconstrained sl ->
    s_matches (s_ sl) = AllItemsArray
    /\ s_partial (s_ sl) = []
    /\ Permutation (s_allItems (s_ sl))
                   (map emptyMatch_ (map fst (s_collection (s_ sl))));
  inv_error :
    s_error (s_ sl) = true ->
    s_collection (s_ sl) = []
    /\ o_collectionType (o_ sl) = "array"
    /\ s_allItems (s_ sl) = []
    /\ s_partial (s_ sl) = []
    /\ matches_array (s_ sl) = [];
  inv_matches_keys : NoDup (map m_key (matches_array (s_ sl)));
  inv_total :
    s_complete (s_ sl) = true ->
    s_totalMatches (s_ sl) = Z.of_nat (List.length (matches_array (s_ sl)))
}.

(** The three buckets of a classification, by key.  The program keeps two
    arrays, [s_.matches] and [s_.partial]; an item in neither is excluded. *)
Definition full_keys (sl : Instance) : list Key :=
  map m_key (matches_array (s_ sl)).

Definition partial_keys (sl : Instance) : list Key :=
  map m_key (s_partial (s_ sl)).

Definition has_key (k : Key) (l : list Key) : bool := existsb (key_eqb k) l.

Definition excluded_keys (sl : Instance) : list Key :=
  filter (fun k => negb (has_key k (full_keys sl))
                   && negb (has_key k (partial_keys sl)))
         (map m_key (s_allItems (s_ sl))).

Definition count_key (k : Key) (l : list Key) : nat :=
  List.length (filter (key_eqb k) l).

(** In how many buckets, counting repetitions, a key appears. *)
Definition bucket_count (sl : Instance) (k : Key) : nat :=
  (count_key k (full_keys sl) + count_key k (partial_keys sl)
   + count_key k (excluded_keys sl))%nat.

(** Items that have properties to read: anything but [null] and
    [undefined]. *)
Definition scorable (collection : list (Key * value)) : Prop :=
  forall e, In e collection -> is_nullish (snd e) = false.

(** The values a property read can find in a value: the elements of an
    array, the property values of an object. *)
Definition own_values (base : value) : list value :=
  match base with
  | VArr l => l
  | VObj ps => map snd ps
  | _ => []
  end.

(** Items and constraints on which no conversion raises: what the items
    hold, the restricted keys, and the keys and values of the filters all
    convert to primitives. *)
Record Convertible (sl : Instance) : Prop := mkConvertible {
  conv_items :
    forall e v, In e (s_collection (s_ sl)) -> In v (own_values (snd e)) ->
                unconvertible v = false;
  conv_keys : forall k, In k (s_keys (s_ sl)) -> unconvertible k = false;
  conv_filters :
    forall f, In f (s_filters (s_ sl)) ->
              unconvertible (f_key f) = false /\ unconvertible (f_value f) = false
}.

(** The references an output holds for a list of matches; formatting never
    returns anything else (see [toOriginalFormat_output]). *)
Definition format_refs (sl : Instance) (ms : list Match) : Output :=
  if (o_collectionType (o_ sl) =? "array")%string
  then OutArray (map m_key ms)
  else OutObject (fold_left reduce_ ms []).

(** The three accessors that return every item of an unconstrained search. *)
Inductive View : Type :=
| ViewMatches
| ViewAllMatches
| ViewAllItems.

Definition read (array_sort : (Match -> Match -> value) -> list Match -> list Match)
    (v : View) (sl : Instance) : completion (Instance * Output) :=
  match v with
  | ViewMatches => get_matches array_sort sl
  | ViewAllMatches => get_allMatches array_sort sl
  | ViewAllItems => get_allItems array_sort sl
  end.

(** An object that has a property of its own named [hasOwnProperty], in
    front of the method every object inherits. *)
Definition shadows_hasOwnProperty (v : value) : bool :=
  match v with
  | VObj ps =>
      match assoc "hasOwnProperty" ps with
      | Some _ => true
      | None => false
      end
  | _ => false
  end.


(** What no method but [search], the constraint setters and the option
    setters may change. *)
Record same_setup (a b : Instance) : Prop := mkSameSetup {
  setup_options : o_ b = o_ a;
  setup_collection : s_collection (s_ b) = s_collection (s_ a);
  setup_searchText : s_searchText (s_ b) = s_searchText (s_ a);
  setup_filters : s_filters (s_ b) = s_filters (s_ a);
  setup_keys : s_keys (s_ b) = s_keys (s_ a);
  setup_error : s_error (s_ b) = s_error (s_ a);
  setup_errorMessage : s_errorMessage (s_ b) = s_errorMessage (s_ a)
}.

(** The search text and the filter list that [.for(constraint)] leaves, in
    the words of the specification: a text constraint is kept trimmed; an
    array [[key, operator, value]] or an object with these three fields is
    one filter, the two-element form standing for the operator ["=="]. *)
Definition replaced_text (constraint : value) : string :=
  match constraint with
  | VStr text => trim text
  | _ => ""
  end.

Definition normalized_filter (key operator value : value) : Filter :=
  match value with
  | VUndefined => mkFilter key (VStr "==") operator
  | _ => mkFilter key operator value
  end.

Definition field (name : string) (props : list (string * value)) : value :=
  match assoc name props with
  | Some v => v
  | None => VUndefined
  end.

Definition replaced_filters (constraint : value) : list Filter :=
  match constraint with
  | VArr elems =>
      [normalized_filter (nth 0 elems VUndefined) (nth 1 elems VUndefined)
                         (nth 2 elems VUndefined)]
  | VObj props =>
      [normalized_filter (field "key" props) (field "operator" props)
                         (field "value" props)]
  | _ => []
  end.

(** A program: [search(items)] followed by calls on the instance. *)
Definition use (array_sort : (Match -> Match -> value) -> list Match -> list Match)
    (items : value) (calls : list Call) : completion Instance :=
  sl <- search items ;;
  fold_c (fun sl c => call array_sort c sl) calls sl.

(** What the caller sees of an accessor's result at the moment it returns. *)
Definition observe (r : completion (Instance * Output)) : completion value :=
  p <- r ;; Normal (snapshot (fst p) (snd p)).

(** The instance a program leaves, for programs that do not raise. *)
Definition instance_of (r : completion Instance) : Instance :=
  match r with
  | Normal sl => sl
  | Throw _ => mkInstance initial_s initial_o
  end.

(** Instances to run the program on, under the host [stable_sort]. *)
Definition three_desserts : value :=
  VArr [VStr "apple pie"; VStr "banana split"; VStr "apple tart"].

(** [search(['apple pie', 'banana split', 'apple tart']).for('apple')]. *)
Definition apples : Instance :=
  Eval vm_compute in
    instance_of (use stable_sort three_desserts [CallFor (VStr "apple")]).

Definition apples_searched : Instance :=
  Eval vm_compute in instance_of (performSearch_ apples).

(** [search(['apple pie', 'banana split', 'apple tart'])]. *)
Definition desserts : Instance :=
  Eval vm_compute in instance_of (use stable_sort three_desserts []).


(** [search([['a']]).withStats()] and [search([{n: 1}]).withStats()]. *)
Definition nested_with_stats : Instance :=
  Eval vm_compute in
    instance_of (use stable_sort (VArr [VArr [VStr "a"]])
                     [CallWithStats VUndefined]).

Definition record_with_stats : Instance :=
  Eval vm_compute in
    instance_of (use stable_sort (VArr [VObj [("n", VNum 1)]])
                     [CallWithStats VUndefined]).

Definition record_read_once : Instance :=
  Eval vm_compute in
    instance_of (use stable_sort (VArr [VObj [("n", VNum 1)]])
                     [CallWithStats VUndefined; ReadMatches]).

(** [search([{n: 0}]).in('n')]. *)
Definition zero_in_n : Instance :=
  Eval vm_compute in
    instance_of (use stable_sort (VArr [VObj [("n", VNum 0)]])
                     [CallIn (VStr "n")]).

(** [search({b: 'x', a: 'x'}).for('x').sorted()]. *)
Definition tied_b_a : Instance :=
  Eval vm_compute in
    instance_of (use stable_sort (VObj [("b", VStr "x"); ("a", VStr "x")])
                     [CallFor (VStr "x"); CallSorted]).

(** A comparator of the caller's that answers -1 whatever it is asked. *)
Definition always_before : SortCallback := fun _ _ _ => VNum (-1).

(** [search(['a', 'b']).sortUsing(always_before)]. *)
Definition pair_reversed : Instance :=
  Eval vm_compute in
    instance_of (use stable_sort (VArr [VStr "a"; VStr "b"])
                     [CallSortUsing (Some always_before)]).

(** Opens an instance and the invariant assumed of it into their fields. *)
Ltac open_inv H :=
  let K := fresh "Hkeys" in
  let B := fresh "Hbase" in
  let R := fresh "Hready" in
  let C := fresh "Hcomplete" in
  let U := fresh "Hunconstrained" in
  let E := fresh "Herror" in
  let M := fresh "Hmatches" in
  let T := fresh "Htotal" in
  destruct H as [K B R C U E M T]; unfold unconstrained in *;
  cbn in K, B, R, C, U, E, M, T.

Ltac close_inv :=
  constructor; unfold unconstrained in *; cbn in *; intros;
  try discriminate; auto.

(** Case analysis on the tests and sequencing steps of a method's result. *)
Ltac split_result H :=
  repeat match type of H with
         | (if ?c then _ else _) = _ => destruct c eqn:?; cbn in H
         | bind ?g _ = _ => destruct g eqn:?; cbn in H
         | (let '(_, _) := ?p in _) = _ => destruct p; cbn in H
         end;
  try discriminate.

(** ** More vocabulary *)

(** The operators the [switch] of [filter_] has a case for. *)
Definition known_operators : list string :=
  ["=="; "==="; "!="; "!=="; ">"; ">="; "<"; "<="].

Definition known_operator (operator : value) : bool :=
  existsb (fun name => strict_eq operator (VStr name)) known_operators.

(** What else holds of every instance in use (see [Reachable_Consistent]):
    the search text is stored trimmed; the keys of an object are property
    names; and once a search has run, [s_.allItems] holds one match per
    key of the collection while [s_.matches] and [s_.partial] hold two
    parts of it that share no match. *)
Record Consistent (sl : Instance) : Prop := mkConsistent {
  con_text : trim (s_searchText (s_ sl)) = s_searchText (s_ sl);
  con_names :
    o_collectionType (o_ sl) <> "array" ->
    forall k, In k (map fst (s_collection (s_ sl))) -> exists name, k = KName name;
  con_all :
    s_searched (s_ sl) = true ->
    Permutation (map m_key (s_allItems (s_ sl))) (map fst (s_collection (s_ sl)));
  con_split :
    s_searched (s_ sl) = true ->
    exists p q : Match -> bool,
      (forall m, p m = true -> q m = false)
      /\ Permutation (matches_array (s_ sl)) (filter p (s_allItems (s_ sl)))
      /\ Permutation (s_partial (s_ sl)) (filter q (s_allItems (s_ sl)))
}.

(** Whether an output of a collection of the given type holds the item
    stored under a key: an output array holds every item, an output object
    every item but the one under the name [__proto__]. *)
Definition listed (collectionType : string) (k : Key) : bool :=
  (collectionType =? "array")%string
  || match k with
     | KName name => negb (name =? "__proto__")%string
     | KIndex _ => true
     end.

(** The keys of the items an output holds, in its order. *)
Definition output_keys (out : Output) : list Key :=
  match out with
  | OutArray items => items
  | OutObject entries => map snd entries
  end.

Ltac open_con H :=
  let T := fresh "Htext" in
  let N := fresh "Hnames" in
  let A := fresh "Hall" in
  let S := fresh "Hsplit" in
  destruct H as [T N A S]; cbn in T, N, A, S.

Ltac close_con :=
  constructor; cbn; intros; try discriminate; auto.

(** The terms [updateConstraints_] cuts a search text into. *)
Definition terms_of (sl : Instance) (text : string) : list string :=
  split (if o_case (o_ sl) then text else toLowerCase text) " ".

(** More instances to run the program on, under the host [stable_sort]. *)

(** [search({a: {n: 1}, b: {n: 5}, c: {n: 10}}).for(['n', '>=', 5])]. *)
Definition numbered : Instance :=
  Eval vm_compute in
    instance_of (use stable_sort
                     (VObj [("a", VObj [("n", VNum 1)]);
                            ("b", VObj [("n", VNum 5)]);
                            ("c", VObj [("n", VNum 10)])])
                     [CallFor (VArr [VStr "n"; VStr ">="; VNum 5])]).

Definition numbered_searched : Instance :=
  Eval vm_compute in instance_of (performSearch_ numbered).

(** [search([{n: 1, t: 'x'}, {n: 2, t: 'x'}]).for('x').and(['n', '==', 1])]:
    one full and one partial match. *)
Definition mixed : Instance :=
  Eval vm_compute in
    instance_of (use stable_sort
                     (VArr [VObj [("n", VNum 1); ("t", VStr "x")];
                            VObj [("n", VNum 2); ("t", VStr "x")]])
                     [CallFor (VStr "x");
                      CallAnd (VArr [VStr "n"; VStr "=="; VNum 1])]).

(** [search(['a', 'aa']).for('a')]: relevance 1, then relevance 2. *)
Definition graded : Instance :=
  Eval vm_compute in
    instance_of (use stable_sort (VArr [VStr "a"; VStr "aa"]) [CallFor (VStr "a")]).

(** [search(['a']).withStats()]. *)
Definition plain_with_stats : Instance :=
  Eval vm_compute in
    instance_of (use stable_sort (VArr [VStr "a"]) [CallWithStats VUndefined]).

(** [search([{n: 1}]).for(['n', '=>', 1])]: the operator is mistyped. *)
Definition mistyped : Instance :=
  Eval vm_compute in
    instance_of (use stable_sort (VArr [VObj [("n", VNum 1)]])
                     [CallFor (VArr [VStr "n"; VStr "=>"; VNum 1])]).

Definition mistyped_searched : Instance :=
  Eval vm_compute in instance_of (performSearch_ mistyped).

(** [search(['a', null]).for('a')]: the second item cannot be scored. *)
Definition holed : Instance :=
  Eval vm_compute in
    instance_of (use stable_sort (VArr [VStr "a"; VNull]) [CallFor (VStr "a")]).

(** An instance under other order options: the sort flag, the comparator,
    and the [complete] mark that setting them clears. *)
Definition reordered (complete sort : bool) (customSort : option SortCallback)
    (sl : Instance) : Instance :=
  on_s (set_complete complete)
       (on_o (fun o => set_customSort customSort (set_sort sort o)) sl).


(** * Properties *)

(** ** Conversions that raise *)

Lemma converting_ok {A : Type} (operands : list value) (r : A) :
  existsb unconvertible operands = false -> converting operands r = Normal r.
Proof. intros H. unfold converting. rewrite H. reflexivity. Qed.

Lemma converting_normal {A : Type} (operands : list value) (r r' : A) :
  converting operands r = Normal r' ->
  existsb unconvertible operands = false /\ r' = r.
Proof.
  unfold converting. destruct (existsb unconvertible operands); [discriminate|].
  intros H. injection H as <-. split; reflexivity.
Qed.

Lemma converting_throw {A : Type} (operands : list value) (r : A) e :
  converting operands r = Throw e -> e = conversion_error.
Proof.
  unfold converting. destruct (existsb unconvertible operands); [|discriminate].
  intros H. injection H as <-. reflexivity.
Qed.

Lemma existsb_one (v : value) : existsb unconvertible [v] = unconvertible v.
Proof. cbn. apply orb_false_r. Qed.

Lemma get_ok base key :
  is_nullish base = false -> unconvertible key = false ->
  get base key = Normal (own_property base (to_string key)).
Proof.
  intros Hb Hk. unfold get. rewrite Hb. apply converting_ok.
  rewrite existsb_one. exact Hk.
Qed.

Lemma get_normal base key v :
  get base key = Normal v ->
  is_nullish base = false /\ unconvertible key = false
  /\ v = own_property base (to_string key).
Proof.
  unfold get. destruct (is_nullish base); [discriminate|]. intros H.
  apply converting_normal in H. rewrite existsb_one in H. tauto.
Qed.

Lemma get_unconvertible base key :
  is_nullish base = false -> unconvertible key = true ->
  get base key = Throw conversion_error.
Proof.
  intros Hb Hk. unfold get, converting. rewrite Hb, existsb_one, Hk. reflexivity.
Qed.

(** ** Scoring one search term *)

Lemma split_from_nonempty sep skip cur s : split_from sep skip cur s <> [].
Proof.
  revert skip cur.
  induction s as [|c s IH]; intros skip cur; cbn [split_from].
  - discriminate.
  - destruct skip as [|k]; [|apply IH].
    destruct (String.prefix sep (String c s)); [discriminate|apply IH].
Qed.

(** Splitting on a space, as [updateConstraints_] does, never yields an
    empty array. *)
Lemma split_space_nonempty s : split s " " <> [].
Proof. apply split_from_nonempty. Qed.

(** The empty subject splits into at most one piece. *)
Lemma split_empty_subject term : (List.length (split "" term) <= 1)%nat.
Proof. destruct term; simpl; lia. Qed.

Lemma search_key m subject term : m_key (search_ m subject term) = m_key m.
Proof. unfold search_. destruct (negb _); reflexivity. Qed.

Lemma fold_search_key subject terms m :
  m_key (fold_left (fun m t => search_ m subject t) terms m) = m_key m.
Proof.
  revert m. induction terms as [|t terms IH]; intros m; simpl; [reflexivity|].
  rewrite IH. apply search_key.
Qed.


(** ** Restricted keys and falsy values *)

Lemma property_falsy item property v :
  get item property = Normal v -> falsy_present v ->
  property_ item property = Normal VNull.
Proof.
  intros Hget Hfalsy. unfold falsy_present in Hfalsy.
  destruct Hfalsy as [-> | [-> | ->]]; unfold property_; rewrite Hget;
    reflexivity.
Qed.

(** A property access depends on the key through its string, once the key
    has been converted. *)
Lemma get_same_key base k k' :
  to_string k = to_string k' -> unconvertible k = unconvertible k' ->
  get base k = get base k'.
Proof.
  intros H Hc. unfold get, converting. rewrite !existsb_one, H, Hc. reflexivity.
Qed.

Lemma property_missing item property :
  get item property = Normal VUndefined ->
  property_ item property = Normal VNull.
Proof. intros Hget. unfold property_. rewrite Hget. reflexivity. Qed.

Lemma map_c_ext {A B} (f g : A -> completion B) l :
  (forall x, In x l -> f x = g x) -> map_c f l = map_c g l.
Proof.
  induction l as [|x l IH]; intros H; simpl; [reflexivity|].
  rewrite (H x (or_introl eq_refl)), IH; [reflexivity|].
  intros y Hy. apply H. right. exact Hy.
Qed.

(** C10: under a restricted key set, a property of a non-text item whose
    value is [0], [false] or the empty string is replaced by [null], which
    [join] renders as the empty string: the subject is the one of an item
    that lacks the property, and the value's text does not occur in the
    placeholder. *)
Theorem falsy_property_reads_as_missing :
  forall (sl : Instance) (item item_without property v : value),
    s_keys (s_ sl) <> [] ->
    typeof item <> "string" ->
    typeof item_without <> "string" ->
    get item property = Normal v ->
    falsy_present v ->
    get item_without property = Normal VUndefined ->
    (forall k, In k (s_keys (s_ sl)) -> to_string k <> to_string property ->
               get item_without k = get item k) ->
    property_ item property = Normal VNull
    /\ property_ item_without property = Normal VNull
    /\ join_piece VNull = ""
    /\ subject_of sl item = subject_of sl item_without
    /\ (s_keys (s_ sl) = [property] -> subject_of sl item = Normal "")
    /\ Z.of_nat (List.length (split "" (to_string v))) - 1 <= 0.
Proof.
  intros sl item item_without property v Hkeys Hitem Hwithout Hget Hfalsy
         Hmissing Hsame.
  pose proof (property_falsy _ _ _ Hget Hfalsy) as Hnull.
  pose proof (property_missing _ _ Hmissing) as Hnull'.
  destruct (get_normal _ _ _ Hget) as (Hbase & Hproperty & _).
  destruct (get_normal _ _ _ Hmissing) as (Hbase' & _ & _).
  assert (Hsubject : forall i, typeof i <> "string" ->
            subject_of sl i
            = bind (map_c (property_ i) (s_keys (s_ sl)))
                   (fun parts => join_c "|" parts)).
  { intros i Hi. unfold subject_of.
    apply String.eqb_neq in Hi. rewrite Hi.
    destruct (s_keys (s_ sl)) as [|k ks]; [contradiction|reflexivity]. }
  repeat split; try assumption.
  - rewrite (Hsubject _ Hitem), (Hsubject _ Hwithout). f_equal.
    apply map_c_ext. intros k Hk.
    destruct (string_dec (to_string k) (to_string property)) as [Heq|Hne].
    + unfold property_ in *.
      destruct (unconvertible k) eqn:Hconv.
      * rewrite !get_unconvertible by assumption. reflexivity.
      * assert (Hc : unconvertible k = unconvertible property) by congruence.
        rewrite (get_same_key item _ _ Heq Hc),
          (get_same_key item_without _ _ Heq Hc).
        rewrite Hget, Hmissing. simpl.
        unfold falsy_present in Hfalsy.
        destruct Hfalsy as [-> | [-> | ->]]; reflexivity.
    + unfold property_. rewrite (Hsame k Hk Hne). reflexivity.
  - intros Hone. rewrite (Hsubject _ Hitem), Hone. simpl.
    rewrite Hnull. reflexivity.
  - pose proof (split_empty_subject (to_string v)). lia.
Qed.

(** ** The scoring pass *)

Lemma filter_key item m f m' : filter_ item m f = Normal m' -> m_key m' = m_key m.
Proof.
  unfold filter_. intros H.
  repeat match type of H with
         | (if ?c then _ else _) = _ => destruct c
         | bind ?g _ = _ => destruct g; simpl in H
         end;
    try discriminate; injection H as <-; reflexivity.
Qed.

Lemma fold_filter_key item fs m m' :
  fold_c (filter_ item) fs m = Normal m' -> m_key m' = m_key m.
Proof.
  revert m. induction fs as [|f fs IH]; intros m H; simpl in H.
  - injection H as <-. reflexivity.
  - destruct (filter_ item m f) as [m1|e] eqn:Hf; simpl in H; [|discriminate].
    rewrite (IH _ H). eapply filter_key; eassumption.
Qed.

(** The match computed for an item carries the item's key. *)
Lemma score_key sl item key m : score sl item key = Normal m -> m_key m = key.
Proof.
  unfold score. intros H.
  destruct (fold_c _ _ _) as [scored|e] eqn:Hf; simpl in H; [|discriminate].
  destruct (subject_of sl item) as [subject|e]; simpl in H; [|discriminate].
  injection H as <-. rewrite fold_search_key.
  apply (fold_filter_key _ _ _ _ Hf).
Qed.

Lemma score_with_arrays all full part sl item key :
  score (with_arrays all full part sl) item key = score sl item key.
Proof. destruct sl as [[] o]. reflexivity. Qed.

Lemma classify_with_arrays all full part sl m :
  classify (with_arrays all (OwnArray full) part sl) m
  = with_arrays (all ++ [m])
      (OwnArray (full ++ filter (is_full (s_threshold (s_ sl))) [m]))
      (part ++ filter (is_partial (s_threshold (s_ sl))) [m]) sl.
Proof.
  destruct sl as [[] o]. unfold classify, with_arrays, is_full, is_partial.
  cbn -[Z.eqb Z.ltb].
  destruct (m_relevance m =? 0); cbn -[Z.ltb].
  - rewrite !app_nil_r. reflexivity.
  - destruct (m_relevance m <? s_threshold0); cbn; rewrite ?app_nil_r; reflexivity.
Qed.

(** A scoring pass over a collection: every item is scored against the same
    constraints, and the three arrays grow by the matches in order. *)
Lemma scoring_pass coll sl all full part :
  fold_c (fun sl e => calculateRelevance_ sl (snd e) (fst e)) coll
         (with_arrays all (OwnArray full) part sl)
  = bind (map_c (fun e => score sl (snd e) (fst e)) coll)
         (fun ms =>
            Normal (with_arrays (all ++ ms)
                      (OwnArray (full ++ filter (is_full (s_threshold (s_ sl))) ms))
                      (part ++ filter (is_partial (s_threshold (s_ sl))) ms) sl)).
Proof.
  revert all full part.
  induction coll as [|e coll IH]; intros all full part; simpl.
  - rewrite !app_nil_r. reflexivity.
  - unfold calculateRelevance_ at 1. rewrite score_with_arrays.
    destruct (score sl (snd e) (fst e)) as [m|err]; simpl; [|reflexivity].
    rewrite classify_with_arrays, IH.
    destruct (map_c _ coll) as [ms|err]; simpl; [|reflexivity].
    rewrite <- !app_assoc. simpl.
    destruct (is_full _ m), (is_partial _ m); reflexivity.
Qed.

Lemma pass_scores_keys sl ms :
  pass_scores sl = Normal ms -> map m_key ms = map fst (s_collection (s_ sl)).
Proof.
  unfold pass_scores. generalize (s_collection (s_ sl)) as coll.
  intros coll. revert ms.
  induction coll as [|e coll IH]; intros ms H; simpl in H.
  - injection H as <-. reflexivity.
  - destruct (score sl (snd e) (fst e)) as [m|err] eqn:Hm; simpl in H;
      [|discriminate].
    destruct (map_c _ coll) as [ms'|err]; simpl in H; [|discriminate].
    injection H as <-. simpl. rewrite (IH _ eq_refl), (score_key _ _ _ _ Hm).
    reflexivity.
Qed.

(** [performSearch_] in one equation: the constraints are refreshed; a
    constrained search scores every item and files the matches by the
    threshold, an unconstrained one makes every key an empty match and lets
    [s_.matches] be [s_.allItems]. *)
Lemma performSearch_eq sl :
  performSearch_ sl
  = let u := updateConstraints_ sl in
    if snd (isConstrained sl) then
      bind (pass_scores u)
           (fun ms =>
              Normal (on_s (set_searched true)
                        (with_arrays ms
                           (OwnArray (filter (is_full (s_threshold (s_ u))) ms))
                           (filter (is_partial (s_threshold (s_ u))) ms) u)))
    else
      Normal (on_s (set_searched true)
                (with_arrays (map emptyMatch_ (map fst (s_collection (s_ u))))
                   AllItemsArray [] u)).
Proof.
  unfold performSearch_, isConstrained. cbn [snd].
  set (u := updateConstraints_ sl).
  destruct (_ || _).
  - change (on_s _ u) with (with_arrays [] (OwnArray []) [] u).
    rewrite scoring_pass. unfold pass_scores.
    destruct (map_c _ _); reflexivity.
  - destruct u as [[] o]. reflexivity.
Qed.

(** ** What holds of every instance in use *)

Lemma new_Map_keys_NoDup entries : NoDup (map fst (new_Map entries)).
Proof.
  unfold new_Map.
  assert (Hset : forall k v m, NoDup (map fst m) -> NoDup (map fst (map_set k v m))
                               /\ forall k', In k' (map fst (map_set k v m)) ->
                                             k' = k \/ In k' (map fst m)).
  { intros k v m. induction m as [|[k' v'] m IH]; intros Hnd; simpl.
    - split; [repeat constructor; intros []|]. intros k' [<-|[]]. now left.
    - destruct (key_eqb k' k) eqn:Hk; simpl.
      + split; [exact Hnd|]. intros k'' H. now right.
      + inversion Hnd as [|? ? Hnotin Hnd']; subst.
        destruct (IH Hnd') as [IH1 IH2].
        split.
        * constructor; [|exact IH1].
          intros Hin. destruct (IH2 _ Hin) as [->|Hin'].
          -- destruct k as [i|n]; simpl in Hk.
             ++ rewrite Nat.eqb_refl in Hk. discriminate.
             ++ rewrite String.eqb_refl in Hk. discriminate.
          -- contradiction.
        * intros k'' [<-|Hin]; [right; now left|].
          destruct (IH2 _ Hin) as [->|Hin']; [now left|right; now right]. }
  assert (Hfold : forall m, NoDup (map fst m) ->
            NoDup (map fst (fold_left (fun m e => map_set (fst e) (snd e) m)
                                      entries m))).
  { induction entries as [|e entries IH]; intros m Hm; simpl; [exact Hm|].
    apply IH. apply Hset. exact Hm. }
  apply Hfold. constructor.
Qed.

Lemma collection_Inv sl collection sl' :
  collection_ sl collection = Normal sl' ->
  o_baseThreshold (o_ sl) = 0 ->
  s_ready (s_ sl) = false ->
  s_error (s_ sl) = false ->
  s_allItems (s_ sl) = [] -> s_partial (s_ sl) = [] ->
  matches_array (s_ sl) = [] ->
  o_collectionType (o_ sl) = "array" ->
  Inv sl'.
Proof.
  unfold collection_. intros H Hb Hr He Ha Hp Hm Ht.
  destruct sl as [[] o]. cbn in *.
  destruct collection; cbn in H;
    repeat match type of H with
           | context [bind (filter_c ?f ?l) _] =>
               destruct (filter_c f l) eqn:?; cbn in H
           | bind ?g _ = _ => destruct g eqn:?; cbn in H
           end;
    try discriminate; injection H as <-;
    constructor; unfold unconstrained; cbn; intros; try discriminate;
    try apply new_Map_keys_NoDup; auto;
    try congruence.
  all: try (unfold matches_array in *; cbn in *; rewrite Hm); constructor.
Qed.

Lemma search_Inv items sl : search items = Normal sl -> Inv sl.
Proof.
  intros H. apply (collection_Inv _ _ _ H); reflexivity.
Qed.

Lemma and_Inv sl constraint sl' :
  Inv sl -> and_ sl constraint = Normal sl' -> Inv sl'.
Proof.
  intros HI H. destruct sl as [[] o]. open_inv HI.
  unfold and_ in H. cbn in H. split_result H; injection H as <-; close_inv.
Qed.

Lemma for_Inv sl constraint sl' :
  Inv sl -> for_ sl constraint = Normal sl' -> Inv sl'.
Proof.
  intros HI H. destruct sl as [[] o]. open_inv HI.
  unfold for_, and_ in H. cbn in H. split_result H; injection H as <-; close_inv.
Qed.

Lemma or_Inv sl keys sl' :
  Inv sl -> or_ sl keys = Normal sl' -> Inv sl'.
Proof.
  intros HI H. destruct sl as [[] o]. open_inv HI.
  unfold or_ in H. cbn in H. split_result H; injection H as <-; close_inv.
Qed.

Lemma in_Inv sl keys sl' :
  Inv sl -> in_ sl keys = Normal sl' -> Inv sl'.
Proof.
  intros HI H. destruct sl as [[] o]. open_inv HI.
  unfold in_, or_ in H. cbn in H. split_result H; injection H as <-; close_inv.
Qed.

Lemma sorted_Inv sl : Inv sl -> Inv (sorted sl).
Proof.
  intros HI. destruct sl as [[] []]. open_inv HI. unfold sorted. cbn.
  destruct o_sort0; close_inv.
Qed.

Lemma unsorted_Inv sl : Inv sl -> Inv (unsorted sl).
Proof.
  intros HI. destruct sl as [[] []]. open_inv HI. unfold unsorted. cbn.
  destruct o_sort0; close_inv.
Qed.

Lemma sortUsing_Inv sl fn : Inv sl -> Inv (sortUsing sl fn).
Proof.
  intros HI. destruct sl as [[] []]. open_inv HI. unfold sortUsing. close_inv.
Qed.

Lemma compareCase_Inv sl : Inv sl -> Inv (compareCase sl).
Proof.
  intros HI. destruct sl as [[] []]. open_inv HI. unfold compareCase. cbn.
  destruct o_case0; close_inv.
Qed.

Lemma ignoreCase_Inv sl : Inv sl -> Inv (ignoreCase sl).
Proof.
  intros HI. destruct sl as [[] []]. open_inv HI. unfold ignoreCase. cbn.
  destruct o_case0; close_inv.
Qed.

Lemma withStats_Inv sl property : Inv sl -> Inv (withStats sl property).
Proof.
  intros HI. destruct sl as [[] []]. open_inv HI. unfold withStats. cbn.
  destruct (negb _); close_inv.
Qed.

Lemma withoutStats_Inv sl : Inv sl -> Inv (withoutStats sl).
Proof.
  intros HI. destruct sl as [[] []]. open_inv HI. unfold withoutStats. close_inv.
Qed.

(** [updateConstraints_] leaves the constraints ready and in step. *)
Lemma updateConstraints_Inv sl : Inv sl -> Inv (updateConstraints_ sl).
Proof.
  intros HI. destruct sl as [[] []]. open_inv HI. unfold updateConstraints_. cbn.
  destruct s_ready0; cbn; [close_inv|].
  close_inv.
  - split; [|reflexivity].
    destruct (s_searchText0 =? "")%string eqn:Htext.
    + apply String.eqb_eq in Htext. tauto.
    + apply String.eqb_neq in Htext. split; [|contradiction].
      intros Hsplit. exfalso. revert Hsplit. apply split_space_nonempty.
Qed.

Lemma updateConstraints_ready sl : s_ready (s_ (updateConstraints_ sl)) = true.
Proof.
  destruct sl as [[] o]. unfold updateConstraints_. cbn.
  destruct s_ready0; reflexivity.
Qed.

(** What [updateConstraints_] leaves alone. *)
Lemma updateConstraints_frame sl :
  let u := updateConstraints_ sl in
  o_ u = o_ sl
  /\ s_collection (s_ u) = s_collection (s_ sl)
  /\ s_searchText (s_ u) = s_searchText (s_ sl)
  /\ s_filters (s_ u) = s_filters (s_ sl)
  /\ s_matches (s_ u) = s_matches (s_ sl)
  /\ s_partial (s_ u) = s_partial (s_ sl)
  /\ s_allItems (s_ u) = s_allItems (s_ sl)
  /\ s_complete (s_ u) = s_complete (s_ sl)
  /\ s_searched (s_ u) = s_searched (s_ sl)
  /\ s_error (s_ u) = s_error (s_ sl).
Proof.
  destruct sl as [[] o]. unfold updateConstraints_. cbn.
  destruct s_ready0; cbn; repeat split.
Qed.

(** [isConstrained] answers whether a filter or some search text is set. *)
Lemma isConstrained_false sl :
  Inv sl -> (snd (isConstrained sl) = false <-> unconstrained sl).
Proof.
  intros HI. unfold isConstrained. cbn [snd].
  pose proof (updateConstraints_Inv _ HI) as HU.
  pose proof (updateConstraints_ready sl) as Hr.
  pose proof (updateConstraints_frame sl) as (_ & _ & Ht & Hf & _).
  destruct HU as [_ _ HR _ _ _ _ _]. specialize (HR Hr). destruct HR as [Hterms _].
  unfold unconstrained. rewrite <- Ht, <- Hf.
  destruct (s_searchTerms (s_ (updateConstraints_ sl))) as [|t ts];
    destruct (s_filters (s_ (updateConstraints_ sl))) as [|f fs]; cbn.
  - split; [intros _; split; [apply Hterms|]; reflexivity|reflexivity].
  - split; [discriminate|intros [_ H]; discriminate].
  - split; [discriminate|]. intros [H _]. apply Hterms in H. discriminate.
  - split; [discriminate|intros [_ H]; discriminate].
Qed.

(** Replacing the result arrays keeps the invariant when the new arrays
    respect its two clauses about them. *)
Lemma inv_with_arrays sl all full part :
  Inv sl ->
  (s_searched (s_ sl) = true -> unconstrained sl ->
   full = AllItemsArray /\ part = []
   /\ Permutation all (map emptyMatch_ (map fst (s_collection (s_ sl))))) ->
  (s_error (s_ sl) = true ->
   all = [] /\ part = [] /\ matches_array (s_ (with_arrays all full part sl)) = []) ->
  NoDup (map m_key (matches_array (s_ (with_arrays all full part sl)))) ->
  s_complete (s_ sl) = false ->
  Inv (with_arrays all full part sl).
Proof.
  intros HI Hu He Hnd Hc. destruct sl as [[] o]. open_inv HI.
  unfold with_arrays in *. cbn in Hu, He, Hc. close_inv; try congruence.
  destruct (He H) as (-> & -> & Hm). destruct (Herror H) as (-> & -> & _).
  repeat split. exact Hm.
Qed.

Lemma NoDup_map_filter {A B} (f : A -> B) (p : A -> bool) l :
  NoDup (map f l) -> NoDup (map f (filter p l)).
Proof.
  induction l as [|x l IH]; cbn; intros H; [constructor|].
  inversion H as [|? ? Hnotin Hnd]; subst.
  destruct (p x); cbn; [|auto].
  constructor; [|auto].
  intros Hin. apply Hnotin. apply in_map_iff in Hin as (y & Hy & Hin).
  apply filter_In in Hin as [Hin _]. rewrite <- Hy. apply in_map. exact Hin.
Qed.

Lemma emptyMatch_keys ks : map m_key (map emptyMatch_ ks) = ks.
Proof. rewrite map_map. cbn. apply map_id. Qed.

Lemma inv_searched sl :
  Inv sl ->
  (unconstrained sl ->
   s_matches (s_ sl) = AllItemsArray /\ s_partial (s_ sl) = []
   /\ Permutation (s_allItems (s_ sl))
                  (map emptyMatch_ (map fst (s_collection (s_ sl))))) ->
  Inv (on_s (set_searched true) sl).
Proof.
  intros HI Hu. destruct sl as [[] o]. open_inv HI. cbn in Hu. close_inv.
Qed.

Lemma inv_completed sl total index lastIndex :
  Inv sl -> s_searched (s_ sl) = true ->
  total = Z.of_nat (List.length (matches_array (s_ sl))) ->
  Inv (on_s (fun s =>
               set_complete true
                 (set_lastIndex lastIndex
                    (set_index index (set_totalMatches total s)))) sl).
Proof.
  intros HI Hs Ht. destruct sl as [[] o]. open_inv HI. cbn in Hs. close_inv.
Qed.

Lemma inv_collection sl coll :
  Inv sl -> map fst coll = map fst (s_collection (s_ sl)) ->
  Inv (on_s (set_collection coll) sl).
Proof.
  intros HI Hk. destruct sl as [[] o]. open_inv HI. cbn in Hk. close_inv.
  - rewrite Hk. exact Hkeys.
  - rewrite Hk. auto.
  - destruct (Herror H) as (-> & ? & ? & ? & ?).
    destruct coll; [|discriminate]. repeat split; assumption.
Qed.

Lemma pass_scores_empty sl ms :
  s_collection (s_ sl) = [] -> pass_scores sl = Normal ms -> ms = [].
Proof.
  unfold pass_scores. intros -> H. cbn in H. injection H as <-. reflexivity.
Qed.

Lemma performSearch_Inv sl sl' :
  Inv sl -> s_complete (s_ sl) = false -> performSearch_ sl = Normal sl' ->
  Inv sl'.
Proof.
  intros HI Hstale H. rewrite performSearch_eq in H. cbv zeta in H.
  pose proof (updateConstraints_Inv _ HI) as HU.
  pose proof (isConstrained_false _ HI) as Hc.
  pose proof (updateConstraints_frame sl)
    as (_ & _ & Ht & Hf & _ & _ & _ & Hcomplete & _).
  rewrite <- Hcomplete in Hstale.
  assert (Huu : unconstrained (updateConstraints_ sl) <-> unconstrained sl).
  { unfold unconstrained. rewrite Ht, Hf. tauto. }
  set (u := updateConstraints_ sl) in *.
  destruct (snd (isConstrained sl)) eqn:Hcon.
  - destruct (pass_scores u) as [ms|e] eqn:Hms; cbn in H; [|discriminate].
    injection H as <-.
    assert (Harr : Inv (with_arrays ms
                          (OwnArray (filter (is_full (s_threshold (s_ u))) ms))
                          (filter (is_partial (s_threshold (s_ u))) ms) u)).
    { apply inv_with_arrays; [exact HU| | | |exact Hstale].
      - intros _ Hun. apply Huu, Hc in Hun. discriminate.
      - intros He. destruct HU as [_ _ _ _ _ HE _ _]. destruct (HE He) as (Hcoll & _).
        rewrite (pass_scores_empty _ _ Hcoll Hms).
        destruct u as [[] o]. repeat split.
      - replace (matches_array _)
          with (filter (is_full (s_threshold (s_ u))) ms)
          by (destruct u as [[] o]; reflexivity).
        apply NoDup_map_filter. rewrite (pass_scores_keys _ _ Hms).
        destruct HU as [HK _ _ _ _ _ _ _]. exact HK. }
    apply inv_searched; [exact Harr|].
    intros Hun. exfalso.
    assert (Hun' : unconstrained u) by (destruct u as [[] o]; exact Hun).
    apply Huu, Hc in Hun'. discriminate.
  - injection H as <-.
    assert (Harr : Inv (with_arrays
                          (map emptyMatch_ (map fst (s_collection (s_ u))))
                          AllItemsArray [] u)).
    { apply inv_with_arrays; [exact HU| | | |exact Hstale].
      - intros _ _. repeat split. apply Permutation_refl.
      - intros He. destruct HU as [_ _ _ _ _ HE _ _]. destruct (HE He) as (Hcoll & _).
        rewrite Hcoll. destruct u as [[] o]. repeat split.
      - replace (matches_array _)
          with (map emptyMatch_ (map fst (s_collection (s_ u))))
          by (destruct u as [[] o]; reflexivity).
        rewrite emptyMatch_keys.
        destruct HU as [HK _ _ _ _ _ _ _]. exact HK. }
    apply inv_searched; [exact Harr|].
    intros _. destruct u as [[] o]. repeat split. apply Permutation_refl.
Qed.

Lemma performSearch_searched sl sl' :
  performSearch_ sl = Normal sl' -> s_searched (s_ sl') = true.
Proof.
  unfold performSearch_. intros H.
  destruct (isConstrained sl) as [u c].
  destruct (if c then _ else _) as [r|e]; cbn in H; [|discriminate].
  injection H as <-. destruct r as [[] o]. reflexivity.
Qed.

(** ** A search that raises *)

Lemma fold_interrupted_prefix {A B : Type} (f : B -> A -> completion B) l b :
  exists l1 l2,
    l = (l1 ++ l2)%list /\ fold_c f l1 b = Normal (fold_interrupted f l b).
Proof.
  revert b. induction l as [|x l IH]; intros b; cbn.
  - exists [], []. split; reflexivity.
  - destruct (f b x) as [b'|e] eqn:Hf.
    + destruct (IH b') as (l1 & l2 & -> & H).
      exists (x :: l1), l2. split; [reflexivity|]. cbn. rewrite Hf. exact H.
    + exists [], (x :: l). split; reflexivity.
Qed.

Lemma scores_keys sl coll ms :
  map_c (fun e => score sl (snd e) (fst e)) coll = Normal ms ->
  map m_key ms = map fst coll.
Proof.
  revert ms. induction coll as [|e coll IH]; intros ms H; simpl in H.
  - injection H as <-. reflexivity.
  - destruct (score sl (snd e) (fst e)) as [m|err] eqn:Hm; simpl in H;
      [|discriminate].
    destruct (map_c _ coll) as [ms'|err]; simpl in H; [|discriminate].
    injection H as <-. simpl. rewrite (IH _ eq_refl), (score_key _ _ _ _ Hm).
    reflexivity.
Qed.

(** What an interrupted search leaves: the matches of the items that come
    before the one whose scoring raised, filed by the threshold. *)
Lemma performSearch_interrupted_eq sl :
  let u := updateConstraints_ sl in
  exists l1 l2 ms,
    s_collection (s_ u) = (l1 ++ l2)%list
    /\ map m_key ms = map fst l1
    /\ performSearch_interrupted sl
       = if snd (isConstrained sl) then
           with_arrays ms
             (OwnArray (filter (is_full (s_threshold (s_ u))) ms))
             (filter (is_partial (s_threshold (s_ u))) ms) u
         else u.
Proof.
  unfold performSearch_interrupted, isConstrained. cbn [snd].
  set (u := updateConstraints_ sl). cbv zeta.
  destruct (_ || _).
  - change (on_s _ u) with (with_arrays [] (OwnArray []) [] u).
    destruct (fold_interrupted_prefix
                (fun sl e => calculateRelevance_ sl (snd e) (fst e))
                (s_collection (s_ u)) (with_arrays [] (OwnArray []) [] u))
      as (l1 & l2 & Hl & H).
    rewrite scoring_pass in H.
    destruct (map_c _ l1) as [ms|e] eqn:Hms; cbn in H; [|discriminate].
    injection H as H. exists l1, l2, ms.
    split; [exact Hl|]. split; [eapply scores_keys; eassumption|].
    symmetry. exact H.
  - exists [], (s_collection (s_ u)), []. repeat split.
Qed.

Lemma NoDup_app_l {A : Type} (l1 l2 : list A) : NoDup (l1 ++ l2) -> NoDup l1.
Proof.
  induction l1 as [|x l1 IH]; cbn; intros H; [constructor|].
  inversion H as [|? ? Hnotin Hnd]; subst. constructor; [|auto].
  intros Hin. apply Hnotin. apply in_or_app. left. exact Hin.
Qed.

Lemma performSearch_interrupted_Inv sl :
  Inv sl -> s_complete (s_ sl) = false -> s_searched (s_ sl) = false ->
  Inv (performSearch_interrupted sl).
Proof.
  intros HI Hstale Hfresh.
  pose proof (updateConstraints_Inv _ HI) as HU.
  pose proof (updateConstraints_frame sl)
    as (_ & _ & _ & _ & _ & _ & _ & Hcomplete & Hsearched & _).
  cbv zeta in Hcomplete, Hsearched.
  rewrite <- Hcomplete in Hstale. rewrite <- Hsearched in Hfresh.
  destruct (performSearch_interrupted_eq sl) as (l1 & l2 & ms & Hl & Hk & ->).
  set (u := updateConstraints_ sl) in *.
  destruct (snd (isConstrained sl)); [|exact HU].
  apply inv_with_arrays; [exact HU| | | |exact Hstale].
  - intros Hs. congruence.
  - intros He. destruct HU as [_ _ _ _ _ HE _ _]. destruct (HE He) as (Hcoll & _).
    rewrite Hcoll in Hl. symmetry in Hl. apply app_eq_nil in Hl as [-> _].
    destruct ms; [|discriminate]. destruct u as [[] o]. repeat split.
  - replace (matches_array _)
      with (filter (is_full (s_threshold (s_ u))) ms)
      by (destruct u as [[] o]; reflexivity).
    apply NoDup_map_filter. rewrite Hk.
    destruct HU as [HK _ _ _ _ _ _ _]. rewrite Hl, map_app in HK.
    eapply NoDup_app_l; exact HK.
Qed.

(** ** Metadata injection changes the stored items only *)

Lemma map_set_keys k v m v0 :
  map_get k m = Some v0 -> map fst (map_set k v m) = map fst m.
Proof.
  induction m as [|[k' v'] m IH]; cbn; [discriminate|].
  destruct (key_eqb k' k); intros H; cbn; [reflexivity|].
  rewrite (IH H). reflexivity.
Qed.

Lemma getItemInject_frame sl m sl' :
  getItemInject_ sl m = Normal sl' ->
  exists coll,
    sl' = on_s (set_collection coll) sl
    /\ map fst coll = map fst (s_collection (s_ sl)).
Proof.
  unfold getItemInject_, getItem_, item_of. intros H.
  destruct (map_get (m_key m) (s_collection (s_ sl))) as [v|] eqn:Hget.
  - destruct v;
      try (destruct (to_string_c (o_inject_property (o_ sl))); cbn in H);
      try discriminate; injection H as <-;
      try (exists (s_collection (s_ sl)); split;
           [destruct sl as [[] o]; reflexivity|reflexivity]);
      eexists; (split; [reflexivity|]); cbn;
      destruct sl as [[] o]; cbn in *; eapply map_set_keys; eassumption.
  - injection H as <-. exists (s_collection (s_ sl)). split; [|reflexivity].
    destruct sl as [[] o]. reflexivity.
Qed.

Lemma fold_getItemInject_frame ms sl sl' :
  fold_c getItemInject_ ms sl = Normal sl' ->
  exists coll,
    sl' = on_s (set_collection coll) sl
    /\ map fst coll = map fst (s_collection (s_ sl)).
Proof.
  revert sl. induction ms as [|m ms IH]; intros sl H; cbn in H.
  - injection H as <-. exists (s_collection (s_ sl)). split; [|reflexivity].
    destruct sl as [[] o]. reflexivity.
  - destruct (getItemInject_ sl m) as [sl1|e] eqn:H1; cbn in H; [|discriminate].
    destruct (getItemInject_frame _ _ _ H1) as (c1 & -> & Hk1).
    destruct (IH _ H) as (c2 & -> & Hk2).
    exists c2. split.
    + destruct sl as [[] o]. reflexivity.
    + rewrite Hk2. destruct sl as [[] o]. exact Hk1.
Qed.

Lemma fold_reduceInject_frame ms sl entries r :
  fold_c reduceInject_ ms (sl, entries) = Normal r ->
  exists coll,
    fst r = on_s (set_collection coll) sl
    /\ map fst coll = map fst (s_collection (s_ sl)).
Proof.
  revert sl entries. induction ms as [|m ms IH]; intros sl entries H; cbn in H.
  - injection H as <-. exists (s_collection (s_ sl)). split; [|reflexivity].
    destruct sl as [[] o]. reflexivity.
  - unfold reduceInject_ at 1 in H. cbn in H.
    destruct (getItemInject_ sl m) as [sl1|e] eqn:H1; cbn in H; [|discriminate].
    destruct (getItemInject_frame _ _ _ H1) as (c1 & -> & Hk1).
    destruct (IH _ _ H) as (c2 & -> & Hk2).
    exists c2. split.
    + destruct sl as [[] o]. reflexivity.
    + rewrite Hk2. destruct sl as [[] o]. exact Hk1.
Qed.

(** Formatting leaves an instance as it was, up to the contents of the
    items it injects metadata into. *)
Lemma toOriginalFormat_frame sl ms sl' out :
  toOriginalFormat_ sl ms = Normal (sl', out) ->
  exists coll,
    sl' = on_s (set_collection coll) sl
    /\ map fst coll = map fst (s_collection (s_ sl)).
Proof.
  unfold toOriginalFormat_. intros H.
  assert (Hsame : exists coll, sl = on_s (set_collection coll) sl
                               /\ map fst coll = map fst (s_collection (s_ sl))).
  { exists (s_collection (s_ sl)). split; [|reflexivity].
    destruct sl as [[] o]. reflexivity. }
  destruct (o_collectionType (o_ sl) =? "array")%string;
    destruct (o_inject_enabled (o_ sl)).
  - destruct (fold_c getItemInject_ ms sl) as [sl1|e] eqn:H1; cbn in H;
      [|discriminate].
    injection H as <- <-. eapply fold_getItemInject_frame; eassumption.
  - injection H as <- <-. exact Hsame.
  - destruct (fold_c reduceInject_ ms (sl, [])) as [r|e] eqn:H1; cbn in H;
      [|discriminate].
    injection H as <- <-. eapply fold_reduceInject_frame; eassumption.
  - injection H as <- <-. exact Hsame.
Qed.

Lemma toOriginalFormat_Inv sl ms sl' out :
  Inv sl -> toOriginalFormat_ sl ms = Normal (sl', out) -> Inv sl'.
Proof.
  intros HI H. destruct (toOriginalFormat_frame _ _ _ _ H) as (coll & -> & Hk).
  apply inv_collection; assumption.
Qed.

(** ** Sorting and the cache *)

Lemma inv_sort_partial sl part :
  Inv sl -> Permutation part (s_partial (s_ sl)) ->
  Inv (on_s (set_partial part) sl).
Proof.
  intros HI Hp. destruct sl as [[] o]. open_inv HI. cbn in Hp. close_inv.
  - destruct (Hunconstrained H H0) as (? & -> & ?).
    apply Permutation_sym, Permutation_nil in Hp. subst. auto.
  - destruct (Herror H) as (? & ? & ? & -> & ?).
    apply Permutation_sym, Permutation_nil in Hp. subst. auto.
Qed.

Lemma inv_sort_allItems sl all :
  Inv sl -> Permutation all (s_allItems (s_ sl)) ->
  Inv (on_s (set_allItems all) sl).
Proof.
  intros HI Hp. destruct sl as [[] o]. open_inv HI. cbn in Hp. close_inv.
  - destruct (Hunconstrained H H0) as (? & ? & ?).
    repeat split; auto. eapply Permutation_trans; eassumption.
  - destruct (Herror H) as (? & ? & -> & ? & Hm).
    apply Permutation_sym, Permutation_nil in Hp. subst.
    repeat split; auto.
  - unfold matches_array in *. cbn in *. destruct s_matches0; [exact Hmatches|].
    eapply Permutation_NoDup; [|exact Hmatches].
    apply Permutation_map, Permutation_sym, Hp.
  - unfold matches_array in *. cbn in *. destruct s_matches0; [auto|].
    rewrite (Permutation_length Hp). auto.
Qed.

Lemma inv_sort_matches sl full :
  Inv sl -> Permutation full (matches_array (s_ sl)) ->
  Inv (on_s (update_matches_array (fun _ => full)) sl).
Proof.
  intros HI Hp. destruct sl as [[] o].
  unfold update_matches_array, matches_array in *. cbn in *.
  destruct s_matches0 as [a|].
  - open_inv HI. close_inv.
    + destruct (Hunconstrained H H0) as (? & _). discriminate.
    + destruct (Herror H) as (? & ? & ? & ? & Hm).
      unfold matches_array in *. cbn in *. subst.
      apply Permutation_sym, Permutation_nil in Hp. subst. auto.
    + unfold matches_array in *. cbn in *.
      eapply Permutation_NoDup; [|exact Hmatches].
      apply Permutation_map, Permutation_sym, Hp.
    + unfold matches_array in *. cbn in *.
      rewrite (Permutation_length Hp). auto.
  - apply (inv_sort_allItems _ full HI Hp).
Qed.

Section HostSort.

Variable array_sort : (Match -> Match -> value) -> list Match -> list Match.

(** Whatever the comparator, sorting rearranges the array. *)
Hypothesis array_sort_permutes :
  forall comparefn a, Permutation (array_sort comparefn a) a.

Lemma performSort_spec sl a :
  (fst (performSort_ array_sort sl a) = sl
   \/ fst (performSort_ array_sort sl a) = updateConstraints_ sl)
  /\ Permutation (snd (performSort_ array_sort sl a)) a.
Proof.
  unfold performSort_, isConstrained.
  destruct (o_sort (o_ sl)).
  - destruct (_ && _);
      destruct (o_customSort (o_ (updateConstraints_ sl))); cbn;
      (split; [now right|]);
      eauto using Permutation_trans, Permutation_refl.
  - destruct (o_customSort (o_ sl)); cbn; (split; [now left|]);
      eauto using Permutation_refl.
Qed.

Lemma performSort_Inv sl a :
  Inv sl -> Inv (fst (performSort_ array_sort sl a)).
Proof.
  intros HI. destruct (performSort_spec sl a) as [[-> | ->] _];
    [exact HI|apply updateConstraints_Inv; exact HI].
Qed.

(** What [performSort_] leaves alone. *)
Lemma performSort_frame sl a :
  let sl' := fst (performSort_ array_sort sl a) in
  o_ sl' = o_ sl
  /\ s_collection (s_ sl') = s_collection (s_ sl)
  /\ s_searchText (s_ sl') = s_searchText (s_ sl)
  /\ s_filters (s_ sl') = s_filters (s_ sl)
  /\ s_matches (s_ sl') = s_matches (s_ sl)
  /\ s_partial (s_ sl') = s_partial (s_ sl)
  /\ s_allItems (s_ sl') = s_allItems (s_ sl)
  /\ s_complete (s_ sl') = s_complete (s_ sl)
  /\ s_searched (s_ sl') = s_searched (s_ sl)
  /\ s_error (s_ sl') = s_error (s_ sl).
Proof.
  cbv zeta. destruct (performSort_spec sl a) as [[-> | ->] _].
  - repeat split.
  - apply updateConstraints_frame.
Qed.

Lemma updateMatches_Inv sl sl' :
  Inv sl -> updateMatches_ array_sort sl = Normal sl' ->
  Inv sl' /\ s_searched (s_ sl') = true.
Proof.
  intros HI H. unfold updateMatches_ in H.
  destruct (s_complete (s_ sl)) eqn:Hc; cbn [bind negb] in H.
  - injection H as <-. split; [exact HI|].
    destruct HI as [_ _ _ HC _ _ _ _]. auto.
  - destruct (if negb (s_searched (s_ sl)) then performSearch_ sl else Normal sl)
      as [sl1|e] eqn:H1; cbn [bind negb] in H; [|discriminate].
    assert (HI1 : Inv sl1 /\ s_searched (s_ sl1) = true).
    { destruct (s_searched (s_ sl)) eqn:Hs; cbn [bind negb] in H1.
      - injection H1 as <-. auto.
      - split; [eapply performSearch_Inv|eapply performSearch_searched];
          eassumption. }
    destruct HI1 as [HI1 Hs1].
    pose proof (performSort_spec sl1 (matches_array (s_ sl1))) as [_ Hperm].
    pose proof (performSort_Inv sl1 (matches_array (s_ sl1)) HI1) as HI2.
    pose proof (performSort_frame sl1 (matches_array (s_ sl1)))
      as (_ & _ & _ & _ & Hm & _ & Ha & _ & Hs2 & _).
    destruct (performSort_ array_sort sl1 (matches_array (s_ sl1)))
      as [sl2 sorted_matches].
    cbn [fst snd] in *. injection H as <-.
    assert (Hperm' : Permutation sorted_matches (matches_array (s_ sl2))).
    { unfold matches_array. rewrite Hm, Ha. exact Hperm. }
    pose proof (inv_sort_matches _ _ HI2 Hperm') as HI3.
    assert (Hs3 : s_searched
                    (s_ (on_s (update_matches_array (fun _ => sorted_matches)) sl2))
                  = true).
    { rewrite <- Hs1, <- Hs2. destruct sl2 as [[] o].
      unfold update_matches_array. cbn. destruct s_matches0; reflexivity. }
    split.
    + apply inv_completed; [assumption|assumption|reflexivity].
    + rewrite <- Hs3.
      destruct (on_s (update_matches_array (fun _ => sorted_matches)) sl2)
        as [[] o].
      reflexivity.
Qed.

Lemma get_length_Inv sl r :
  Inv sl -> get_length array_sort sl = Normal r -> Inv (fst r).
Proof.
  unfold get_length. intros HI H.
  destruct (updateMatches_ array_sort sl) as [sl1|e] eqn:H1; cbn [bind negb] in H;
    [|discriminate].
  injection H as <-. apply (updateMatches_Inv _ _ HI H1).
Qed.

Lemma get_matches_Inv sl r :
  Inv sl -> get_matches array_sort sl = Normal r -> Inv (fst r).
Proof.
  unfold get_matches. intros HI H.
  destruct (updateMatches_ array_sort sl) as [sl1|e] eqn:H1; cbn [bind negb] in H;
    [|discriminate].
  destruct r as [sl' out].
  eapply toOriginalFormat_Inv; [|eassumption].
  apply (updateMatches_Inv _ _ HI H1).
Qed.

Lemma get_partialMatches_Inv sl r :
  Inv sl -> get_partialMatches array_sort sl = Normal r -> Inv (fst r).
Proof.
  unfold get_partialMatches. intros HI H.
  destruct (updateMatches_ array_sort sl) as [sl1|e] eqn:H1; cbn [bind negb] in H;
    [|discriminate].
  destruct (updateMatches_Inv _ _ HI H1) as [HI1 _].
  pose proof (performSort_spec sl1 (s_partial (s_ sl1))) as [_ Hperm].
  pose proof (performSort_Inv sl1 (s_partial (s_ sl1)) HI1) as HI2.
  pose proof (performSort_frame sl1 (s_partial (s_ sl1)))
    as (_ & _ & _ & _ & _ & Hp & _).
  destruct (performSort_ array_sort sl1 (s_partial (s_ sl1))) as [sl2 sorted_partial].
  cbn [fst snd] in *. destruct r as [sl' out].
  eapply toOriginalFormat_Inv; [|eassumption].
  apply inv_sort_partial; [exact HI2|]. rewrite Hp. exact Hperm.
Qed.

Lemma get_allMatches_Inv sl r :
  Inv sl -> get_allMatches array_sort sl = Normal r -> Inv (fst r).
Proof.
  unfold get_allMatches. intros HI H.
  destruct (updateMatches_ array_sort sl) as [sl1|e] eqn:H1; cbn [bind negb] in H;
    [|discriminate].
  destruct (updateMatches_Inv _ _ HI H1) as [HI1 _].
  set (all := (matches_array (s_ sl1) ++ s_partial (s_ sl1))%list) in *.
  pose proof (performSort_Inv sl1 all HI1) as HI2.
  destruct (performSort_ array_sort sl1 all) as [sl2 sorted_all].
  cbn [fst snd] in *. destruct r as [sl' out].
  eapply toOriginalFormat_Inv; eassumption.
Qed.

Lemma get_allItems_Inv sl r :
  Inv sl -> get_allItems array_sort sl = Normal r -> Inv (fst r).
Proof.
  unfold get_allItems. intros HI H.
  destruct (updateMatches_ array_sort sl) as [sl1|e] eqn:H1; cbn [bind negb] in H;
    [|discriminate].
  destruct (updateMatches_Inv _ _ HI H1) as [HI1 _].
  pose proof (performSort_spec sl1 (s_allItems (s_ sl1))) as [_ Hperm].
  pose proof (performSort_Inv sl1 (s_allItems (s_ sl1)) HI1) as HI2.
  pose proof (performSort_frame sl1 (s_allItems (s_ sl1)))
    as (_ & _ & _ & _ & _ & _ & Ha & _).
  destruct (performSort_ array_sort sl1 (s_allItems (s_ sl1))) as [sl2 sorted_items].
  cbn [fst snd] in *. destruct r as [sl' out].
  eapply toOriginalFormat_Inv; [|eassumption].
  apply inv_sort_allItems; [exact HI2|]. rewrite Ha. exact Hperm.
Qed.

(** [updateMatches_] raises only where [performSearch_] does. *)
Lemma updateMatches_throws sl e :
  updateMatches_ array_sort sl = Throw e ->
  s_complete (s_ sl) = false /\ s_searched (s_ sl) = false
  /\ performSearch_ sl = Throw e.
Proof.
  unfold updateMatches_. intros H.
  destruct (s_complete (s_ sl)); cbn [negb] in H; [discriminate|].
  destruct (s_searched (s_ sl)); cbn [negb bind] in H.
  - destruct (performSort_ array_sort sl (matches_array (s_ sl))). discriminate.
  - destruct (performSearch_ sl) as [sl1|e1]; cbn [bind] in H.
    + destruct (performSort_ array_sort sl1 (matches_array (s_ sl1))).
      discriminate.
    + injection H as <-. repeat split.
Qed.

Lemma then_Inv sl : Inv sl -> Inv (fst (then_ array_sort sl)).
Proof.
  intros HI. unfold then_.
  destruct (updateMatches_ array_sort sl) as [sl1|e] eqn:H1.
  - destruct (updateMatches_Inv _ _ HI H1) as [HI1 _].
    destruct (s_error (s_ sl1)); exact HI1.
  - destruct (updateMatches_throws _ _ H1) as (Hc & Hs & _).
    apply performSearch_interrupted_Inv; assumption.
Qed.

Lemma call_Inv c sl sl' :
  Inv sl -> call array_sort c sl = Normal sl' -> Inv sl'.
Proof.
  intros HI H. destruct c; cbn [call] in H; unfold catch_ in H;
    try (injection H as <-);
    eauto using and_Inv, for_Inv, or_Inv, in_Inv, sorted_Inv, unsorted_Inv,
      sortUsing_Inv, compareCase_Inv, ignoreCase_Inv, withStats_Inv,
      withoutStats_Inv, then_Inv.
  all: match type of H with
       | bind ?g _ = _ => destruct g as [r|e] eqn:Hr; cbn [bind negb] in H; [|discriminate]
       end;
    injection H as <-;
    eauto using get_length_Inv, get_matches_Inv, get_partialMatches_Inv,
      get_allMatches_Inv, get_allItems_Inv.
Qed.

(** Every instance in use satisfies the invariant. *)
Lemma Reachable_Inv sl : Reachable array_sort sl -> Inv sl.
Proof.
  induction 1 as [items sl H|c sl sl' _ IH H].
  - eapply search_Inv; eassumption.
  - eapply call_Inv; eassumption.
Qed.

End HostSort.

(** ** The outcome of a classification pass *)

Lemma performSearch_result sl sl' :
  Inv sl -> performSearch_ sl = Normal sl' ->
  let threshold := s_threshold (s_ sl') in
  let keys := map fst (s_collection (s_ sl')) in
  threshold
  = o_baseThreshold (o_ sl') + Z.of_nat (List.length (s_filters (s_ sl')))
    + number_of_bool (0 <? Z.of_nat (List.length (s_searchTerms (s_ sl'))))
  /\ o_baseThreshold (o_ sl') = 0
  /\ NoDup keys
  /\ map m_key (s_allItems (s_ sl')) = keys
  /\ (((s_searchTerms (s_ sl') <> [] \/ s_filters (s_ sl') <> [])
       /\ matches_array (s_ sl') = filter (is_full threshold) (s_allItems (s_ sl'))
       /\ s_partial (s_ sl') = filter (is_partial threshold) (s_allItems (s_ sl')))
      \/ (s_searchTerms (s_ sl') = [] /\ s_filters (s_ sl') = []
          /\ s_allItems (s_ sl') = map emptyMatch_ keys
          /\ matches_array (s_ sl') = s_allItems (s_ sl')
          /\ s_partial (s_ sl') = [])).
Proof.
  intros HI H. rewrite performSearch_eq in H. cbv zeta in H.
  unfold isConstrained in H. cbn [snd] in H.
  pose proof (updateConstraints_Inv _ HI) as HU.
  pose proof (updateConstraints_ready sl) as Hr.
  set (u := updateConstraints_ sl) in *. clearbody u.
  destruct HU as [HK HB HR _ _ _ _ _]. destruct (HR Hr) as [_ Hthr].
  destruct (_ || _) eqn:Hcon.
  - destruct (pass_scores u) as [ms|e] eqn:Hms; cbn [bind] in H; [|discriminate].
    injection H as <-. pose proof (pass_scores_keys _ _ Hms) as Hkeys.
    destruct u as [[] o]. cbn in *.
    repeat split; auto. left. repeat split.
    destruct s_searchTerms0; [|left; discriminate].
    destruct s_filters0; [discriminate|right; discriminate].
  - injection H as <-. destruct u as [[] o]. cbn in *.
    repeat split; auto.
    + apply emptyMatch_keys.
    + right. destruct s_searchTerms0; [|discriminate].
      destruct s_filters0; [|discriminate]. repeat split.
Qed.

(** A pass returns whenever no item is [null] or [undefined] and no
    conversion raises. *)
Lemma existsb_none {A : Type} (f : A -> bool) l :
  existsb f l = false <-> forall x, In x l -> f x = false.
Proof.
  induction l as [|y l IH]; cbn.
  - split; [intros _ x []|reflexivity].
  - rewrite orb_false_iff, IH. split.
    + intros [Hy Hl] x [<-|Hx]; auto.
    + intros H. split; [apply H; now left|]. intros x Hx. apply H. now right.
Qed.

Lemma converting_two {A : Type} (a b : value) (r : A) :
  unconvertible a = false -> unconvertible b = false ->
  converting [a; b] r = Normal r.
Proof. intros Ha Hb. unfold converting. cbn. rewrite Ha, Hb. reflexivity. Qed.

Lemma loose_eq_c_defined a b :
  unconvertible a = false -> unconvertible b = false ->
  loose_eq_c a b = Normal (loose_eq a b).
Proof.
  intros Ha Hb. unfold loose_eq_c. rewrite (converting_two _ _ _ Ha Hb).
  destruct (_ || _); reflexivity.
Qed.

(** What a value holds converts, so what a property read finds does. *)
Lemma own_property_convertible base k :
  (forall v, In v (own_values base) -> unconvertible v = false) ->
  unconvertible (own_property base k) = false.
Proof.
  intros H. destruct base; cbn in *; try reflexivity.
  - destruct (index_of_key k); [destruct (String.get _ _)|destruct (_ =? _)%string];
      reflexivity.
  - destruct (index_of_key k) as [i|]; [|destruct (_ =? _)%string; reflexivity].
    destruct (nth_in_or_default i elems VUndefined) as [Hin| ->]; auto.
  - induction props as [|[k' v'] props IH]; cbn; [reflexivity|].
    destruct (k' =? k)%string.
    + apply H. now left.
    + apply IH. intros v Hv. apply H. now right.
Qed.

Lemma filter_defined item m f :
  is_nullish item = false ->
  (forall v, In v (own_values item) -> unconvertible v = false) ->
  unconvertible (f_key f) = false -> unconvertible (f_value f) = false ->
  exists m', filter_ item m f = Normal m'.
Proof.
  intros H Hitem Hkey Hvalue. unfold filter_.
  rewrite (get_ok item (f_key f) H Hkey). cbn [bind].
  pose proof (own_property_convertible item (to_string (f_key f)) Hitem) as Hv.
  unfold gt_c, ge_c, lt_c, le_c.
  rewrite (loose_eq_c_defined _ _ Hv Hvalue), !(converting_two _ _ _ Hv Hvalue).
  cbn [bind].
  repeat match goal with
         | |- exists _, (if ?c then _ else _) = _ => destruct c
         end; eauto.
Qed.

Lemma fold_filter_defined item fs m :
  is_nullish item = false ->
  (forall v, In v (own_values item) -> unconvertible v = false) ->
  (forall f, In f fs ->
             unconvertible (f_key f) = false /\ unconvertible (f_value f) = false) ->
  exists m', fold_c (filter_ item) fs m = Normal m'.
Proof.
  intros H Hitem. revert m. induction fs as [|f fs IH]; intros m Hfs; cbn; eauto.
  destruct (Hfs f (or_introl eq_refl)) as [Hk Hv].
  destruct (filter_defined item m f H Hitem Hk Hv) as [m1 ->]. cbn.
  apply IH. intros f' Hf'. apply Hfs. now right.
Qed.

Lemma map_property_defined item ks :
  is_nullish item = false ->
  (forall v, In v (own_values item) -> unconvertible v = false) ->
  (forall k, In k ks -> unconvertible k = false) ->
  exists parts,
    map_c (property_ item) ks = Normal parts
    /\ existsb unconvertible parts = false.
Proof.
  intros H Hitem. induction ks as [|k ks IH]; intros Hks; cbn; eauto.
  destruct IH as [parts [IH Hparts]]; [intros k' Hk'; apply Hks; now right|].
  unfold property_ at 1. rewrite (get_ok item k H (Hks k (or_introl eq_refl))).
  cbn. rewrite IH. cbn. eexists. split; [reflexivity|]. cbn.
  rewrite Hparts, orb_false_r. unfold or_else.
  destruct (truthy _); [|reflexivity].
  apply own_property_convertible. exact Hitem.
Qed.

Lemma fold_reduceProperties_defined item ks subject :
  is_nullish item = false ->
  (forall v, In v (own_values item) -> unconvertible v = false) ->
  exists subject', fold_c (reduceProperties_ item) ks subject = Normal subject'.
Proof.
  intros H Hitem. revert subject.
  induction ks as [|k ks IH]; intros subject; cbn; eauto.
  unfold reduceProperties_ at 1.
  rewrite (get_ok item (VStr k) H eq_refl). cbn [bind].
  unfold to_string_c. rewrite converting_ok; [cbn [bind]; apply IH|].
  rewrite existsb_one. apply own_property_convertible. exact Hitem.
Qed.

Lemma subject_defined sl item :
  is_nullish item = false ->
  (forall v, In v (own_values item) -> unconvertible v = false) ->
  (forall k, In k (s_keys (s_ sl)) -> unconvertible k = false) ->
  exists subject, subject_of sl item = Normal subject.
Proof.
  intros H Hitem Hkeys. unfold subject_of.
  destruct (typeof item =? "string")%string; eauto.
  destruct (negb _).
  - destruct (map_property_defined item (s_keys (s_ sl)) H Hitem Hkeys)
      as [parts [-> Hparts]].
    cbn. unfold join_c. rewrite (converting_ok _ _ Hparts). eauto.
  - destruct item; try discriminate; cbn [Js.keys bind]; eauto;
      try (apply fold_reduceProperties_defined; [reflexivity|exact Hitem]).
    unfold join_c. rewrite converting_ok; eauto.
    apply existsb_none. exact Hitem.
Qed.

Lemma score_defined sl item key :
  is_nullish item = false ->
  (forall v, In v (own_values item) -> unconvertible v = false) ->
  (forall k, In k (s_keys (s_ sl)) -> unconvertible k = false) ->
  (forall f, In f (s_filters (s_ sl)) ->
             unconvertible (f_key f) = false /\ unconvertible (f_value f) = false) ->
  exists m, score sl item key = Normal m.
Proof.
  intros H Hitem Hkeys Hfilters. unfold score.
  destruct (fold_filter_defined item (s_filters (s_ sl)) (mkMatch key 0 "")
              H Hitem Hfilters) as [scored ->].
  destruct (subject_defined sl item H Hitem Hkeys) as [subject ->]. cbn. eauto.
Qed.

Lemma pass_scores_defined sl :
  scorable (s_collection (s_ sl)) -> Convertible sl ->
  exists ms, pass_scores sl = Normal ms.
Proof.
  intros Hs [Hitems Hkeys Hfilters]. unfold pass_scores, scorable in *.
  revert Hs Hitems. generalize (s_collection (s_ sl)) as coll.
  induction coll as [|e coll IH]; intros Hs Hitems; cbn; eauto.
  destruct (score_defined sl (snd e) (fst e)) as [m ->]; auto.
  { apply Hs. now left. }
  { intros v. apply Hitems. now left. }
  destruct IH as [ms ->].
  { intros e' He'. apply Hs. now right. }
  { intros e' v He'. apply Hitems. now right. }
  cbn. eauto.
Qed.

Lemma updateConstraints_Convertible sl :
  Convertible (updateConstraints_ sl) <-> Convertible sl.
Proof.
  destruct sl as [[] o]. unfold updateConstraints_. cbn.
  destruct s_ready0; cbn; [tauto|].
  split; intros [Hi Hk Hf]; constructor; exact Hi || exact Hk || exact Hf.
Qed.

Lemma performSearch_defined sl :
  scorable (s_collection (s_ sl)) -> Convertible sl ->
  exists sl', performSearch_ sl = Normal sl'.
Proof.
  intros H Hq. rewrite performSearch_eq. cbv zeta.
  destruct (snd (isConstrained sl)); eauto.
  pose proof (updateConstraints_frame sl) as (_ & Hc & _).
  destruct (pass_scores_defined (updateConstraints_ sl)) as [ms ->]; cbn; eauto.
  - rewrite Hc. exact H.
  - apply updateConstraints_Convertible. exact Hq.
Qed.


(** ** Counting keys *)

Lemma key_eqb_eq a b : key_eqb a b = true <-> a = b.
Proof.
  destruct a as [i|x], b as [j|y]; cbn; split; intros H; try discriminate.
  - apply Nat.eqb_eq in H. now subst.
  - injection H as ->. apply Nat.eqb_refl.
  - apply String.eqb_eq in H. now subst.
  - injection H as ->. apply String.eqb_refl.
Qed.

Lemma has_key_In k l : has_key k l = true <-> In k l.
Proof.
  unfold has_key. rewrite existsb_exists. split.
  - intros (x & Hx & Hk). apply key_eqb_eq in Hk. now subst.
  - intros H. exists k. split; [exact H|]. now apply key_eqb_eq.
Qed.

Lemma count_key_absent k l : ~ In k l -> count_key k l = 0%nat.
Proof.
  unfold count_key. induction l as [|x l IH]; cbn; intros H; [reflexivity|].
  destruct (key_eqb k x) eqn:Hk.
  - apply key_eqb_eq in Hk. subst. exfalso. apply H. now left.
  - apply IH. intros Hin. apply H. now right.
Qed.

Lemma count_key_once k l : NoDup l -> In k l -> count_key k l = 1%nat.
Proof.
  unfold count_key. induction l as [|x l IH]; cbn; intros Hnd Hin; [contradiction|].
  inversion Hnd as [|? ? Hnotin Hnd']; subst.
  destruct (key_eqb k x) eqn:Hk.
  - apply key_eqb_eq in Hk. subst. cbn.
    f_equal. apply (count_key_absent x l Hnotin).
  - destruct Hin as [->|Hin]; [|auto].
    assert (key_eqb k k = true) by now apply key_eqb_eq. congruence.
Qed.

Lemma count_key_filter (q : Key -> bool) k l :
  count_key k (filter q l) = if q k then count_key k l else 0%nat.
Proof.
  unfold count_key. induction l as [|x l IH]; cbn; [destruct (q k); reflexivity|].
  destruct (q x) eqn:Hq; cbn; destruct (key_eqb k x) eqn:Hk; cbn; rewrite IH;
    try (apply key_eqb_eq in Hk; subst; rewrite Hq); try reflexivity;
    destruct (q k); reflexivity.
Qed.

(** Two lists of distinct keys, drawn from a third and sharing none, split
    it with their complement. *)
Lemma buckets_partition (all full part : list Key) k :
  NoDup all -> NoDup full -> NoDup part ->
  (forall x, In x full -> ~ In x part) ->
  In k all ->
  (count_key k full + count_key k part
   + count_key k (filter (fun x => negb (has_key x full) && negb (has_key x part))
                         all))%nat = 1%nat.
Proof.
  intros Hall Hfull Hpart Hdisj Hin.
  rewrite count_key_filter, (count_key_once k all Hall Hin).
  destruct (has_key k full) eqn:Hf.
  - apply has_key_In in Hf.
    rewrite (count_key_once k full Hfull Hf),
            (count_key_absent k part (Hdisj k Hf)).
    reflexivity.
  - assert (Hnf : ~ In k full).
    { intros Hk. apply has_key_In in Hk. congruence. }
    rewrite (count_key_absent k full Hnf). cbn.
    destruct (has_key k part) eqn:Hp.
    + apply has_key_In in Hp. rewrite (count_key_once k part Hpart Hp).
      reflexivity.
    + assert (Hnp : ~ In k part).
      { intros Hk. apply has_key_In in Hk. congruence. }
      rewrite (count_key_absent k part Hnp). reflexivity.
Qed.

Lemma NoDup_map_injective {A B} (f : A -> B) l x y :
  NoDup (map f l) -> In x l -> In y l -> f x = f y -> x = y.
Proof.
  induction l as [|a l IH]; cbn; intros Hnd Hx Hy Hf; [contradiction|].
  inversion Hnd as [|? ? Hnotin Hnd']; subst.
  destruct Hx as [->|Hx], Hy as [->|Hy]; auto.
  - exfalso. apply Hnotin. rewrite Hf. now apply in_map.
  - exfalso. apply Hnotin. rewrite <- Hf. now apply in_map.
Qed.

Lemma full_not_partial threshold m :
  is_full threshold m = true -> is_partial threshold m = true -> False.
Proof.
  unfold is_full, is_partial.
  destruct (m_relevance m =? 0), (m_relevance m <? threshold); discriminate.
Qed.

(** ** Claims about the classification *)

Section Classification.

Variable array_sort : (Match -> Match -> value) -> list Match -> list Match.

Hypothesis array_sort_permutes :
  forall comparefn a, Permutation (array_sort comparefn a) a.

(** C4: after a classification pass every key of the collection is in
    exactly one of the full-match, partial-match and excluded buckets, and
    [s_.allItems] holds one match per key of the collection, in order; the
    pass returns whenever no item is [null] or [undefined] and no conversion
    raises (no item holds, and no key or filter is, an object that cannot be
    converted to a primitive). *)
Theorem classification_partitions_collection :
  forall sl : Instance,
    Reachable array_sort sl ->
    (forall sl',
        performSearch_ sl = Normal sl' ->
        List.length (s_allItems (s_ sl')) = List.length (s_collection (s_ sl'))
        /\ map m_key (s_allItems (s_ sl')) = map fst (s_collection (s_ sl'))
        /\ forall k, In k (map fst (s_collection (s_ sl'))) ->
                     bucket_count sl' k = 1%nat)
    /\ (scorable (s_collection (s_ sl)) -> Convertible sl ->
        exists sl', performSearch_ sl = Normal sl').
Proof.
  intros sl Hreach.
  pose proof (Reachable_Inv array_sort array_sort_permutes sl Hreach) as HI.
  split; [|apply performSearch_defined].
  intros sl' H.
  destruct (performSearch_result sl sl' HI H) as (_ & _ & Hnd & Hkeys & Hcases).
  split; [|split; [exact Hkeys|]].
  - rewrite <- (length_map m_key), Hkeys, length_map. reflexivity.
  - intros k Hk. unfold bucket_count, excluded_keys, full_keys, partial_keys.
    rewrite Hkeys.
    destruct Hcases as [(_ & -> & ->) | (_ & _ & _ & -> & ->)].
    + apply buckets_partition; auto.
      * apply NoDup_map_filter. rewrite Hkeys. exact Hnd.
      * apply NoDup_map_filter. rewrite Hkeys. exact Hnd.
      * intros x Hf Hp.
        apply in_map_iff in Hf as (m1 & <- & H1).
        apply in_map_iff in Hp as (m2 & Heq & H2).
        apply filter_In in H1 as [H1 Hfull].
        apply filter_In in H2 as [H2 Hpart].
        assert (m2 = m1).
        { eapply NoDup_map_injective; eauto. rewrite Hkeys. exact Hnd. }
        subst. eapply full_not_partial; eassumption.
    + rewrite Hkeys. apply buckets_partition; auto; constructor.
Qed.

(** C1, as amended: the threshold is the base plus the number of filters
    plus one when there are search terms; when a filter or a search term is
    set, an item scoring 0 is excluded, one scoring above 0 and below the
    threshold is a partial match, one scoring at least the threshold is a
    full match; when nothing is set, every item is a full match at score 0. *)
Theorem classification_by_threshold :
  forall sl sl' : Instance,
    Reachable array_sort sl ->
    performSearch_ sl = Normal sl' ->
    let threshold := s_threshold (s_ sl') in
    threshold
    = o_baseThreshold (o_ sl') + Z.of_nat (List.length (s_filters (s_ sl')))
      + (if Nat.eqb (List.length (s_searchTerms (s_ sl'))) 0 then 0 else 1)
    /\ (s_searchTerms (s_ sl') <> [] \/ s_filters (s_ sl') <> [] ->
        forall m, In m (s_allItems (s_ sl')) ->
          (m_relevance m = 0 ->
           ~ In m (matches_array (s_ sl')) /\ ~ In m (s_partial (s_ sl')))
          /\ (0 < m_relevance m < threshold ->
              In m (s_partial (s_ sl')) /\ ~ In m (matches_array (s_ sl')))
          /\ (threshold <= m_relevance m ->
              In m (matches_array (s_ sl')) /\ ~ In m (s_partial (s_ sl'))))
    /\ (s_searchTerms (s_ sl') = [] -> s_filters (s_ sl') = [] ->
        forall m, In m (s_allItems (s_ sl')) ->
          m_relevance m = 0
          /\ In m (matches_array (s_ sl')) /\ ~ In m (s_partial (s_ sl'))).
Proof.
  intros sl sl' Hreach H threshold.
  pose proof (Reachable_Inv array_sort array_sort_permutes sl Hreach) as HI.
  destruct (performSearch_result sl sl' HI H) as (Hthr & Hbase & _ & _ & Hcases).
  fold threshold in Hthr, Hcases.
  assert (Hformula :
            threshold
            = o_baseThreshold (o_ sl') + Z.of_nat (List.length (s_filters (s_ sl')))
              + (if Nat.eqb (List.length (s_searchTerms (s_ sl'))) 0 then 0 else 1)).
  { rewrite Hthr. f_equal.
    destruct (s_searchTerms (s_ sl')); [reflexivity|]. cbn. reflexivity. }
  split; [exact Hformula|]. split.
  - intros Hcon m Hm.
    assert (Hpos : 1 <= threshold).
    { rewrite Hformula, Hbase.
      destruct Hcon as [Ht | Hf].
      - destruct (s_searchTerms (s_ sl')); [contradiction|]. cbn. lia.
      - destruct (s_filters (s_ sl')); [contradiction|].
        destruct (Nat.eqb _ 0); cbn [List.length]; lia. }
    destruct Hcases as [(_ & Hfull & Hpart) | (Ht & Hf & _)];
      [|destruct Hcon; contradiction].
    rewrite Hfull, Hpart. rewrite !filter_In. unfold is_full, is_partial.
    repeat split; intros; try tauto.
    + intros [_ Hx]. replace (m_relevance m =? 0) with true in Hx
        by (symmetry; apply Z.eqb_eq; assumption). discriminate.
    + intros [_ Hx]. replace (m_relevance m =? 0) with true in Hx
        by (symmetry; apply Z.eqb_eq; assumption). discriminate.
    + replace (m_relevance m =? 0) with false by (symmetry; apply Z.eqb_neq; lia).
      replace (m_relevance m <? threshold) with true
        by (symmetry; apply Z.ltb_lt; lia).
      reflexivity.
    + intros [_ Hx].
      replace (m_relevance m <? threshold) with true in Hx
        by (symmetry; apply Z.ltb_lt; lia).
      rewrite andb_false_r in Hx. discriminate.
    + replace (m_relevance m =? 0) with false by (symmetry; apply Z.eqb_neq; lia).
      replace (m_relevance m <? threshold) with false
        by (symmetry; apply Z.ltb_ge; lia).
      reflexivity.
    + intros [_ Hx].
      replace (m_relevance m <? threshold) with false in Hx
        by (symmetry; apply Z.ltb_ge; lia).
      rewrite andb_false_r in Hx. discriminate.
  - intros Ht Hf m Hm.
    destruct Hcases as [([Hx | Hx] & _) | (_ & _ & Hall & Hfull & Hpart)];
      try contradiction.
    rewrite Hfull, Hpart. rewrite Hall in Hm.
    apply in_map_iff in Hm as (k & <- & Hk).
    repeat split; auto.
    rewrite Hall. apply in_map. exact Hk.
Qed.

End Classification.

(** ** Formatting *)

Lemma fold_reduceInject_eq ms sl entries :
  fold_c reduceInject_ ms (sl, entries)
  = bind (fold_c getItemInject_ ms sl)
         (fun sl' => Normal (sl', fold_left reduce_ ms entries)).
Proof.
  revert sl entries. induction ms as [|m ms IH]; intros sl entries; cbn.
  - reflexivity.
  - unfold reduceInject_ at 1. cbn [fst snd].
    destruct (getItemInject_ sl m) as [sl1|e]; cbn [bind]; [|reflexivity].
    rewrite IH. reflexivity.
Qed.

(** [toOriginalFormat_] as one injection pass followed by the references. *)
Lemma toOriginalFormat_eq sl ms :
  toOriginalFormat_ sl ms
  = if o_inject_enabled (o_ sl)
    then bind (fold_c getItemInject_ ms sl)
              (fun sl' => Normal (sl', format_refs sl ms))
    else Normal (sl, format_refs sl ms).
Proof.
  unfold toOriginalFormat_, format_refs.
  destruct (o_collectionType (o_ sl) =? "array")%string;
    destruct (o_inject_enabled (o_ sl)); try reflexivity.
  rewrite fold_reduceInject_eq.
  destruct (fold_c getItemInject_ ms sl); reflexivity.
Qed.

Lemma toOriginalFormat_output sl ms sl' out :
  toOriginalFormat_ sl ms = Normal (sl', out) -> out = format_refs sl ms.
Proof.
  rewrite toOriginalFormat_eq.
  destruct (o_inject_enabled (o_ sl)).
  - destruct (fold_c getItemInject_ ms sl); cbn; [|discriminate].
    intros H. injection H as _ <-. reflexivity.
  - intros H. injection H as _ <-. reflexivity.
Qed.


(** ** What the cache leaves alone *)

Lemma same_setup_refl sl : same_setup sl sl.
Proof. constructor; reflexivity. Qed.

Lemma same_setup_trans a b c : same_setup a b -> same_setup b c -> same_setup a c.
Proof. intros [] []. constructor; congruence. Qed.

Lemma updateConstraints_setup sl : same_setup sl (updateConstraints_ sl).
Proof.
  destruct sl as [[] o]. unfold updateConstraints_. cbn.
  destruct s_ready0; constructor; reflexivity.
Qed.

Lemma performSearch_setup sl sl' :
  performSearch_ sl = Normal sl' -> same_setup sl sl'.
Proof.
  rewrite performSearch_eq. cbv zeta. intros H.
  apply (same_setup_trans _ _ _ (updateConstraints_setup sl)).
  destruct (snd (isConstrained sl)).
  - destruct (pass_scores _); cbn [bind] in H; [|discriminate].
    injection H as <-. destruct (updateConstraints_ sl) as [[] o].
    constructor; reflexivity.
  - injection H as <-. destruct (updateConstraints_ sl) as [[] o].
    constructor; reflexivity.
Qed.

Lemma set_collection_same sl : on_s (set_collection (s_collection (s_ sl))) sl = sl.
Proof. destruct sl as [[] o]. reflexivity. Qed.

(** ** Claims about the accessors *)

Section Accessors.

Variable array_sort : (Match -> Match -> value) -> list Match -> list Match.

Hypothesis array_sort_permutes :
  forall comparefn a, Permutation (array_sort comparefn a) a.

Lemma performSort_setup sl a :
  same_setup sl (fst (performSort_ array_sort sl a)).
Proof.
  destruct (performSort_spec array_sort array_sort_permutes sl a)
    as [[-> | ->] _].
  - apply same_setup_refl.
  - apply updateConstraints_setup.
Qed.

Lemma updateMatches_noop sl :
  s_complete (s_ sl) = true -> updateMatches_ array_sort sl = Normal sl.
Proof. intros H. unfold updateMatches_. rewrite H. reflexivity. Qed.

Lemma updateMatches_setup sl sl' :
  updateMatches_ array_sort sl = Normal sl' ->
  same_setup sl sl' /\ s_complete (s_ sl') = true.
Proof.
  unfold updateMatches_. intros H.
  destruct (s_complete (s_ sl)) eqn:Hc; cbn [bind negb] in H.
  - injection H as <-. split; [apply same_setup_refl|exact Hc].
  - destruct (if negb (s_searched (s_ sl)) then performSearch_ sl else Normal sl)
      as [sl1|e] eqn:H1; cbn [bind negb] in H; [|discriminate].
    assert (Hs1 : same_setup sl sl1).
    { destruct (s_searched (s_ sl)); cbn [negb] in H1.
      - injection H1 as <-. apply same_setup_refl.
      - apply performSearch_setup. exact H1. }
    pose proof (performSort_setup sl1 (matches_array (s_ sl1))) as Hs2.
    destruct (performSort_ array_sort sl1 (matches_array (s_ sl1)))
      as [sl2 sorted_matches].
    cbn [fst] in Hs2. injection H as <-.
    split.
    + apply (same_setup_trans _ _ _ Hs1), (same_setup_trans _ _ _ Hs2).
      destruct sl2 as [[] o]. unfold update_matches_array. cbn.
      destruct s_matches0; constructor; reflexivity.
    + destruct sl2 as [[] o]. unfold update_matches_array. cbn.
      destruct s_matches0; reflexivity.
Qed.

Lemma updateMatches_defined sl :
  (exists sl1, performSearch_ sl = Normal sl1) ->
  exists sl', updateMatches_ array_sort sl = Normal sl'.
Proof.
  intros H. unfold updateMatches_.
  destruct (negb (s_complete (s_ sl))); [|eauto].
  destruct (negb (s_searched (s_ sl))).
  - destruct H as [sl1 ->]. cbn [bind].
    destruct (performSort_ _ _ _). eauto.
  - cbn [bind]. destruct (performSort_ _ _ _). eauto.
Qed.

(** Without a caller's comparator an unconstrained instance is never sorted. *)
Lemma performSort_unconstrained sl a :
  Inv sl -> unconstrained sl -> o_customSort (o_ sl) = None ->
  snd (performSort_ array_sort sl a) = a.
Proof.
  intros HI Hun Hcustom. unfold performSort_.
  pose proof (proj2 (isConstrained_false sl HI) Hun) as Hcon.
  pose proof (updateConstraints_setup sl) as [Ho _ _ _ _ _ _].
  unfold isConstrained in *. cbn [snd] in Hcon.
  destruct (o_sort (o_ sl)).
  - rewrite Hcon. cbn [andb]. rewrite Ho, Hcustom. reflexivity.
  - rewrite Hcustom. reflexivity.
Qed.

Lemma unconstrained_setup a b :
  same_setup a b -> unconstrained a -> unconstrained b.
Proof. intros [] []. split; congruence. Qed.

(** An unconstrained search reads no item, so it returns whatever the items
    are. *)
Lemma performSearch_unconstrained sl :
  Inv sl -> unconstrained sl ->
  exists sl',
    performSearch_ sl = Normal sl'
    /\ s_allItems (s_ sl') = map emptyMatch_ (map fst (s_collection (s_ sl)))
    /\ matches_array (s_ sl') = s_allItems (s_ sl')
    /\ s_partial (s_ sl') = [].
Proof.
  intros HI Hun. rewrite performSearch_eq. cbv zeta.
  rewrite (proj2 (isConstrained_false sl HI) Hun).
  eexists. split; [reflexivity|].
  pose proof (updateConstraints_setup sl) as [_ Hc _ _ _ _ _].
  rewrite <- Hc. destruct (updateConstraints_ sl) as [[] o]. repeat split.
Qed.

Lemma updateMatches_unconstrained sl :
  Inv sl -> unconstrained sl ->
  exists sl', updateMatches_ array_sort sl = Normal sl'.
Proof.
  intros HI Hun. unfold updateMatches_.
  destruct (negb (s_complete (s_ sl))); [|eauto].
  destruct (negb (s_searched (s_ sl))).
  - destruct (performSearch_unconstrained sl HI Hun) as (sl1 & -> & _).
    cbn [bind]. destruct (performSort_ _ _ _). eauto.
  - cbn [bind]. destruct (performSort_ _ _ _). eauto.
Qed.

(** What any of the three views returns on an unconstrained instance: the
    references for [s_.allItems] as the cache holds it. *)
Lemma read_unconstrained v sl s1 out :
  Inv sl -> unconstrained sl -> o_customSort (o_ sl) = None ->
  read array_sort v sl = Normal (s1, out) ->
  exists u,
    updateMatches_ array_sort sl = Normal u
    /\ out = format_refs sl (s_allItems (s_ u))
    /\ s_allItems (s_ s1) = s_allItems (s_ u)
    /\ s_complete (s_ s1) = true
    /\ Inv s1 /\ unconstrained s1 /\ o_ s1 = o_ sl.
Proof.
  intros HI Hun Hcustom H.
  assert (HI1 : Inv s1).
  { destruct v; cbn [read] in H;
      [apply (get_matches_Inv array_sort array_sort_permutes _ _ HI H)
      |apply (get_allMatches_Inv array_sort array_sort_permutes _ _ HI H)
      |apply (get_allItems_Inv array_sort array_sort_permutes _ _ HI H)]. }
  assert (Hread :
            exists u ms u2,
              updateMatches_ array_sort sl = Normal u
              /\ toOriginalFormat_ u2 ms = Normal (s1, out)
              /\ ms = s_allItems (s_ u)
              /\ s_allItems (s_ u2) = s_allItems (s_ u)
              /\ s_complete (s_ u2) = true
              /\ same_setup sl u2).
  { destruct (updateMatches_ array_sort sl) as [u|e] eqn:Hu;
      [|destruct v; cbn in H; unfold get_matches, get_allMatches, get_allItems in H;
        rewrite Hu in H; discriminate].
    destruct (updateMatches_Inv array_sort array_sort_permutes _ _ HI Hu)
      as [HIu Hsu].
    destruct (updateMatches_setup _ _ Hu) as [Hsetup Hcu].
    pose proof (unconstrained_setup _ _ Hsetup Hun) as Hunu.
    assert (Hcustomu : o_customSort (o_ u) = None)
      by (destruct Hsetup as [-> _ _ _ _ _ _]; exact Hcustom).
    destruct (inv_unconstrained _ HIu Hsu Hunu) as (Hm & Hp & _).
    assert (Hma : matches_array (s_ u) = s_allItems (s_ u))
      by (unfold matches_array; rewrite Hm; reflexivity).
    exists u.
    destruct v; cbn [read] in H;
      unfold get_matches, get_allMatches, get_allItems in H;
      rewrite Hu in H; cbn [bind] in H.
    - exists (s_allItems (s_ u)), u. rewrite Hma in H. repeat (apply conj); auto.
    - rewrite Hma, Hp, app_nil_r in H.
      pose proof (performSort_unconstrained u (s_allItems (s_ u)) HIu Hunu Hcustomu)
        as Hsame.
      pose proof (performSort_setup u (s_allItems (s_ u))) as Hs2.
      pose proof (performSort_frame array_sort array_sort_permutes u
                    (s_allItems (s_ u)))
        as (_ & _ & _ & _ & _ & _ & Ha & Hc2 & _).
      destruct (performSort_ array_sort u (s_allItems (s_ u))) as [u2 sorted_all].
      cbn [fst snd] in *. subst sorted_all.
      exists (s_allItems (s_ u)), u2. repeat (apply conj); auto; try congruence.
      eapply same_setup_trans; eassumption.
    - pose proof (performSort_unconstrained u (s_allItems (s_ u)) HIu Hunu Hcustomu)
        as Hsame.
      pose proof (performSort_setup u (s_allItems (s_ u))) as Hs2.
      pose proof (performSort_frame array_sort array_sort_permutes u
                    (s_allItems (s_ u)))
        as (_ & _ & _ & _ & _ & _ & Ha & Hc2 & _).
      destruct (performSort_ array_sort u (s_allItems (s_ u))) as [u2 sorted_all].
      cbn [fst snd] in *. subst sorted_all.
      exists (s_allItems (s_ u)),
             (on_s (set_allItems (s_allItems (s_ u))) u2).
      repeat (apply conj); auto.
      + destruct u2 as [[] o]. cbn in *. congruence.
      + apply (same_setup_trans _ _ _ Hsetup), (same_setup_trans _ _ _ Hs2).
        destruct u2 as [[] o]. constructor; reflexivity. }
  destruct Hread as (u & ms & u2 & Hu & Hfmt & -> & Ha2 & Hc2 & Hsetup2).
  exists u. split; [exact Hu|].
  pose proof (toOriginalFormat_output _ _ _ _ Hfmt) as ->.
  destruct (toOriginalFormat_frame _ _ _ _ Hfmt) as (coll & -> & Hkeys).
  destruct Hsetup2 as [Ho _ Ht Hf _ _ _].
  split; [unfold format_refs; rewrite Ho; reflexivity|].
  destruct u2 as [[] o]. cbn in Ha2, Hc2, Ho, Ht, Hf |- *.
  split; [exact Ha2|]. split; [exact Hc2|]. split; [exact HI1|].
  split; [|exact Ho].
  destruct Hun as [Hun1 Hun2]. split; cbn; congruence.
Qed.

Lemma read_defined v sl :
  Inv sl -> unconstrained sl -> o_inject_enabled (o_ sl) = false ->
  exists s1 o1, read array_sort v sl = Normal (s1, o1).
Proof.
  intros HI Hun Hinject.
  destruct (updateMatches_unconstrained sl HI Hun) as [u Hu].
  destruct (updateMatches_setup _ _ Hu) as [[Ho _ _ _ _ _ _] _].
  destruct v; cbn [read]; unfold get_matches, get_allMatches, get_allItems;
    rewrite Hu; cbn [bind].
  - rewrite toOriginalFormat_eq, Ho, Hinject. eauto.
  - pose proof (performSort_setup u (matches_array (s_ u) ++ s_partial (s_ u))%list)
      as [Ho2 _ _ _ _ _ _].
    destruct (performSort_ _ _ _) as [u2 sorted_all]. cbn [fst] in Ho2.
    rewrite toOriginalFormat_eq, Ho2, Ho, Hinject. eauto.
  - pose proof (performSort_setup u (s_allItems (s_ u))) as [Ho2 _ _ _ _ _ _].
    destruct (performSort_ _ _ _) as [u2 sorted_items]. cbn [fst] in Ho2.
    rewrite toOriginalFormat_eq.
    replace (o_ (on_s (set_allItems sorted_items) u2)) with (o_ u2)
      by (destruct u2; reflexivity).
    rewrite Ho2, Ho, Hinject. eauto.
Qed.

(** C3, as amended: when no filter and no search text is set, a
    classification pass makes every item a full match with relevance 0
    without scoring any of them - it returns whatever the items are; and
    when no comparator of the caller's is installed either, [matches],
    [allMatches] and [allItems] return the same output, read from the same
    instance or one after the other. *)
Theorem unconstrained_everything_matches :
  forall sl : Instance,
    Reachable array_sort sl ->
    unconstrained sl ->
    (exists sl',
        performSearch_ sl = Normal sl'
        /\ s_allItems (s_ sl') = map emptyMatch_ (map fst (s_collection (s_ sl)))
        /\ matches_array (s_ sl') = s_allItems (s_ sl')
        /\ s_partial (s_ sl') = [])
    /\ (o_customSort (o_ sl) = None ->
        (forall v w s1 o1 s2 o2,
            read array_sort v sl = Normal (s1, o1) ->
            read array_sort w sl = Normal (s2, o2) ->
            o1 = o2)
        /\ (forall v w s1 o1 s2 o2,
               read array_sort v sl = Normal (s1, o1) ->
               read array_sort w s1 = Normal (s2, o2) ->
               o1 = o2 /\ snapshot s2 o1 = snapshot s2 o2)
        /\ (o_inject_enabled (o_ sl) = false ->
            forall v, exists s1 o1, read array_sort v sl = Normal (s1, o1))).
Proof.
  intros sl Hreach Hun.
  pose proof (Reachable_Inv array_sort array_sort_permutes sl Hreach) as HI.
  split; [apply performSearch_unconstrained; assumption|].
  intros Hcustom.
  split; [|split].
  - intros v w s1 o1 s2 o2 H1 H2.
    destruct (read_unconstrained _ _ _ _ HI Hun Hcustom H1) as (u1 & Hu1 & -> & _).
    destruct (read_unconstrained _ _ _ _ HI Hun Hcustom H2) as (u2 & Hu2 & -> & _).
    rewrite Hu1 in Hu2. injection Hu2 as ->. reflexivity.
  - intros v w s1 o1 s2 o2 H1 H2.
    destruct (read_unconstrained _ _ _ _ HI Hun Hcustom H1)
      as (u1 & Hu1 & -> & Ha1 & Hc1 & HI1 & Hun1 & Ho1).
    assert (Hcustom1 : o_customSort (o_ s1) = None) by (rewrite Ho1; exact Hcustom).
    destruct (read_unconstrained _ _ _ _ HI1 Hun1 Hcustom1 H2)
      as (u2 & Hu2 & -> & _).
    rewrite (updateMatches_noop s1 Hc1) in Hu2. injection Hu2 as <-.
    assert (Heq : format_refs sl (s_allItems (s_ u1))
                  = format_refs s1 (s_allItems (s_ s1))).
    { unfold format_refs. rewrite Ho1, Ha1. reflexivity. }
    rewrite Heq. split; reflexivity.
  - intros Hinject v. apply read_defined; assumption.
Qed.

(** ** An invalid collection *)


Lemma filter_c_all {A : Type} (f : A -> completion bool) l :
  (forall x, In x l -> f x = Normal true) -> filter_c f l = Normal l.
Proof.
  induction l as [|x l IH]; intros H; cbn; [reflexivity|].
  rewrite (H x (or_introl eq_refl)), IH; [reflexivity|].
  intros y Hy. apply H. now right.
Qed.

Lemma assoc_present k ps :
  In k (map fst ps) -> exists v, assoc k ps = Some v.
Proof.
  induction ps as [|[k' v'] ps IH]; cbn; [intros []|].
  destruct (k' =? k)%string eqn:Hk; [eauto|].
  intros [->|H]; [|auto]. rewrite String.eqb_refl in Hk. discriminate.
Qed.

(** [hasOwnProperty] keeps every name [Object.keys] lists, when it can be
    called. *)
Lemma own_keys_kept props :
  shadows_hasOwnProperty (VObj props) = false ->
  filter_c (hasOwnProperty (VObj props)) (map fst props) = Normal (map fst props).
Proof.
  intros H. apply filter_c_all. intros k Hk. unfold hasOwnProperty.
  cbn in H. destruct (assoc "hasOwnProperty" props); [discriminate|].
  destruct (assoc_present _ _ Hk) as [v ->]. reflexivity.
Qed.








(** ** Reading twice *)

Lemma key_eqb_refl k : key_eqb k k = true.
Proof. now apply key_eqb_eq. Qed.

Lemma map_get_set_same k v m v0 :
  map_get k m = Some v0 -> map_get k (map_set k v m) = Some v.
Proof.
  induction m as [|[k' v'] m IH]; cbn; [discriminate|].
  destruct (key_eqb k' k) eqn:Hk; cbn; rewrite Hk; auto.
Qed.

Lemma map_get_set_other k k' v m :
  key_eqb k k' = false -> map_get k' (map_set k v m) = map_get k' m.
Proof.
  intros Hne. induction m as [|[k0 v0] m IH]; cbn.
  - destruct (key_eqb k k') eqn:Hk; [congruence|reflexivity].
  - destruct (key_eqb k0 k) eqn:Hk0; cbn.
    + apply key_eqb_eq in Hk0. subst k0. rewrite Hne. reflexivity.
    + rewrite IH. reflexivity.
Qed.

Lemma map_set_id k v m : map_get k m = Some v -> map_set k v m = m.
Proof.
  induction m as [|[k' v'] m IH]; cbn; [discriminate|].
  destruct (key_eqb k' k); intros H.
  - injection H as ->. reflexivity.
  - rewrite (IH H). reflexivity.
Qed.

Lemma assoc_set_idem p v ps : assoc_set p v (assoc_set p v ps) = assoc_set p v ps.
Proof.
  induction ps as [|[p' v'] ps IH]; cbn.
  - rewrite String.eqb_refl. reflexivity.
  - destruct (p' =? p)%string eqn:Hp; cbn.
    + rewrite String.eqb_refl. reflexivity.
    + rewrite Hp, IH. reflexivity.
Qed.

Lemma assoc_set_found p v ps : assoc p (assoc_set p v ps) = Some v.
Proof.
  induction ps as [|[p' v'] ps IH]; cbn.
  - rewrite String.eqb_refl. reflexivity.
  - destruct (p' =? p)%string eqn:Hp; cbn.
    + rewrite String.eqb_refl. reflexivity.
    + rewrite Hp. exact IH.
Qed.

(** Writing a property a second time changes nothing. *)
Lemma put_idem p v ps : put p v (put p v ps) = put p v ps.
Proof.
  unfold put. destruct (assoc p ps) eqn:Hp.
  - rewrite assoc_set_found. apply assoc_set_idem.
  - destruct (p =? "__proto__")%string eqn:Hproto.
    + rewrite Hp. reflexivity.
    + rewrite assoc_set_found. apply assoc_set_idem.
Qed.

(** Injecting into one item leaves the items under other keys alone. *)
Lemma getItemInject_other sl m sl' k :
  getItemInject_ sl m = Normal sl' -> key_eqb (m_key m) k = false ->
  map_get k (s_collection (s_ sl')) = map_get k (s_collection (s_ sl)).
Proof.
  unfold getItemInject_, getItem_, item_of. intros H Hne.
  destruct (map_get (m_key m) (s_collection (s_ sl))) as [[]|];
    try (destruct (to_string_c (o_inject_property (o_ sl))); cbn [bind] in H);
    try discriminate; injection H as <-; try reflexivity;
    destruct sl as [[] o]; cbn; apply map_get_set_other; exact Hne.
Qed.

Lemma fold_getItemInject_other ms sl sl' k :
  fold_c getItemInject_ ms sl = Normal sl' -> ~ In k (map m_key ms) ->
  map_get k (s_collection (s_ sl')) = map_get k (s_collection (s_ sl)).
Proof.
  revert sl. induction ms as [|m ms IH]; intros sl H Hk; cbn in H.
  - injection H as <-. reflexivity.
  - destruct (getItemInject_ sl m) as [sa|e] eqn:Ha; cbn in H; [|discriminate].
    rewrite (IH _ H); [|intros Hin; apply Hk; now right].
    apply (getItemInject_other _ _ _ _ Ha).
    destruct (key_eqb (m_key m) k) eqn:Heq; [|reflexivity].
    apply key_eqb_eq in Heq. exfalso. apply Hk. left. exact Heq.
Qed.

(** Injecting a match a second time changes nothing, unless the item is an
    array, which grows by one more element. *)
Lemma getItemInject_again sl m sa s1 :
  getItemInject_ sl m = Normal sa ->
  o_ s1 = o_ sl ->
  map_get (m_key m) (s_collection (s_ s1))
  = map_get (m_key m) (s_collection (s_ sa)) ->
  isArray (getItem_ s1 m) = false ->
  getItemInject_ s1 m = Normal s1.
Proof.
  unfold getItemInject_, getItem_, item_of. intros H Ho Hget Harr.
  rewrite Hget in *. rewrite Ho.
  destruct (map_get (m_key m) (s_collection (s_ sl))) as [item|] eqn:Hitem.
  - destruct (to_string_c (o_inject_property (o_ sl))) as [property|];
      destruct item; cbn [bind] in H |- *;
      try discriminate; injection H as <-;
      try (rewrite Hitem; reflexivity);
      destruct sl as [[] o]; cbn in *;
      rewrite (map_get_set_same _ _ _ _ Hitem) in *; try discriminate.
    rewrite put_idem. destruct s1 as [[] o1]. cbn in *.
    unfold on_s, set_collection. cbn.
    rewrite (map_set_id _ _ _ Hget). reflexivity.
  - injection H as <-. rewrite Hitem. reflexivity.
Qed.

Lemma fold_getItemInject_again ms sl s1 :
  NoDup (map m_key ms) ->
  fold_c getItemInject_ ms sl = Normal s1 ->
  (forall m, In m ms -> isArray (getItem_ s1 m) = false) ->
  fold_c getItemInject_ ms s1 = Normal s1.
Proof.
  revert sl. induction ms as [|m ms IH]; intros sl Hnd H Harr; cbn in *.
  - reflexivity.
  - destruct (getItemInject_ sl m) as [sa|e] eqn:Ha; cbn in H; [|discriminate].
    inversion Hnd as [|? ? Hnotin Hnd']; subst.
    destruct (getItemInject_frame _ _ _ Ha) as (ca & Hsa & _).
    destruct (fold_getItemInject_frame _ _ _ H) as (c1 & Hs1 & _).
    assert (Ho : o_ s1 = o_ sl).
    { rewrite Hs1, Hsa. destruct sl. reflexivity. }
    rewrite (getItemInject_again sl m sa s1 Ha Ho).
    + cbn. apply (IH sa); auto.
    + apply (fold_getItemInject_other _ _ _ _ H Hnotin).
    + apply Harr. now left.
Qed.

Lemma toOriginalFormat_again u ms s1 out :
  NoDup (map m_key ms) ->
  toOriginalFormat_ u ms = Normal (s1, out) ->
  (o_inject_enabled (o_ u) = false
   \/ forall m, In m ms -> isArray (getItem_ s1 m) = false) ->
  toOriginalFormat_ s1 ms = Normal (s1, out).
Proof.
  intros Hnd H Hcase.
  destruct (toOriginalFormat_frame _ _ _ _ H) as (c & Hs1 & _).
  assert (Ho : o_ s1 = o_ u) by (rewrite Hs1; destruct u; reflexivity).
  pose proof (toOriginalFormat_output _ _ _ _ H) as ->.
  rewrite toOriginalFormat_eq in *.
  replace (format_refs s1 ms) with (format_refs u ms)
    by (unfold format_refs; rewrite Ho; reflexivity).
  rewrite Ho. destruct (o_inject_enabled (o_ u)).
  - destruct Hcase as [Hoff | Harr]; [discriminate|].
    destruct (fold_c getItemInject_ ms u) as [s|e] eqn:Hfold; cbn in H;
      [|discriminate].
    injection H as ->.
    rewrite (fold_getItemInject_again _ _ _ Hnd Hfold Harr). reflexivity.
  - injection H as ->. reflexivity.
Qed.

(** C8, as amended: when metadata injection is disabled, or no full match
    is an array, a second read of [matches] with nothing in between returns
    the same output and leaves the instance, stored items included, exactly
    as the first read left it. *)
Theorem repeated_read_is_stable :
  forall (sl s1 : Instance) (o1 : Output),
    Reachable array_sort sl ->
    get_matches array_sort sl = Normal (s1, o1) ->
    (o_inject_enabled (o_ sl) = false
     \/ forall m, In m (matches_array (s_ s1)) -> isArray (getItem_ s1 m) = false) ->
    exists (s2 : Instance) (o2 : Output),
      get_matches array_sort s1 = Normal (s2, o2)
      /\ o2 = o1
      /\ snapshot s2 o2 = snapshot s1 o1
      /\ s_collection (s_ s2) = s_collection (s_ s1)
      /\ s2 = s1.
Proof.
  intros sl s1 o1 Hreach H Hcase.
  exists s1, o1. split; [|repeat split].
  pose proof (Reachable_Inv array_sort array_sort_permutes sl Hreach) as HI.
  unfold get_matches in *.
  destruct (updateMatches_ array_sort sl) as [u|e] eqn:Hu; cbn [bind] in H;
    [|discriminate].
  destruct (updateMatches_Inv array_sort array_sort_permutes _ _ HI Hu) as [HIu _].
  destruct (updateMatches_setup _ _ Hu) as [[Ho _ _ _ _ _ _] Hcu].
  destruct (toOriginalFormat_frame _ _ _ _ H) as (c & Hs1 & _).
  assert (Hc1 : s_complete (s_ s1) = true).
  { rewrite Hs1. destruct u as [[] o]. exact Hcu. }
  assert (Hm1 : matches_array (s_ s1) = matches_array (s_ u)).
  { rewrite Hs1. destruct u as [[] o]. reflexivity. }
  rewrite (updateMatches_noop s1 Hc1). cbn [bind]. rewrite Hm1 in *.
  apply (toOriginalFormat_again u); auto.
  - apply (inv_matches_keys _ HIu).
  - rewrite Ho. exact Hcase.
Qed.

End Accessors.

(** ** The host [stable_sort] *)

Lemma insert_sorted_permutes {A} (comparefn : A -> A -> value) x l :
  Permutation (insert_sorted comparefn x l) (x :: l).
Proof.
  induction l as [|y l IH]; cbn; [apply Permutation_refl|].
  destruct (sort_order comparefn x y <? 0); [apply Permutation_refl|].
  eapply Permutation_trans; [apply perm_skip, IH|apply perm_swap].
Qed.

Lemma stable_sort_permutes (comparefn : Match -> Match -> value) (a : list Match) :
  Permutation (stable_sort comparefn a) a.
Proof.
  unfold stable_sort.
  assert (H : forall acc,
             Permutation (fold_left (fun acc x => insert_sorted comparefn x acc) a acc)
                         (acc ++ a)).
  { induction a as [|x a IH]; intros acc; cbn.
    - rewrite app_nil_r. apply Permutation_refl.
    - eapply Permutation_trans; [apply IH|].
      eapply Permutation_trans;
        [apply Permutation_app_tail, insert_sorted_permutes|].
      cbn. apply Permutation_middle. }
  apply (H []).
Qed.

(** ** The program at work

    [String.prototype.split] on the cases that matter to the scoring, and
    the scenarios the specification lists, under the host [stable_sort]. *)

Example split_counts_without_overlap : split "aaa" "aa" = [""; "a"].
Proof. reflexivity. Qed.

Example split_adjacent_separators : split "abcabc" "abc" = [""; ""; ""].
Proof. reflexivity. Qed.

Example split_empty_string : split "" "a" = [""] /\ split "" "" = [].
Proof. split; reflexivity. Qed.

Example split_on_empty_separator : split "abc" "" = ["a"; "b"; "c"].
Proof. reflexivity. Qed.

(** [search(['apple pie','banana split','apple tart']).for('apple').matches]. *)
Example scenario_apple :
  observe (sl <- use stable_sort three_desserts [CallFor (VStr "apple")] ;;
           get_matches stable_sort sl)
  = Normal (VArr [VStr "apple pie"; VStr "apple tart"]).
Proof. vm_compute. reflexivity. Qed.

(** [search({a:{n:1},b:{n:5},c:{n:10}}).for(['n','>=',5]).matches]. *)
Example scenario_filter :
  observe (sl <- use stable_sort
                   (VObj [("a", VObj [("n", VNum 1)]);
                          ("b", VObj [("n", VNum 5)]);
                          ("c", VObj [("n", VNum 10)])])
                   [CallFor (VArr [VStr "n"; VStr ">="; VNum 5])] ;;
           get_matches stable_sort sl)
  = Normal (VObj [("b", VObj [("n", VNum 5)]); ("c", VObj [("n", VNum 10)])]).
Proof. vm_compute. reflexivity. Qed.

(** [search(['x']).for('nonexistent')]: [matches], [allMatches], [allItems]. *)
Example scenario_nonexistent :
  let sl := use stable_sort (VArr [VStr "x"]) [CallFor (VStr "nonexistent")] in
  observe (sl <- sl ;; get_matches stable_sort sl) = Normal (VArr [])
  /\ observe (sl <- sl ;; get_allMatches stable_sort sl) = Normal (VArr [])
  /\ observe (sl <- sl ;; get_allItems stable_sort sl) = Normal (VArr [VStr "x"]).
Proof. repeat split; vm_compute; reflexivity. Qed.

(** [search(['Apple']).for('apple').matches], then with [.compareCase()]. *)
Example scenario_case :
  observe (sl <- use stable_sort (VArr [VStr "Apple"]) [CallFor (VStr "apple")] ;;
           get_matches stable_sort sl)
  = Normal (VArr [VStr "Apple"])
  /\ observe (sl <- use stable_sort (VArr [VStr "Apple"])
                      [CallFor (VStr "apple"); CallCompareCase] ;;
              get_matches stable_sort sl)
     = Normal (VArr []).
Proof. split; vm_compute; reflexivity. Qed.

(** An empty search term - two spaces in a row in the search text - on an
    empty subject: the split has no piece, the count is -1, and the item
    becomes a partial match with relevance -1. *)
Example empty_term_on_empty_subject :
  search_ (mkMatch (KIndex 0) 0 "") "" "" = mkMatch (KIndex 0) (-1) ""
  /\ (sl <- use stable_sort (VArr [VStr ""]) [CallFor (VStr "a  b")] ;;
      r <- get_matches stable_sort sl ;;
      Normal (s_searchTerms (s_ (fst r)), s_partial (s_ (fst r))))
     = Normal (["a"; ""; "b"], [mkMatch (KIndex 0) (-1) " a b"]).
Proof. split; vm_compute; reflexivity. Qed.

(** ** Replacing the constraints *)

(** C6: for a constraint other than [null], [.for(constraint)] returns the
    same instance with the search text and the filter list replaced - a text
    kept trimmed, a filter appended to the emptied list, the two-element
    form with operator ["=="] - and the three cache flags cleared; for
    [null] it raises a [TypeError] instead of returning. *)
Theorem for_replaces_constraints :
  (forall (sl : Instance) (constraint : value),
      constraint <> VNull ->
      for_ sl constraint
      = Normal (on_s (fun s =>
                        set_searched false
                          (set_complete false
                             (set_ready false
                                (set_filters (replaced_filters constraint)
                                   (set_searchText (replaced_text constraint) s)))))
                     sl))
  /\ (forall key value : value,
         replaced_filters (VArr [key; value]) = [mkFilter key (VStr "==") value])
  /\ (forall sl : Instance,
         for_ sl VNull = Throw (TypeError "Cannot read property key of null")).
Proof.
  split; [|split].
  - intros sl constraint Hnull. destruct sl as [[] o].
    destruct constraint; try contradiction; try reflexivity.
    + unfold for_, and_, replaced_filters, normalized_filter. cbn.
      destruct (nth 2 elems VUndefined); reflexivity.
    + unfold for_, and_, replaced_filters, normalized_filter, field. cbn.
      destruct (assoc "key" props), (assoc "operator" props),
        (assoc "value" props) as [[]|]; reflexivity.
  - intros key value. reflexivity.
  - intros sl. reflexivity.
Qed.

(** ** The comparator *)

(** C5: on a tie in relevance [sortComparator_] answers a boolean, never a
    negative number, so it does not say that the lower key goes first: for
    the keys ["a"] and ["b"] it answers [false] one way round and [true] the
    other, and under a stable host sort the full matches of
    [search({b: 'x', a: 'x'}).for('x').sorted()] come out as [b], then [a]. *)
Theorem sortComparator_tie_is_boolean :
  (forall matchA matchB : Match,
      m_relevance matchA = m_relevance matchB ->
      sortComparator_ matchA matchB
      = VBool (lt (key_value (m_key matchB)) (key_value (m_key matchA)))
      /\ 0 <= sort_order sortComparator_ matchA matchB)
  /\ sortComparator_ (mkMatch (KName "a") 1 "") (mkMatch (KName "b") 1 "")
     = VBool false
  /\ sortComparator_ (mkMatch (KName "b") 1 "") (mkMatch (KName "a") 1 "")
     = VBool true
  /\ use stable_sort (VObj [("b", VStr "x"); ("a", VStr "x")])
         [CallFor (VStr "x"); CallSorted] = Normal tied_b_a
  /\ (exists s1,
         get_matches stable_sort tied_b_a
         = Normal (s1, OutObject [("b", KName "b"); ("a", KName "a")])).
Proof.
  split; [|repeat split].
  - intros matchA matchB Heq. unfold sort_order, sortComparator_.
    rewrite Heq, Z.gtb_ltb, Z.ltb_irrefl, Z.eqb_refl.
    split; [reflexivity|].
    destruct (lt _ _); cbn; lia.
  - eexists. vm_compute. reflexivity.
Qed.

(** ** Iteration *)

(** C9: an iteration request raises a [TypeError] on every instance:
    [this.updateMatches_] names no property of the instance or of its
    prototype (the helper lives in [fn_]), so no sequence is produced, a
    first time or a second. *)
Theorem Symbol_iterator_throws :
  forall (array_sort : (Match -> Match -> value) -> list Match -> list Match)
         (sl : Instance),
    Symbol_iterator array_sort sl
    = Throw (TypeError "this.updateMatches_ is not a function").
Proof. intros array_sort sl. reflexivity. Qed.

(** ** The claims at concrete instances *)

Lemma calls_Reachable array_sort calls sl sl' :
  Reachable array_sort sl ->
  fold_c (fun sl c => call array_sort c sl) calls sl = Normal sl' ->
  Reachable array_sort sl'.
Proof.
  revert sl. induction calls as [|c calls IH]; intros sl Hreach H; cbn in H.
  - injection H as <-. exact Hreach.
  - destruct (call array_sort c sl) as [sl1|e] eqn:Hc; cbn in H; [|discriminate].
    apply (IH sl1); [|exact H]. eapply reach_call; eassumption.
Qed.

(** The instance a program leaves is an instance in use. *)
Lemma use_Reachable array_sort items calls sl :
  use array_sort items calls = Normal sl -> Reachable array_sort sl.
Proof.
  unfold use. intros H.
  destruct (search items) as [sl0|e] eqn:Hs; cbn in H; [|discriminate].
  eapply calls_Reachable; [|exact H]. eapply reach_search. exact Hs.
Qed.

Lemma apples_Reachable : Reachable stable_sort apples.
Proof.
  apply (use_Reachable _ three_desserts [CallFor (VStr "apple")]).
  vm_compute. reflexivity.
Qed.

Lemma desserts_Reachable : Reachable stable_sort desserts.
Proof. apply (use_Reachable _ three_desserts []). vm_compute. reflexivity. Qed.


Lemma record_with_stats_Reachable : Reachable stable_sort record_with_stats.
Proof.
  apply (use_Reachable _ (VArr [VObj [("n", VNum 1)]]) [CallWithStats VUndefined]).
  vm_compute. reflexivity.
Qed.

(** C1 at [search([...]).for('apple')]: one search term, threshold 1. *)
Lemma classification_by_threshold_witness :
  Reachable stable_sort apples
  /\ performSearch_ apples = Normal apples_searched
  /\ s_threshold (s_ apples_searched) = 0 + 0 + 1.
Proof.
  split; [exact apples_Reachable|]. split; [reflexivity|].
  exact (proj1 (classification_by_threshold stable_sort stable_sort_permutes
                  apples apples_searched apples_Reachable eq_refl)).
Defined.

(** C1 as stated fails without constraints: after the classification pass of
    [search(['apple pie', 'banana split', 'apple tart'])] the threshold is 0
    and the item under key 0, whose relevance is exactly 0, is a full match,
    not an excluded item. *)
Lemma unconstrained_zero_score_is_a_full_match :
  search three_desserts = Normal desserts
  /\ exists sl',
       performSearch_ desserts = Normal sl'
       /\ s_searchTerms (s_ sl') = [] /\ s_filters (s_ sl') = []
       /\ s_threshold (s_ sl') = 0
       /\ In (mkMatch (KIndex 0) 0 "") (s_allItems (s_ sl'))
       /\ In (mkMatch (KIndex 0) 0 "") (matches_array (s_ sl')).
Proof.
  split; [reflexivity|].
  eexists. split; [reflexivity|]. cbn. repeat split; left; reflexivity.
Qed.


(** C3 at [search(['apple pie', 'banana split', 'apple tart'])]. *)
Lemma unconstrained_everything_matches_witness :
  Reachable stable_sort desserts
  /\ unconstrained desserts
  /\ o_customSort (o_ desserts) = None
  /\ (exists sl',
         performSearch_ desserts = Normal sl'
         /\ s_allItems (s_ sl') = map emptyMatch_ [KIndex 0; KIndex 1; KIndex 2]
         /\ matches_array (s_ sl') = s_allItems (s_ sl')
         /\ s_partial (s_ sl') = [])
  /\ exists s1 o1 s2 o2,
       get_matches stable_sort desserts = Normal (s1, o1)
       /\ get_allItems stable_sort desserts = Normal (s2, o2)
       /\ o1 = o2.
Proof.
  split; [exact desserts_Reachable|]. split; [split; reflexivity|].
  split; [reflexivity|].
  destruct (unconstrained_everything_matches stable_sort stable_sort_permutes
              desserts desserts_Reachable (conj eq_refl eq_refl))
    as [Hpass Hreads].
  split; [exact Hpass|].
  assert (H1 : exists s1 o1, get_matches stable_sort desserts = Normal (s1, o1))
    by (do 2 eexists; vm_compute; reflexivity).
  assert (H2 : exists s2 o2, get_allItems stable_sort desserts = Normal (s2, o2))
    by (do 2 eexists; vm_compute; reflexivity).
  destruct H1 as (s1 & o1 & H1). destruct H2 as (s2 & o2 & H2).
  exists s1, o1, s2, o2. split; [exact H1|]. split; [exact H2|].
  exact (proj1 (Hreads eq_refl) ViewMatches ViewAllItems s1 o1 s2 o2 H1 H2).
Defined.

(** C3 as stated fails under a comparator of the caller's: each accessor
    sorts the array it is about to return, so on
    [search(['a', 'b']).sortUsing(always_before)], where nothing constrains
    the search, [matches] returns the items reversed and [allMatches],
    which sorts its own copy once more, returns them in their first order. *)
Lemma comparator_breaks_accessor_agreement :
  use stable_sort (VArr [VStr "a"; VStr "b"]) [CallSortUsing (Some always_before)]
  = Normal pair_reversed
  /\ unconstrained pair_reversed
  /\ exists s1 o1 s2 o2,
       get_matches stable_sort pair_reversed = Normal (s1, o1)
       /\ get_allMatches stable_sort s1 = Normal (s2, o2)
       /\ snapshot s1 o1 = VArr [VStr "b"; VStr "a"]
       /\ snapshot s2 o2 = VArr [VStr "a"; VStr "b"]
       /\ o1 <> o2.
Proof.
  split; [reflexivity|]. split; [split; reflexivity|].
  do 4 eexists. split; [vm_compute; reflexivity|].
  split; [vm_compute; reflexivity|].
  split; [reflexivity|]. split; [reflexivity|]. discriminate.
Qed.

(** C4 at [search([...]).for('apple')]: three match records, and the item
    under key 1, which has no ['apple'], is in one bucket. *)
Lemma classification_partitions_collection_witness :
  Reachable stable_sort apples
  /\ performSearch_ apples = Normal apples_searched
  /\ List.length (s_allItems (s_ apples_searched)) = 3%nat
  /\ bucket_count apples_searched (KIndex 1) = 1%nat
  /\ scorable (s_collection (s_ apples))
  /\ Convertible apples
  /\ exists sl', performSearch_ apples = Normal sl'.
Proof.
  split; [exact apples_Reachable|]. split; [reflexivity|].
  destruct (classification_partitions_collection stable_sort
              stable_sort_permutes apples apples_Reachable)
    as [Hpartition Hreturns].
  destruct (Hpartition apples_searched eq_refl) as (Hlength & _ & Hbuckets).
  split; [exact Hlength|].
  split; [apply Hbuckets; right; left; reflexivity|].
  assert (Hs : scorable (s_collection (s_ apples))).
  { intros e He. cbn in He. destruct He as [<- | [<- | [<- | []]]]; reflexivity. }
  assert (Hq : Convertible apples).
  { constructor.
    - intros e v He Hv. cbn in He.
      destruct He as [<- | [<- | [<- | []]]]; destruct Hv.
    - intros k [].
    - intros f []. }
  split; [exact Hs|]. split; [exact Hq|]. exact (Hreturns Hs Hq).
Defined.



(** C8 as stated fails when an item is an array and injection is enabled:
    on [search([['a']]).withStats()] the first read of [matches] returns the
    item with one metadata element appended, the second with two, and the
    stored item differs between the reads. *)
Lemma repeated_read_appends_stats :
  use stable_sort (VArr [VArr [VStr "a"]]) [CallWithStats VUndefined]
  = Normal nested_with_stats
  /\ exists s1 o1 s2 o2,
       get_matches stable_sort nested_with_stats = Normal (s1, o1)
       /\ get_matches stable_sort s1 = Normal (s2, o2)
       /\ snapshot s1 o1
          = VArr [VArr [VStr "a"; stats (mkMatch (KIndex 0) 0 "")]]
       /\ snapshot s2 o2
          = VArr [VArr [VStr "a"; stats (mkMatch (KIndex 0) 0 "");
                        stats (mkMatch (KIndex 0) 0 "")]]
       /\ s_collection (s_ s1) <> s_collection (s_ s2).
Proof.
  split; [reflexivity|].
  do 4 eexists. split; [vm_compute; reflexivity|].
  split; [vm_compute; reflexivity|].
  split; [reflexivity|]. split; [reflexivity|]. discriminate.
Qed.

(** C8 at [search([{n: 1}]).withStats()]: the item is a plain object. *)
Lemma repeated_read_is_stable_witness :
  Reachable stable_sort record_with_stats
  /\ get_matches stable_sort record_with_stats
     = Normal (record_read_once, OutArray [KIndex 0])
  /\ get_matches stable_sort record_read_once
     = Normal (record_read_once, OutArray [KIndex 0]).
Proof.
  split; [exact record_with_stats_Reachable|].
  assert (Hfirst : get_matches stable_sort record_with_stats
                   = Normal (record_read_once, OutArray [KIndex 0]))
    by (vm_compute; reflexivity).
  split; [exact Hfirst|].
  destruct (repeated_read_is_stable stable_sort stable_sort_permutes
              record_with_stats record_read_once (OutArray [KIndex 0])
              record_with_stats_Reachable Hfirst)
    as (s2 & o2 & Hsecond & -> & _ & _ & ->).
  - right. intros m [<- | []]. reflexivity.
  - exact Hsecond.
Defined.

(** C10 at [search([{n: 0}]).in('n')], against the item [{}]. *)
Lemma falsy_property_reads_as_missing_witness :
  s_keys (s_ zero_in_n) = [VStr "n"]
  /\ get (VObj [("n", VNum 0)]) (VStr "n") = Normal (VNum 0)
  /\ get (VObj []) (VStr "n") = Normal VUndefined
  /\ subject_of zero_in_n (VObj [("n", VNum 0)]) = subject_of zero_in_n (VObj [])
  /\ subject_of zero_in_n (VObj [("n", VNum 0)]) = Normal "".
Proof.
  split; [reflexivity|]. split; [reflexivity|]. split; [reflexivity|].
  destruct (falsy_property_reads_as_missing zero_in_n
              (VObj [("n", VNum 0)]) (VObj []) (VStr "n") (VNum 0))
    as (_ & _ & _ & Hsame & Hempty & _).
  - discriminate.
  - discriminate.
  - discriminate.
  - reflexivity.
  - left. reflexivity.
  - reflexivity.
  - intros k [<- | []] Hne. contradiction.
  - split; [exact Hsame|]. apply Hempty. reflexivity.
Defined.


(** * Further properties of the program *)

(** ** Strings of the host *)

Lemma lower_char_idem c : lower_char (lower_char c) = lower_char c.
Proof. destruct c as [[] [] [] [] [] [] [] []]; reflexivity. Qed.

Lemma lower_char_space c : is_space (lower_char c) = is_space c.
Proof. destruct c as [[] [] [] [] [] [] [] []]; reflexivity. Qed.

Lemma toLowerCase_idem s : toLowerCase (toLowerCase s) = toLowerCase s.
Proof.
  induction s as [|c s IH]; cbn; [reflexivity|].
  now rewrite lower_char_idem, IH.
Qed.

Lemma toLowerCase_empty s : (toLowerCase s =? "")%string = (s =? "")%string.
Proof. destruct s; reflexivity. Qed.

Lemma trim_start_lower s : trim_start (toLowerCase s) = toLowerCase (trim_start s).
Proof.
  induction s as [|c s IH]; cbn; [reflexivity|].
  rewrite lower_char_space. destruct (is_space c); [exact IH | reflexivity].
Qed.

Lemma trim_end_lower s : trim_end (toLowerCase s) = toLowerCase (trim_end s).
Proof.
  induction s as [|c s IH]; cbn; [reflexivity|].
  rewrite lower_char_space, IH, toLowerCase_empty.
  destruct (is_space c && (trim_end s =? "")%string); reflexivity.
Qed.

Lemma trim_lower s : trim (toLowerCase s) = toLowerCase (trim s).
Proof. unfold trim. now rewrite trim_start_lower, trim_end_lower. Qed.

Lemma trim_end_idem s : trim_end (trim_end s) = trim_end s.
Proof.
  induction s as [|c s IH]; cbn; [reflexivity|].
  destruct (is_space c && (trim_end s =? "")%string) eqn:E; cbn; [reflexivity|].
  rewrite IH, E. reflexivity.
Qed.

Lemma trim_start_head s :
  trim_start s = "" \/ exists c r, trim_start s = String c r /\ is_space c = false.
Proof.
  induction s as [|c s IH]; cbn; [now left|].
  destruct (is_space c) eqn:E; [exact IH|]. right. now exists c, s.
Qed.

Lemma trim_idem s : trim (trim s) = trim s.
Proof.
  unfold trim.
  destruct (trim_start_head s) as [-> | (c & r & -> & Hc)]; [reflexivity|].
  cbn. rewrite Hc. cbn. rewrite Hc. cbn. rewrite Hc. cbn. now rewrite trim_end_idem.
Qed.

Lemma append_empty_r s : s ++ "" = s.
Proof. induction s as [|c s IH]; cbn; [reflexivity | now rewrite IH]. Qed.

Lemma append_assoc_char a c b : (a ++ String c "") ++ b = a ++ String c b.
Proof. induction a as [|d a IH]; cbn; [reflexivity | now rewrite IH]. Qed.

Lemma list_ascii_app a b :
  list_ascii_of_string (a ++ b) = (list_ascii_of_string a ++ list_ascii_of_string b)%list.
Proof. induction a as [|c a IH]; cbn; [reflexivity | now rewrite IH]. Qed.

Lemma prefix_space c s :
  String.prefix " " (String c s) = Ascii.eqb c " ".
Proof.
  change (String.prefix " " (String c s))
    with (if ascii_dec " " c then String.prefix "" s else false).
  destruct (ascii_dec " " c) as [<- | Hne].
  - now destruct s.
  - symmetry. apply Ascii.eqb_neq. congruence.
Qed.

(** Cutting at single spaces loses nothing but the spaces. *)
Lemma split_from_space_concat cur s :
  String.concat " " (split_from " " 0 cur s) = cur ++ s.
Proof.
  revert cur. induction s as [|c s IH]; intros cur.
  - cbn. now rewrite append_empty_r.
  - cbn [split_from]. rewrite prefix_space.
    destruct (Ascii.eqb_spec c " ") as [-> | Hne].
    + cbn [String.length Nat.sub].
      specialize (IH ""). cbn [append] in IH.
      destruct (split_from " " 0 "" s) eqn:E.
      * now apply split_from_nonempty in E.
      * cbn [String.concat]. cbn [String.concat] in IH. now rewrite IH.
    + rewrite IH. apply append_assoc_char.
Qed.

Lemma split_from_space_pieces cur s t :
  ~ In " "%char (list_ascii_of_string cur) ->
  In t (split_from " " 0 cur s) ->
  ~ In " "%char (list_ascii_of_string t).
Proof.
  revert cur. induction s as [|c s IH]; intros cur Hcur.
  - cbn. intros [<- | []]. exact Hcur.
  - cbn [split_from]. rewrite prefix_space.
    destruct (Ascii.eqb_spec c " ") as [-> | Hne].
    + cbn [String.length Nat.sub]. intros [<- | Hin]; [exact Hcur|].
      apply (IH ""); [cbn; tauto | exact Hin].
    + apply IH. rewrite list_ascii_app. cbn. intros Hin.
      apply in_app_or in Hin. destruct Hin as [Hin | [Heq | []]]; [tauto|].
      congruence.
Qed.

(** ** Search terms *)

(** X1: [updateConstraints_] cuts the search text, lower-cased unless case is
    compared, at every single space: joined by single spaces the terms give
    the text back, no term holds a space, and there is no term exactly when
    the text is empty. *)
Theorem searchTerms_rejoin_to_searchText :
  forall sl : Instance,
    s_ready (s_ sl) = false ->
    let u := updateConstraints_ sl in
    let text := if o_case (o_ sl)
                then s_searchText (s_ sl)
                else toLowerCase (s_searchText (s_ sl)) in
    String.concat " " (s_searchTerms (s_ u)) = text
    /\ (s_searchTerms (s_ u) = [] <-> s_searchText (s_ sl) = "")
    /\ forall t, In t (s_searchTerms (s_ u)) ->
                 ~ In " "%char (list_ascii_of_string t).
Proof.
  intros [s o] Hready. cbn in Hready. unfold updateConstraints_. cbn.
  rewrite Hready. cbn.
  destruct (String.eqb_spec (s_searchText s) "") as [E | E].
  - rewrite E. cbn. repeat split; auto. now destruct (o_case o).
  - unfold split. cbn.
    repeat split.
    + apply split_from_space_concat.
    + intros H. now apply split_from_nonempty in H.
    + intros H. contradiction.
    + intros t Hin. revert Hin. apply split_from_space_pieces. cbn. tauto.
Qed.

(** ** Scoring *)

Lemma split_length_positive subject term :
  (subject <> "" \/ term <> "") -> (1 <= List.length (split subject term))%nat.
Proof.
  intros H. destruct term as [|c term].
  - destruct subject as [|d subject]; [destruct H; congruence|]. cbn. lia.
  - unfold split.
    destruct (split_from (String c term) 0 "" subject) eqn:E.
    + now apply split_from_nonempty in E.
    + cbn. lia.
Qed.

(** X2: [search_] lowers the relevance of a match only when the subject and
    the term are both empty: the empty string splits into no piece at all,
    so the count is -1 and, being non-zero, is added. *)
Theorem search_lowers_relevance_only_on_empty_input :
  forall (m : Match) (subject term : string),
    (m_relevance (search_ m subject term) < m_relevance m
     <-> subject = "" /\ term = "")
    /\ search_ m "" "" = mkMatch (m_key m) (m_relevance m - 1) (m_missing m).
Proof.
  intros m subject term. split; [|reflexivity]. split.
  - intros Hlt.
    destruct subject as [|c subject]; destruct term as [|d term];
      [tauto | | |];
      exfalso; revert Hlt; unfold search_;
      match goal with
      | |- context [split ?a ?b] =>
          pose proof (split_length_positive a b) as Hpos
      end;
      (destruct (negb _); cbn [m_relevance]; [|lia]);
      intros Hlt;
      (assert (Hne : forall (c : ascii) (s : string), String c s <> "")
         by (intros; discriminate));
      specialize (Hpos ltac:(first [left; apply Hne | right; apply Hne])); lia.
  - intros [-> ->]. cbn. lia.
Qed.

Lemma fold_filter_text s fs m :
  fold_c (filter_ (VStr s)) fs m = Normal m.
Proof. induction fs as [|f fs IH]; cbn; [reflexivity | exact IH]. Qed.

(** X3: the score of a text item is its search-term count alone: filters are
    skipped for a string and the restricted keys are not consulted, so its
    match is the empty match with every term counted in the item itself,
    lower-cased unless case is compared. *)
Theorem text_items_are_scored_by_terms_alone :
  forall (sl : Instance) (s : string) (key : Key),
    score sl (VStr s) key
    = Normal (fold_left
                (fun m term =>
                   search_ m (if o_case (o_ sl) then s else toLowerCase s) term)
                (s_searchTerms (s_ sl)) (emptyMatch_ key)).
Proof.
  intros sl s key. unfold score. rewrite fold_filter_text.
  cbn. now destruct (o_case (o_ sl)).
Qed.

(** X4: while case is ignored, a text item and its lower-cased form get the
    same match. *)
Theorem case_of_text_item_is_ignored :
  forall (sl : Instance) (s : string) (key : Key),
    o_case (o_ sl) = false ->
    score sl (VStr s) key = score sl (VStr (toLowerCase s)) key.
Proof.
  intros sl s key Hcase. unfold score. rewrite !fold_filter_text.
  cbn. rewrite Hcase. cbn. now rewrite toLowerCase_idem.
Qed.

(** Scoring reads the filters, the restricted keys, the search terms and the
    case option, and nothing else of the instance. *)
Lemma score_ext a b item key :
  s_filters (s_ a) = s_filters (s_ b) ->
  s_keys (s_ a) = s_keys (s_ b) ->
  s_searchTerms (s_ a) = s_searchTerms (s_ b) ->
  o_case (o_ a) = o_case (o_ b) ->
  score a item key = score b item key.
Proof.
  intros Hf Hk Ht Hc. unfold score, subject_of. now rewrite Hf, Hk, Ht, Hc.
Qed.

Lemma pass_scores_ext a b :
  s_filters (s_ a) = s_filters (s_ b) ->
  s_keys (s_ a) = s_keys (s_ b) ->
  s_searchTerms (s_ a) = s_searchTerms (s_ b) ->
  o_case (o_ a) = o_case (o_ b) ->
  s_collection (s_ a) = s_collection (s_ b) ->
  pass_scores a = pass_scores b.
Proof.
  intros Hf Hk Ht Hc Hcoll. unfold pass_scores. rewrite Hcoll.
  apply map_c_ext. intros e _. now apply score_ext.
Qed.

Lemma pass_scores_searchText text sl :
  pass_scores (on_s (set_searchText text) sl) = pass_scores sl.
Proof. destruct sl as [[] o]. apply pass_scores_ext; reflexivity. Qed.

(** X5: while case is ignored, [.for(text)] and [.for(text.toLowerCase())]
    lead to the same search terms and to the same outcome of a search -
    the same three arrays, or the same exception - the stored search text
    apart. *)
Theorem case_of_search_text_is_ignored :
  forall (sl a b : Instance) (text : string),
    o_case (o_ sl) = false ->
    for_ sl (VStr text) = Normal a ->
    for_ sl (VStr (toLowerCase text)) = Normal b ->
    s_searchTerms (s_ (updateConstraints_ a))
    = s_searchTerms (s_ (updateConstraints_ b))
    /\ performSearch_ b
       = (r <- performSearch_ a ;;
          Normal (on_s (set_searchText (s_searchText (s_ b))) r)).
Proof.
  intros sl a b text Hcase Ha Hb.
  unfold for_, and_ in Ha, Hb. cbn in Ha, Hb.
  injection Ha as <-. injection Hb as <-.
  assert (Etext : trim_end (trim_start (toLowerCase text))
                  = toLowerCase (trim_end (trim_start text))).
  { now rewrite trim_start_lower, trim_end_lower. }
  match goal with
  | |- context [performSearch_ ?y = bind (performSearch_ ?x) _] =>
      set (a := x); set (b := y)
  end.
  assert (Eu : updateConstraints_ b
               = on_s (set_searchText (s_searchText (s_ b))) (updateConstraints_ a)).
  { subst a b. destruct sl as [[] o]. cbn in Hcase.
    unfold updateConstraints_. cbn.
    rewrite Hcase, Etext, toLowerCase_idem, toLowerCase_empty.
    destruct (trim_end (trim_start text) =? "")%string;
      unfold on_s; cbn; rewrite ?Etext; reflexivity. }
  split.
  { rewrite Eu. now destruct (updateConstraints_ a) as [[] o]. }
  rewrite !performSearch_eq. cbv zeta. unfold isConstrained. cbn [snd].
  rewrite Eu. rewrite pass_scores_searchText.
  destruct (updateConstraints_ a) as [[] o]. cbn [s_ o_ on_s s_searchTerms
    s_filters set_searchText s_threshold s_collection].
  match goal with |- context [if ?c then _ else _] => destruct c end.
  - destruct (pass_scores _); reflexivity.
  - reflexivity.
Qed.

(** ** Filters *)

Lemma add_result_false m : add_result m false = m.
Proof.
  destruct m as [k r mis]. unfold add_result. cbn. now rewrite Z.add_0_r.
Qed.

(** A filter adds 0 or 1 to the relevance and touches nothing else. *)
Lemma filter_adds item m f m' :
  filter_ item m f = Normal m' -> exists b, m' = add_result m b.
Proof.
  unfold filter_. intros H.
  repeat match type of H with
         | (if ?c then _ else _) = _ => destruct c
         | bind ?g _ = _ => destruct g; cbn [bind] in H
         end;
    try discriminate;
    injection H as <-;
    first [ eexists; reflexivity | exists false; symmetry; apply add_result_false ].
Qed.

(** Whether a filter adds 1 does not depend on the match it is added to. *)
Lemma filter_passes_any item m f m' m0 :
  filter_ item m f = Normal m' ->
  m_relevance m' = m_relevance m + 1 ->
  filter_ item m0 f = Normal (add_result m0 true).
Proof.
  unfold filter_. intros H Hrel.
  repeat match type of H with
         | (if ?c then _ else _) = _ => destruct c
         | bind ?g _ = _ => destruct g; cbn [bind] in H |- *
         end;
    try discriminate;
    injection H as <-;
    cbn [bind];
    try (exfalso; lia);
    match goal with
    | |- context [add_result m0 ?b] =>
        destruct b; [reflexivity | cbn in Hrel; exfalso; lia]
    end.
Qed.

Lemma fold_filter_bounds item fs m m' :
  fold_c (filter_ item) fs m = Normal m' ->
  m_relevance m <= m_relevance m' <= m_relevance m + Z.of_nat (List.length fs)
  /\ m_missing m' = m_missing m.
Proof.
  revert m. induction fs as [|f fs IH]; intros m H.
  - cbn in H. injection H as <-. cbn. split; [lia | reflexivity].
  - cbn [fold_c] in H. destruct (filter_ item m f) as [m1|] eqn:E; [|discriminate].
    cbn [bind] in H. apply IH in H. apply filter_adds in E. destruct E as [b ->].
    cbn [List.length]. rewrite Nat2Z.inj_succ.
    destruct H as [Hrel Hmis]. split; [|exact Hmis].
    destruct b; cbn in Hrel |- *; lia.
Qed.

Lemma fold_filter_all item fs m m' :
  fold_c (filter_ item) fs m = Normal m' ->
  m_relevance m' = m_relevance m + Z.of_nat (List.length fs) ->
  forall f m0, In f fs -> filter_ item m0 f = Normal (add_result m0 true).
Proof.
  revert m. induction fs as [|f fs IH]; intros m H Hrel g m0 Hin; [contradiction|].
  cbn [fold_c] in H. destruct (filter_ item m f) as [m1|] eqn:E; [|discriminate].
  cbn [bind] in H.
  pose proof (fold_filter_bounds _ _ _ _ H) as [Hb _].
  pose proof (filter_adds _ _ _ _ E) as [b Hm1].
  cbn [List.length] in Hrel. rewrite Nat2Z.inj_succ in Hrel.
  assert (Hb1 : m_relevance m1 = m_relevance m + 1).
  { subst m1. destruct b; cbn in Hb |- *; lia. }
  destruct Hin as [<- | Hin].
  - eapply filter_passes_any; eassumption.
  - eapply IH; [exact H | lia | exact Hin].
Qed.

Lemma filter_unknown item m f :
  known_operator (f_operator f) = false -> filter_ item m f = Normal m.
Proof.
  unfold known_operator, known_operators. cbn [existsb]. intros H.
  repeat (apply orb_false_elim in H; destruct H as [? H]).
  unfold filter_. destruct (negb _); [|reflexivity].
  repeat match goal with
         | E : strict_eq _ _ = false |- _ => rewrite E; clear E
         end.
  reflexivity.
Qed.

(** ** What a pass stores is what scoring computed *)

Lemma map_c_In {A B} (f : A -> completion B) l ys y :
  map_c f l = Normal ys -> In y ys -> exists x, In x l /\ f x = Normal y.
Proof.
  revert ys. induction l as [|x l IH]; intros ys H Hin.
  - cbn in H. injection H as <-. contradiction.
  - cbn in H. destruct (f x) as [y0|] eqn:E; [|discriminate]. cbn in H.
    destruct (map_c f l) as [ys0|]; [|discriminate]. cbn in H.
    injection H as <-. destruct Hin as [<- | Hin].
    + exists x. split; [now left | exact E].
    + destruct (IH ys0 eq_refl Hin) as (x' & Hx' & Hf). exists x'. split; [now right | exact Hf].
Qed.

Lemma map_c_each {A B} (f : A -> completion B) l ys x :
  map_c f l = Normal ys -> In x l -> exists y, f x = Normal y.
Proof.
  revert ys. induction l as [|x0 l IH]; intros ys H Hin; [contradiction|].
  cbn in H. destruct (f x0) as [y0|] eqn:E; [|discriminate]. cbn in H.
  destruct (map_c f l) as [ys0|]; [|discriminate].
  destruct Hin as [<- | Hin]; [eauto | eapply IH; eauto].
Qed.

Lemma map_get_In k v m :
  NoDup (map fst m) -> In (k, v) m -> map_get k m = Some v.
Proof.
  induction m as [|[k' v'] m IH]; intros Hnd Hin; [contradiction|].
  cbn in Hnd. inversion Hnd as [|? ? Hnotin Hnd']; subst. cbn.
  destruct Hin as [E | Hin].
  - injection E as -> ->. now rewrite key_eqb_refl.
  - destruct (key_eqb k' k) eqn:E.
    + apply key_eqb_eq in E. subst k'. exfalso. apply Hnotin.
      now apply (in_map fst) in Hin.
    + now apply IH.
Qed.

(** After a constrained pass every stored match is the score of the item
    it names. *)
Lemma performSearch_scored sl sl' m :
  Inv sl -> performSearch_ sl = Normal sl' ->
  s_searchTerms (s_ sl') <> [] \/ s_filters (s_ sl') <> [] ->
  In m (s_allItems (s_ sl')) ->
  score sl' (getItem_ sl' m) (m_key m) = Normal m.
Proof.
  intros HI H Hcon Hin. rewrite performSearch_eq in H. cbv zeta in H.
  unfold isConstrained in H. cbn [snd] in H.
  pose proof (updateConstraints_Inv _ HI) as HU.
  set (u := updateConstraints_ sl) in *. clearbody u.
  destruct HU as [HK _ _ _ _ _ _ _].
  destruct (_ || _) eqn:Hc.
  - destruct (pass_scores u) as [ms|e] eqn:Hms; cbn [bind] in H; [|discriminate].
    injection H as <-.
    assert (Hin' : In m ms) by (destruct u as [[] o]; exact Hin).
    unfold pass_scores in Hms.
    destruct (map_c_In _ _ _ _ Hms Hin') as ([k item] & He & Hs). cbn in Hs.
    pose proof (score_key _ _ _ _ Hs) as Hk.
    assert (Hitem : getItem_ u m = item).
    { unfold getItem_, item_of. rewrite Hk. now rewrite (map_get_In _ _ _ HK He). }
    replace (getItem_ _ m) with item by (destruct u as [[] o]; exact (eq_sym Hitem)).
    rewrite Hk. rewrite <- Hs. destruct u as [[] o]. apply score_ext; reflexivity.
  - injection H as <-. exfalso.
    destruct u as [[? ? ? ? terms ? filters ? ? ? ? ? ? ? ? ? ?] o]. cbn in *.
    destruct terms; [|discriminate]. destruct filters; [|discriminate].
    destruct Hcon as [Hcon | Hcon]; now apply Hcon.
Qed.

Lemma filter_none {A} (p : A -> bool) l :
  (forall x, In x l -> p x = false) -> filter p l = [].
Proof.
  induction l as [|x l IH]; intros H; [reflexivity|].
  cbn. rewrite (H x (or_introl eq_refl)). apply IH. intros y Hy. apply H. now right.
Qed.

Lemma fold_search_nonneg subject terms m :
  ~ In "" terms ->
  m_relevance m
  <= m_relevance (fold_left (fun m t => search_ m subject t) terms m).
Proof.
  revert m. induction terms as [|t terms IH]; intros m Hne; cbn; [lia|].
  etransitivity; [|apply IH; intros Hin; apply Hne; now right].
  assert (Ht : t <> "") by (intros ->; apply Hne; now left).
  pose proof (split_length_positive subject t (or_intror Ht)).
  unfold search_. destruct (negb _); cbn; lia.
Qed.

Section Searches.

Variable array_sort : (Match -> Match -> value) -> list Match -> list Match.

Hypothesis array_sort_permutes :
  forall comparefn a, Permutation (array_sort comparefn a) a.

(** X6: with filters as the only constraints, a full match is an item that
    every filter adds 1 for, its relevance being the number of filters, and a
    partial match has a relevance strictly between 0 and that number. *)
Theorem filters_only_full_match_passes_every_filter :
  forall sl sl' : Instance,
    Reachable array_sort sl ->
    performSearch_ sl = Normal sl' ->
    s_searchTerms (s_ sl') = [] ->
    (forall m, In m (matches_array (s_ sl')) ->
       m_relevance m = Z.of_nat (List.length (s_filters (s_ sl')))
       /\ forall f m0, In f (s_filters (s_ sl')) ->
            filter_ (getItem_ sl' m) m0 f = Normal (add_result m0 true))
    /\ (forall m, In m (s_partial (s_ sl')) ->
          0 < m_relevance m < Z.of_nat (List.length (s_filters (s_ sl')))).
Proof.
  intros sl sl' HR H Hterms.
  pose proof (Reachable_Inv _ array_sort_permutes _ HR) as HI.
  pose proof (performSearch_result _ _ HI H) as (Hthr & Hbase & _ & _ & Hcase).
  cbv zeta in Hthr, Hcase. rewrite Hbase, Hterms in Hthr. cbn in Hthr.
  rewrite Z.add_0_r in Hthr.
  assert (Hscore : forall m, In m (s_allItems (s_ sl')) ->
                     s_filters (s_ sl') <> [] ->
                     fold_c (filter_ (getItem_ sl' m)) (s_filters (s_ sl'))
                            (mkMatch (m_key m) 0 "") = Normal m).
  { intros m Hm Hf.
    pose proof (performSearch_scored _ _ m HI H (or_intror Hf) Hm) as Hs.
    unfold score in Hs. rewrite Hterms in Hs.
    destruct (fold_c _ _ _) as [scored|]; [|discriminate]. cbn [bind] in Hs.
    destruct (subject_of _ _); [|discriminate]. cbn in Hs. exact Hs. }
  destruct Hcase as [(Hcon & Hfull & Hpart) | (_ & Hnof & Hall & Hfull & Hpart)].
  - assert (Hf : s_filters (s_ sl') <> []) by (destruct Hcon; congruence).
    rewrite Hfull, Hpart, Hthr. split.
    + intros m Hm. apply filter_In in Hm. destruct Hm as [Hm Hfl].
      pose proof (Hscore m Hm Hf) as Hs.
      pose proof (fold_filter_bounds _ _ _ _ Hs) as [Hb _]. cbn in Hb.
      unfold is_full in Hfl. apply andb_true_iff in Hfl. destruct Hfl as [_ Hge].
      apply negb_true_iff, Z.ltb_ge in Hge.
      assert (Hrel : m_relevance m = Z.of_nat (List.length (s_filters (s_ sl'))))
        by lia.
      split; [exact Hrel|]. intros f m0 Hin.
      eapply fold_filter_all; [exact Hs | cbn; lia | exact Hin].
    + intros m Hm. apply filter_In in Hm. destruct Hm as [Hm Hp].
      pose proof (Hscore m Hm Hf) as Hs.
      pose proof (fold_filter_bounds _ _ _ _ Hs) as [Hb _]. cbn in Hb.
      unfold is_partial in Hp. apply andb_true_iff in Hp. destruct Hp as [Hnz Hlt].
      apply negb_true_iff, Z.eqb_neq in Hnz. apply Z.ltb_lt in Hlt. lia.
  - rewrite Hnof, Hpart, Hfull, Hall. split.
    + intros m Hm. apply in_map_iff in Hm. destruct Hm as (k & <- & _).
      split; [reflexivity | intros f m0 []].
    + intros m [].
Qed.

(** X7: a filter whose operator is none of the eight the [switch] knows adds
    nothing to any item and still counts towards the threshold: with such a
    filter and no search term, no item is a full match. *)
Theorem unknown_operator_excludes_every_item :
  forall (sl sl' : Instance) (f : Filter),
    Reachable array_sort sl ->
    performSearch_ sl = Normal sl' ->
    s_searchTerms (s_ sl') = [] ->
    In f (s_filters (s_ sl')) ->
    known_operator (f_operator f) = false ->
    matches_array (s_ sl') = [].
Proof.
  intros sl sl' f HR H Hterms Hf Hunknown.
  pose proof (Reachable_Inv _ array_sort_permutes _ HR) as HI.
  pose proof (performSearch_result _ _ HI H) as (Hthr & Hbase & _ & _ & Hcase).
  cbv zeta in Hthr, Hcase. rewrite Hbase, Hterms in Hthr. cbn in Hthr.
  rewrite Z.add_0_r in Hthr.
  destruct Hcase as [(Hcon & Hfull & _) | (_ & Hnof & _)];
    [|rewrite Hnof in Hf; contradiction].
  rewrite Hfull. apply filter_none. intros m Hm.
  destruct (is_full _ m) eqn:Hfl; [exfalso | reflexivity].
  pose proof (performSearch_scored _ _ m HI H Hcon Hm) as Hs.
  unfold score in Hs. rewrite Hterms in Hs.
  destruct (fold_c _ _ _) as [scored|] eqn:Hfold; [|discriminate]. cbn [bind] in Hs.
  destruct (subject_of _ _); [|discriminate]. cbn in Hs. injection Hs as ->.
  pose proof (fold_filter_bounds _ _ _ _ Hfold) as [Hb _]. cbn in Hb.
  unfold is_full in Hfl. apply andb_true_iff in Hfl. destruct Hfl as [_ Hge].
  apply negb_true_iff, Z.ltb_ge in Hge.
  assert (Hpass : filter_ (getItem_ sl' m) m f = Normal (add_result m true)).
  { eapply fold_filter_all; [exact Hfold | cbn; lia | exact Hf]. }
  rewrite (filter_unknown _ _ _ Hunknown) in Hpass.
  injection Hpass as Hpass. apply (f_equal m_relevance) in Hpass. cbn in Hpass. lia.
Qed.

(** X8: with search terms as the only constraints and no empty term among
    them, no relevance is negative and no item is a partial match. *)
Theorem text_only_search_has_no_partial_match :
  forall sl sl' : Instance,
    Reachable array_sort sl ->
    performSearch_ sl = Normal sl' ->
    s_filters (s_ sl') = [] ->
    ~ In "" (s_searchTerms (s_ sl')) ->
    s_partial (s_ sl') = []
    /\ forall m, In m (s_allItems (s_ sl')) -> 0 <= m_relevance m.
Proof.
  intros sl sl' HR H Hnof Hne.
  pose proof (Reachable_Inv _ array_sort_permutes _ HR) as HI.
  pose proof (performSearch_result _ _ HI H) as (Hthr & Hbase & _ & _ & Hcase).
  cbv zeta in Hthr, Hcase. rewrite Hbase, Hnof in Hthr. cbn in Hthr.
  destruct Hcase as [(Hcon & _ & Hpart) | (_ & _ & Hall & _ & Hpart)].
  - assert (Hrel : forall m, In m (s_allItems (s_ sl')) -> 0 <= m_relevance m).
    { intros m Hm.
      pose proof (performSearch_scored _ _ m HI H Hcon Hm) as Hs.
      unfold score in Hs. rewrite Hnof in Hs. cbn [fold_c bind] in Hs.
      destruct (subject_of _ _) as [subject|]; [|discriminate]. cbn [bind] in Hs.
      injection Hs as <-.
      match goal with
      | |- 0 <= m_relevance (fold_left _ _ ?m0) =>
          change 0 with (m_relevance m0) at 1
      end.
      apply fold_search_nonneg. exact Hne. }
    split; [|exact Hrel].
    rewrite Hpart. apply filter_none. intros m Hm. specialize (Hrel m Hm).
    unfold is_partial.
    destruct (Z.eqb_spec (m_relevance m) 0); [reflexivity|]. cbn.
    apply Z.ltb_ge. rewrite Hthr.
    destruct (0 <? _); cbn; lia.
  - split; [exact Hpart|]. rewrite Hall. intros m Hm.
    apply in_map_iff in Hm. destruct Hm as (k & <- & _). cbn. lia.
Qed.

End Searches.

(** ** Items that cannot be scored *)

Lemma converting_throws {A : Type} (operands : list value) (r : A) e :
  converting operands r = Throw e -> exists msg, e = TypeError msg.
Proof. intros H. apply converting_throw in H. subst. eexists. reflexivity. Qed.

Lemma get_throws base key e :
  get base key = Throw e -> exists msg, e = TypeError msg.
Proof.
  unfold get. intros H. destruct (is_nullish base).
  - injection H as <-. eauto.
  - eapply converting_throws; eassumption.
Qed.

Lemma get_nullish base key :
  is_nullish base = true -> exists msg, get base key = Throw (TypeError msg).
Proof. intros H. unfold get. rewrite H. eauto. Qed.

Lemma loose_eq_c_throws a b e :
  loose_eq_c a b = Throw e -> exists msg, e = TypeError msg.
Proof.
  unfold loose_eq_c. destruct (_ || _); [discriminate|].
  apply converting_throws.
Qed.

Lemma filter_throws item m f e :
  filter_ item m f = Throw e -> exists msg, e = TypeError msg.
Proof.
  unfold filter_. intros H.
  repeat match type of H with
         | (if ?c then _ else _) = _ => destruct c
         | bind ?g _ = _ => destruct g eqn:?; cbn [bind] in H
         end;
    try discriminate;
    injection H as <-;
    first [ eapply get_throws; eassumption
          | eapply loose_eq_c_throws; eassumption
          | eapply converting_throws; eassumption ].
Qed.

Lemma fold_c_throws {A B} (f : B -> A -> completion B) (P : error -> Prop) l b e :
  (forall b x e, f b x = Throw e -> P e) ->
  fold_c f l b = Throw e -> P e.
Proof.
  intros Hf. revert b. induction l as [|x l IH]; intros b H; [discriminate|].
  cbn in H. destruct (f b x) eqn:E; cbn in H; [eapply IH; eauto|].
  injection H as <-. eapply Hf; eauto.
Qed.

Lemma map_c_throws {A B} (f : A -> completion B) (P : error -> Prop) l e :
  (forall x e, f x = Throw e -> P e) ->
  map_c f l = Throw e -> P e.
Proof.
  intros Hf. induction l as [|x l IH]; intros H; [discriminate|].
  cbn in H. destruct (f x) eqn:E; cbn in H.
  - destruct (map_c f l); cbn in H; [discriminate|]. injection H as <-. now apply IH.
  - injection H as <-. eapply Hf; eauto.
Qed.

Lemma reduceProperties_throws item subject key e :
  reduceProperties_ item subject key = Throw e -> exists msg, e = TypeError msg.
Proof.
  unfold reduceProperties_. intros H.
  destruct (get _ _) eqn:G; cbn [bind] in H.
  - destruct (to_string_c _) eqn:T; cbn [bind] in H; [discriminate|].
    injection H as <-. eapply converting_throws. exact T.
  - injection H as <-. eapply get_throws; eauto.
Qed.

Lemma map_c_raises {A B} (f : A -> completion B) l x :
  In x l -> (exists e, f x = Throw e) -> exists e, map_c f l = Throw e.
Proof.
  intros Hin Hx. induction l as [|y l IH]; [contradiction|]. cbn.
  destruct (f y) as [b|e] eqn:Hy; cbn; [|eauto].
  destruct Hin as [-> | Hin].
  - destruct Hx as [e He]. congruence.
  - destruct (IH Hin) as [e ->]. cbn. eauto.
Qed.

Lemma subject_throws sl item e :
  subject_of sl item = Throw e -> exists msg, e = TypeError msg.
Proof.
  unfold subject_of. intros H.
  destruct (typeof item =? "string")%string; [discriminate|].
  destruct (negb _).
  - destruct (map_c _ _) eqn:E; cbn [bind] in H.
    { eapply converting_throws; eassumption. }
    injection H as <-.
    revert E. apply (map_c_throws _ (fun e => exists msg, e = TypeError msg)).
    intros k e1. unfold property_.
    destruct (get item k) eqn:G; cbn; [discriminate|].
    intros [= <-]. eapply get_throws; eauto.
  - destruct item; cbn [Js.keys bind fold_c] in H; try discriminate;
      try (injection H as <-; eauto; fail);
      try (eapply converting_throws; eassumption);
      revert H; apply (fold_c_throws _ (fun e => exists msg, e = TypeError msg));
      intros acc x e1; apply reduceProperties_throws.
Qed.

Lemma score_throws sl item key e :
  score sl item key = Throw e -> exists msg, e = TypeError msg.
Proof.
  unfold score. intros H.
  destruct (fold_c _ _ _) eqn:F; cbn [bind] in H.
  - destruct (subject_of sl item) eqn:S; cbn [bind] in H; [discriminate|].
    injection H as <-. eapply subject_throws; eauto.
  - injection H as <-. revert F.
    apply (fold_c_throws _ (fun e => exists msg, e = TypeError msg)).
    intros b x e1. apply filter_throws.
Qed.

Lemma subject_nullish sl item :
  is_nullish item = true -> exists msg, subject_of sl item = Throw (TypeError msg).
Proof.
  intros H. unfold subject_of.
  assert (Ht : (typeof item =? "string")%string = false)
    by (destruct item; try discriminate; reflexivity).
  rewrite Ht.
  destruct (s_keys (s_ sl)) as [|k ks] eqn:Hk; cbn [List.length Nat.eqb negb].
  - destruct item; try discriminate; cbn; eauto.
  - cbn [map_c]. unfold property_ at 1.
    destruct (get_nullish item k H) as [msg ->]. cbn. eauto.
Qed.

Lemma score_nullish sl item key :
  is_nullish item = true -> exists msg, score sl item key = Throw (TypeError msg).
Proof.
  intros H. unfold score.
  destruct (fold_c _ _ _) eqn:F; cbn [bind].
  - destruct (subject_nullish sl item H) as [msg ->]. cbn. eauto.
  - destruct (score_throws sl item key e) as [msg ->]; [|eauto].
    unfold score. now rewrite F.
Qed.

Lemma scorable_dec coll :
  scorable coll \/ exists e, In e coll /\ is_nullish (snd e) = true.
Proof.
  unfold scorable. induction coll as [|e coll [IH | (x & Hx & Hn)]].
  - left. intros e [].
  - destruct (is_nullish (snd e)) eqn:E.
    + right. exists e. split; [now left | exact E].
    + left. intros x [<- | Hx]; auto.
  - right. exists x. split; [now right | exact Hn].
Qed.

(** X10: an item that is not a text and lacks the filtered property passes none
    of [<], [<=], [>], [>=]: the filter adds nothing when the value converts
    to a primitive, and raises when it does not; the item passes [==] exactly
    when the value is [null] or [undefined], and [!=] otherwise. *)
Theorem missing_property_fails_relational_filters :
  forall (item key value : value) (m : Match),
    typeof item <> "string" ->
    get item key = Normal VUndefined ->
    (forall operator, In operator ["<"; "<="; ">"; ">="] ->
       filter_ item m (mkFilter key (VStr operator) value)
       = if unconvertible value then Throw conversion_error else Normal m)
    /\ filter_ item m (mkFilter key (VStr "==") value)
       = Normal (add_result m (is_nullish value))
    /\ filter_ item m (mkFilter key (VStr "!=") value)
       = Normal (add_result m (negb (is_nullish value))).
Proof.
  intros item key value m Ht Hget.
  assert (Hs : (typeof item =? "string")%string = false)
    by now apply String.eqb_neq.
  assert (Hlt : less_than VUndefined value = None).
  { unfold less_than. cbn. destruct (to_primitive value); reflexivity. }
  assert (Hgt : less_than value VUndefined = None).
  { unfold less_than. cbn. destruct (to_primitive value); cbn;
      repeat match goal with
             | |- context [match ?x with _ => _ end] => destruct x
             end; reflexivity. }
  repeat split.
  - intros operator Hin. cbn in Hin.
    destruct Hin as [<- | [<- | [<- | [<- | []]]]];
      unfold filter_; cbn; rewrite Hs, Hget; cbn [bind];
      unfold lt_c, le_c, gt_c, ge_c, converting; cbn [existsb unconvertible orb];
      rewrite orb_false_r;
      (destruct (unconvertible value); [reflexivity|]); cbn [bind];
      unfold lt, le, gt, ge; rewrite ?Hlt, ?Hgt; cbn; apply f_equal, add_result_false.
  - unfold filter_. cbn. rewrite Hs, Hget. reflexivity.
  - unfold filter_. cbn. rewrite Hs, Hget. reflexivity.
Qed.


(** ** Array indices as property keys *)

Lemma of_lu_nat_N d :
  N.of_nat (DecimalNat.Unsigned.of_lu d) = DecimalPos.Unsigned.of_lu d.
Proof.
  induction d;
    rewrite DecimalNat.Unsigned.of_lu_eqn, DecimalPos.Unsigned.of_lu_eqn;
    cbn [DecimalNat.Unsigned.hd DecimalNat.Unsigned.tl
         DecimalPos.Unsigned.hd DecimalPos.Unsigned.tl]; try lia.
  reflexivity.
Qed.

Lemma to_uint_normal n : Decimal.unorm (Nat.to_uint n) = Nat.to_uint n.
Proof.
  rewrite <- DecimalNat.Unsigned.to_of. now rewrite DecimalNat.Unsigned.of_to.
Qed.

Lemma to_int_of_nat n : Z.to_int (Z.of_nat n) = Decimal.Pos (Nat.to_uint n).
Proof.
  destruct n as [|k]; [reflexivity|].
  cbn [Z.of_nat Z.to_int]. f_equal.
  change (Pos.to_uint (Pos.of_succ_nat k)) with (N.to_uint (N.pos (Pos.of_succ_nat k))).
  rewrite <- (to_uint_normal (S k)), <- DecimalPos.Unsigned.to_of. f_equal.
  rewrite DecimalPos.Unsigned.of_uint_alt, <- of_lu_nat_N,
    <- DecimalNat.Unsigned.of_uint_alt, DecimalNat.Unsigned.of_to.
  reflexivity.
Qed.

(** An index prints the same as a number and as a property key. *)
Lemma string_of_index i : string_of_Z (Z.of_nat i) = string_of_nat i.
Proof. unfold string_of_Z, string_of_nat. now rewrite to_int_of_nat. Qed.

Lemma index_of_key_index i : index_of_key (string_of_nat i) = Some i.
Proof.
  unfold index_of_key, string_of_nat.
  assert (E : NilZero.string_of_uint (Nat.to_uint i)
              = NilEmpty.string_of_uint (Nat.to_uint i)).
  { pose proof (DecimalFacts.unorm_nonnil (Nat.to_uint i)) as Hn.
    rewrite to_uint_normal in Hn. now destruct (Nat.to_uint i). }
  rewrite E, NilEmpty.usu, DecimalNat.Unsigned.of_to, <- E.
  now rewrite String.eqb_refl.
Qed.

Lemma get_index l i :
  get (VArr l) (VNum (Z.of_nat i)) = Normal (nth i l VUndefined).
Proof.
  rewrite (get_ok (VArr l) (VNum (Z.of_nat i)) eq_refl eq_refl).
  cbn [to_string own_property].
  now rewrite string_of_index, index_of_key_index.
Qed.

(** ** A collection put in comes out again *)

Lemma map_set_fresh k v m :
  ~ In k (map fst m) -> map_set k v m = (m ++ [(k, v)])%list.
Proof.
  induction m as [|[k' v'] m IH]; intros Hnotin; [reflexivity|].
  cbn in Hnotin |- *. destruct (key_eqb k' k) eqn:E.
  - apply key_eqb_eq in E. tauto.
  - rewrite IH; [reflexivity | tauto].
Qed.

Lemma fold_map_set_fresh entries acc :
  NoDup (map fst (acc ++ entries)) ->
  fold_left (fun m e => map_set (fst e) (snd e) m) entries acc
  = (acc ++ entries)%list.
Proof.
  revert acc. induction entries as [|[k v] entries IH]; intros acc Hnd.
  - now rewrite app_nil_r.
  - cbn [fold_left fst snd].
    replace (acc ++ (k, v) :: entries)%list with ((acc ++ [(k, v)]) ++ entries)%list
      in Hnd |- * by now rewrite <- app_assoc.
    rewrite map_set_fresh; [now apply IH|].
    rewrite !map_app in Hnd. apply NoDup_app_remove_r in Hnd.
    cbn in Hnd. apply NoDup_remove_2 in Hnd. now rewrite app_nil_r in Hnd.
Qed.

Lemma new_Map_distinct entries :
  NoDup (map fst entries) -> new_Map entries = entries.
Proof. intros H. unfold new_Map. now rewrite fold_map_set_fresh. Qed.

Lemma item_of_In k v m :
  NoDup (map fst m) -> In (k, v) m -> item_of m k = v.
Proof. intros Hnd Hin. unfold item_of. now rewrite (map_get_In _ _ _ Hnd Hin). Qed.

(** The entries [collection_] builds for an array: each index with its element. *)
Lemma array_entries items idx :
  map_c (i_collection_ (VArr items)) (map KIndex idx)
  = Normal (map (fun i => (KIndex i, nth i items VUndefined)) idx).
Proof.
  induction idx as [|i idx IH]; [reflexivity|].
  cbn [map map_c]. unfold i_collection_ at 1. cbn [key_value].
  rewrite get_index. cbn [bind]. rewrite IH. reflexivity.
Qed.

Lemma NoDup_map_inj {A B} (f : A -> B) l :
  (forall a b, f a = f b -> a = b) -> NoDup l -> NoDup (map f l).
Proof.
  intros Hinj. induction 1 as [|x l Hnotin Hnd IH]; cbn; constructor; [|exact IH].
  intros Hin. apply in_map_iff in Hin. destruct Hin as (y & Hy & Hin).
  apply Hinj in Hy. now subst y.
Qed.

Lemma KIndex_NoDup idx : NoDup idx -> NoDup (map KIndex idx).
Proof. apply NoDup_map_inj. now intros a b [= ->]. Qed.

Lemma nth_seq_all {A} (l : list A) d :
  map (fun i => nth i l d) (seq 0 (List.length l)) = l.
Proof.
  induction l as [|x l IH]; [reflexivity|].
  cbn [List.length seq map nth]. f_equal.
  rewrite <- seq_shift, map_map. exact IH.
Qed.

Lemma search_array items :
  search (VArr items)
  = Normal (on_s (set_collection
                    (map (fun i => (KIndex i, nth i items VUndefined))
                         (seq 0 (List.length items))))
                 (mkInstance initial_s initial_o)).
Proof.
  unfold search, collection_. cbn [bind fst snd]. rewrite array_entries.
  cbn [bind]. rewrite new_Map_distinct; [reflexivity|].
  rewrite map_map. cbn [fst]. apply KIndex_NoDup, seq_NoDup.
Qed.

Lemma array_items_back items :
  map (item_of (map (fun i => (KIndex i, nth i items VUndefined))
                    (seq 0 (List.length items))))
      (map KIndex (seq 0 (List.length items)))
  = items.
Proof.
  rewrite map_map.
  transitivity (map (fun i => nth i items VUndefined) (seq 0 (List.length items)));
    [|apply nth_seq_all].
  apply map_ext_in. intros i Hi. apply item_of_In.
  - rewrite map_map. cbn [fst]. apply KIndex_NoDup, seq_NoDup.
  - apply in_map_iff. exists i. split; [reflexivity | exact Hi].
Qed.

(** X11: [search(items)] of an array always returns an instance, and without
    constraints [matches], [allMatches] and [allItems] give back the items
    themselves, in their order, also after [sorted()]. *)
Theorem unconstrained_search_returns_the_array :
  forall (array_sort : (Match -> Match -> value) -> list Match -> list Match)
         (items : list value),
    exists sl,
      search (VArr items) = Normal sl
      /\ forall v,
           observe (read array_sort v sl) = Normal (VArr items)
           /\ observe (read array_sort v (sorted sl)) = Normal (VArr items).
Proof.
  intros array_sort items. eexists. split; [apply search_array|].
  intros v. split; destruct v; cbn;
    rewrite ?app_nil_r, emptyMatch_keys, (map_map _ fst); cbn [fst];
    do 2 f_equal; apply array_items_back.
Qed.

Lemma assoc_In k v ps :
  NoDup (map fst ps) -> In (k, v) ps -> assoc k ps = Some v.
Proof.
  induction ps as [|[k' v'] ps IH]; intros Hnd Hin; [contradiction|].
  cbn in Hnd. inversion Hnd as [|? ? Hnotin Hnd']; subst. cbn.
  destruct Hin as [E | Hin].
  - injection E as -> ->. now rewrite String.eqb_refl.
  - destruct (String.eqb_spec k' k) as [-> | _].
    + exfalso. apply Hnotin. now apply (in_map fst) in Hin.
    + now apply IH.
Qed.

(** The entries [collection_] builds for an object: each own property. *)
Lemma object_entries props l :
  NoDup (map fst props) -> incl l props ->
  map_c (i_collection_ (VObj props)) (map KName (map fst l))
  = Normal (map (fun e => (KName (fst e), snd e)) l).
Proof.
  intros Hnd. induction l as [|[k v] l IH]; intros Hincl; [reflexivity|].
  cbn [map map_c fst snd]. unfold i_collection_ at 1. cbn [key_value].
  rewrite (get_ok (VObj props) (VStr k) eq_refl eq_refl).
  cbn [own_property to_string].
  rewrite (assoc_In k v props Hnd) by (apply Hincl; now left).
  cbn [bind]. rewrite IH by (intros e He; apply Hincl; now right). reflexivity.
Qed.

Lemma KName_NoDup names : NoDup names -> NoDup (map KName names).
Proof. apply NoDup_map_inj. now intros a b [= ->]. Qed.

Lemma search_object props :
  NoDup (map fst props) -> shadows_hasOwnProperty (VObj props) = false ->
  search (VObj props)
  = Normal (on_s (set_collection (map (fun e => (KName (fst e), snd e)) props))
                 (on_o (set_collectionType "object")
                       (mkInstance initial_s initial_o))).
Proof.
  intros Hnd Hown. unfold search, collection_.
  cbn [typeof String.eqb Js.keys bind fst snd].
  cbn. rewrite (own_keys_kept _ Hown). cbn [bind fst snd].
  rewrite (object_entries props props Hnd (incl_refl _)).
  cbn [bind]. rewrite new_Map_distinct; [reflexivity|].
  rewrite map_map. cbn [fst]. rewrite <- map_map. now apply KName_NoDup.
Qed.

Lemma entry_set_fresh name k entries :
  ~ In name (map fst entries) ->
  entry_set name k entries = (entries ++ [(name, k)])%list.
Proof.
  induction entries as [|[n' k'] entries IH]; intros Hnotin; [reflexivity|].
  cbn in Hnotin |- *. destruct (String.eqb_spec n' name) as [-> | _]; [tauto|].
  rewrite IH; [reflexivity | tauto].
Qed.

(** The output object built for distinct names, none of them [__proto__],
    lists them in order. *)
Lemma fold_reduce_names names acc :
  NoDup (map fst acc ++ names) -> ~ In "__proto__" names ->
  fold_left reduce_ (map emptyMatch_ (map KName names)) acc
  = (acc ++ map (fun n => (n, KName n)) names)%list.
Proof.
  revert acc. induction names as [|n names IH]; intros acc Hnd Hproto.
  - cbn. now rewrite app_nil_r.
  - cbn [map fold_left]. unfold reduce_ at 2, entry_put.
    cbn [emptyMatch_ m_key key_value to_string].
    destruct (String.eqb_spec n "__proto__") as [-> | _];
      [exfalso; apply Hproto; now left|].
    rewrite entry_set_fresh by (apply NoDup_remove_2 in Hnd; intros Hin; apply Hnd;
                                 apply in_or_app; now left).
    rewrite IH.
    + now rewrite <- app_assoc.
    + rewrite map_app. cbn [map fst]. rewrite <- app_assoc. exact Hnd.
    + intros Hin. apply Hproto. now right.
Qed.

Lemma object_items_back props :
  NoDup (map fst props) ->
  map (fun e => (fst e,
                 item_of (map (fun e => (KName (fst e), snd e)) props) (snd e)))
      (map (fun n => (n, KName n)) (map fst props))
  = props.
Proof.
  intros Hnd. rewrite !map_map. cbn [fst snd].
  rewrite <- (map_id props) at 2. apply map_ext_in. intros [k v] Hin. cbn [fst].
  f_equal. apply item_of_In.
  - rewrite map_map. cbn [fst]. rewrite <- map_map. now apply KName_NoDup.
  - apply in_map_iff. exists (k, v). split; [reflexivity | exact Hin].
Qed.

(** X12: [search(object)] of an object with distinct property names, none of
    them [hasOwnProperty] or [__proto__], returns an instance, and without
    constraints [matches], [allMatches] and [allItems] give back an object
    with the same properties in the same order, also after [sorted()]. *)
Theorem unconstrained_search_returns_the_object :
  forall (array_sort : (Match -> Match -> value) -> list Match -> list Match)
         (props : list (string * value)),
    NoDup (map fst props) ->
    ~ In "hasOwnProperty" (map fst props) ->
    ~ In "__proto__" (map fst props) ->
    exists sl,
      search (VObj props) = Normal sl
      /\ forall v,
           observe (read array_sort v sl) = Normal (VObj props)
           /\ observe (read array_sort v (sorted sl)) = Normal (VObj props).
Proof.
  intros array_sort props Hnd Hhas Hproto.
  assert (Hown : shadows_hasOwnProperty (VObj props) = false).
  { cbn. destruct (assoc "hasOwnProperty" props) eqn:E; [|reflexivity].
    exfalso. apply Hhas. clear -E.
    induction props as [|[k v'] props IH]; cbn in *; [discriminate|].
    destruct (String.eqb_spec k "hasOwnProperty"); [now left|right; auto]. }
  eexists. split; [now apply search_object|].
  intros v. split; destruct v; cbn;
    rewrite ?app_nil_r, (map_map _ fst); cbn [fst]; rewrite <- (map_map fst KName);
    rewrite fold_reduce_names by assumption; cbn [app];
    do 2 f_equal; now apply object_items_back.
Qed.

(** ** Metadata injection *)

Lemma getItemInject_plain sl m sl' k :
  getItemInject_ sl m = Normal sl' ->
  is_object (item_of (s_collection (s_ sl)) k) = false ->
  item_of (s_collection (s_ sl')) k = item_of (s_collection (s_ sl)) k.
Proof.
  intros H Hk. destruct (key_eqb (m_key m) k) eqn:E.
  - apply key_eqb_eq in E. subst k. unfold getItemInject_, getItem_ in H.
    destruct (item_of (s_collection (s_ sl)) (m_key m)) eqn:Ei;
      try discriminate; injection H as <-; exact Ei.
  - unfold item_of. now rewrite (getItemInject_other _ _ _ _ H E).
Qed.

Lemma fold_getItemInject_plain ms sl sl' k :
  fold_c getItemInject_ ms sl = Normal sl' ->
  is_object (item_of (s_collection (s_ sl)) k) = false ->
  item_of (s_collection (s_ sl')) k = item_of (s_collection (s_ sl)) k.
Proof.
  revert sl. induction ms as [|m ms IH]; intros sl H Hk; cbn in H.
  - injection H as <-. reflexivity.
  - destruct (getItemInject_ sl m) as [sa|] eqn:Ha; cbn in H; [|discriminate].
    pose proof (getItemInject_plain _ _ _ _ Ha Hk) as Hsa.
    rewrite <- Hsa. apply (IH sa H). now rewrite Hsa.
Qed.

Lemma toOriginalFormat_plain sl ms sl' out k :
  toOriginalFormat_ sl ms = Normal (sl', out) ->
  is_object (item_of (s_collection (s_ sl)) k) = false ->
  item_of (s_collection (s_ sl')) k = item_of (s_collection (s_ sl)) k.
Proof.
  rewrite toOriginalFormat_eq. intros H Hk.
  destruct (o_inject_enabled (o_ sl)).
  - destruct (fold_c getItemInject_ ms sl) as [s|] eqn:Hfold; cbn in H; [|discriminate].
    injection H as <- _. eapply fold_getItemInject_plain; eauto.
  - injection H as <- _. reflexivity.
Qed.

(** Where a match's item stands while the matches before and after it receive
    their metadata. *)
Lemma fold_getItemInject_at ms sl sl' m :
  NoDup (map m_key ms) ->
  fold_c getItemInject_ ms sl = Normal sl' ->
  In m ms ->
  exists a b,
    getItemInject_ a m = Normal b
    /\ o_ a = o_ sl
    /\ map_get (m_key m) (s_collection (s_ a))
       = map_get (m_key m) (s_collection (s_ sl))
    /\ map_get (m_key m) (s_collection (s_ sl'))
       = map_get (m_key m) (s_collection (s_ b)).
Proof.
  revert sl. induction ms as [|m0 ms IH]; intros sl Hnd H Hin; [contradiction|].
  cbn in H. destruct (getItemInject_ sl m0) as [sa|] eqn:Ha; cbn in H; [|discriminate].
  cbn in Hnd. inversion Hnd as [|? ? Hnotin Hnd']; subst.
  destruct Hin as [-> | Hin].
  - exists sl, sa. repeat split; [exact Ha|].
    apply (fold_getItemInject_other _ _ _ _ H Hnotin).
  - destruct (IH sa Hnd' H Hin) as (a & b & Hab & Ho & Hbefore & Hafter).
    exists a, b. repeat split; [exact Hab | | | exact Hafter].
    + rewrite Ho. destruct (getItemInject_frame _ _ _ Ha) as (c & -> & _).
      now destruct sl.
    + rewrite Hbefore. apply (getItemInject_other _ _ _ _ Ha).
      destruct (key_eqb (m_key m0) (m_key m)) eqn:E; [|reflexivity].
      apply key_eqb_eq in E. exfalso. apply Hnotin. rewrite E.
      now apply in_map.
Qed.

Section Injection.

Variable array_sort : (Match -> Match -> value) -> list Match -> list Match.

Hypothesis array_sort_permutes :
  forall comparefn a, Permutation (array_sort comparefn a) a.

(** Every accessor ends in one formatting step, on an instance that still
    has the items and the options it was called with. *)
Lemma accessor_formats sl s1 out :
  get_matches array_sort sl = Normal (s1, out)
  \/ get_partialMatches array_sort sl = Normal (s1, out)
  \/ get_allMatches array_sort sl = Normal (s1, out)
  \/ get_allItems array_sort sl = Normal (s1, out) ->
  exists x ms,
    toOriginalFormat_ x ms = Normal (s1, out)
    /\ s_collection (s_ x) = s_collection (s_ sl)
    /\ o_ x = o_ sl
    /\ s_complete (s_ x) = true.
Proof.
  unfold get_matches, get_partialMatches, get_allMatches, get_allItems.
  intros H.
  destruct (updateMatches_ array_sort sl) as [u|] eqn:Hu;
    [|destruct H as [H | [H | [H | H]]]; discriminate].
  cbn [bind] in H.
  destruct (updateMatches_setup _ array_sort_permutes _ _ Hu) as [[Ho Hc _ _ _ _ _] Hcomplete].
  destruct H as [H | [H | [H | H]]].
  - exists u, (matches_array (s_ u)). auto.
  - pose proof (performSort_frame _ array_sort_permutes u (s_partial (s_ u)))
      as (Hop & Hcp & _ & _ & _ & _ & _ & Hcm & _).
    destruct (performSort_ array_sort u (s_partial (s_ u))) as [up sp].
    cbn [fst] in Hop, Hcp, Hcm. eexists _, _. split; [exact H|].
    destruct up as [[] ?]. cbn in *. repeat split; congruence.
  - pose proof (performSort_frame _ array_sort_permutes u
                  (matches_array (s_ u) ++ s_partial (s_ u))%list)
      as (Hop & Hcp & _ & _ & _ & _ & _ & Hcm & _).
    destruct (performSort_ array_sort u _) as [up sp].
    cbn [fst] in Hop, Hcp, Hcm. eexists _, _. split; [exact H|].
    repeat split; congruence.
  - pose proof (performSort_frame _ array_sort_permutes u (s_allItems (s_ u)))
      as (Hop & Hcp & _ & _ & _ & _ & _ & Hcm & _).
    destruct (performSort_ array_sort u (s_allItems (s_ u))) as [up sp].
    cbn [fst] in Hop, Hcp, Hcm. eexists _, _. split; [exact H|].
    destruct up as [[] ?]. cbn in *. repeat split; congruence.
Qed.

(** X13: no accessor changes a stored item that is neither an array nor an
    object, whether or not metadata injection is enabled. *)
Theorem reads_leave_plain_items_alone :
  forall (sl s1 : Instance) (out : Output) (k : Key),
    get_matches array_sort sl = Normal (s1, out)
    \/ get_partialMatches array_sort sl = Normal (s1, out)
    \/ get_allMatches array_sort sl = Normal (s1, out)
    \/ get_allItems array_sort sl = Normal (s1, out) ->
    is_object (item_of (s_collection (s_ sl)) k) = false ->
    item_of (s_collection (s_ s1)) k = item_of (s_collection (s_ sl)) k.
Proof.
  intros sl s1 out k H Hk.
  destruct (accessor_formats _ _ _ H) as (x & ms & Hf & Hc & _).
  rewrite <- Hc in *. eapply toOriginalFormat_plain; eauto.
Qed.

(** X14: after any accessor has returned, the results are marked complete: a
    further [updateMatches_] changes nothing and [length] returns the stored
    count. *)
Theorem results_are_cached_between_reads :
  forall (sl s1 : Instance) (out : Output),
    get_matches array_sort sl = Normal (s1, out)
    \/ get_partialMatches array_sort sl = Normal (s1, out)
    \/ get_allMatches array_sort sl = Normal (s1, out)
    \/ get_allItems array_sort sl = Normal (s1, out) ->
    updateMatches_ array_sort s1 = Normal s1
    /\ get_length array_sort s1 = Normal (s1, s_totalMatches (s_ s1)).
Proof.
  intros sl s1 out H.
  destruct (accessor_formats _ _ _ H) as (x & ms & Hf & _ & _ & Hcomplete).
  destruct (toOriginalFormat_frame _ _ _ _ Hf) as (coll & -> & _).
  assert (Hu : updateMatches_ array_sort (on_s (set_collection coll) x)
               = Normal (on_s (set_collection coll) x)).
  { apply updateMatches_noop. destruct x as [[] ?]. exact Hcomplete. }
  split; [exact Hu|]. unfold get_length. now rewrite Hu.
Qed.

Lemma assoc_set_other k p v ps :
  k <> p -> assoc k (assoc_set p v ps) = assoc k ps.
Proof.
  intros Hne. induction ps as [|[p' v'] ps IH]; cbn.
  - destruct (String.eqb_spec p k); [congruence|reflexivity].
  - destruct (String.eqb_spec p' p) as [-> | Hp]; cbn.
    + destruct (String.eqb_spec p k); [congruence|reflexivity].
    + destruct (p' =? k)%string; [reflexivity|exact IH].
Qed.

(** An assignment leaves the other properties alone, and the property
    written reads back unless its name is [__proto__]. *)
Lemma assoc_put_other k p v ps : k <> p -> assoc k (put p v ps) = assoc k ps.
Proof.
  intros Hne. unfold put.
  destruct (assoc p ps); [now apply assoc_set_other|].
  destruct (p =? "__proto__")%string; [reflexivity|now apply assoc_set_other].
Qed.

Lemma assoc_put_same p v ps : p <> "__proto__" -> assoc p (put p v ps) = Some v.
Proof.
  intros Hne. unfold put.
  destruct (assoc p ps); [apply assoc_set_found|].
  destruct (String.eqb_spec p "__proto__"); [contradiction|apply assoc_set_found].
Qed.

(** X15: with metadata injection enabled, [matches] leaves on every full match
    its own metadata: an object item holds [{relevance, missing}] of its
    match under the injection property, unless that is [__proto__], and its
    other properties are as before; an array item holds the metadata as a
    new last element. *)
Theorem stats_are_stored_on_the_item :
  forall (sl s1 : Instance) (out : Output) (m : Match),
    Reachable array_sort sl ->
    o_inject_enabled (o_ sl) = true ->
    get_matches array_sort sl = Normal (s1, out) ->
    In m (matches_array (s_ s1)) ->
    (forall props,
        item_of (s_collection (s_ sl)) (m_key m) = VObj props ->
        exists props',
          getItem_ s1 m = VObj props'
          /\ (forall k, k <> to_string (o_inject_property (o_ sl)) ->
                        assoc k props' = assoc k props)
          /\ (to_string (o_inject_property (o_ sl)) <> "__proto__" ->
              get (getItem_ s1 m) (o_inject_property (o_ sl))
              = Normal (stats m)))
    /\ (forall elems,
           item_of (s_collection (s_ sl)) (m_key m) = VArr elems ->
           getItem_ s1 m = VArr (elems ++ [stats m])).
Proof.
  intros sl s1 out m HR Hon H Hm.
  pose proof (Reachable_Inv _ array_sort_permutes _ HR) as HI.
  unfold get_matches in H.
  destruct (updateMatches_ array_sort sl) as [u|] eqn:Hu; [|discriminate].
  cbn [bind] in H.
  destruct (updateMatches_Inv _ array_sort_permutes _ _ HI Hu) as [HIu _].
  destruct (updateMatches_setup _ array_sort_permutes _ _ Hu) as [[Ho Hc _ _ _ _ _] _].
  destruct (toOriginalFormat_frame _ _ _ _ H) as (coll & Hs1 & _).
  assert (Hm' : In m (matches_array (s_ u))).
  { rewrite Hs1 in Hm. destruct u as [[[]] ?]; exact Hm. }
  rewrite toOriginalFormat_eq, Ho, Hon in H.
  destruct (fold_c getItemInject_ _ u) as [y|] eqn:Hfold; cbn in H; [|discriminate].
  injection H as -> _.
  destruct (fold_getItemInject_at _ _ _ m (inv_matches_keys _ HIu) Hfold Hm')
    as (a & b & Hab & Hoa & Hbefore & Hafter).
  rewrite Hc in Hbefore. rewrite Ho in Hoa.
  unfold getItem_, item_of. rewrite Hafter.
  unfold getItemInject_, getItem_, item_of in Hab. rewrite Hbefore, Hoa in Hab.
  split.
  - intros props Hitem. unfold item_of in Hitem.
    destruct (map_get (m_key m) (s_collection (s_ sl))) as [v|] eqn:Hget;
      [|discriminate].
    subst v.
    destruct (to_string_c (o_inject_property (o_ sl))) as [name|] eqn:Hname;
      cbn [bind] in Hab; [|discriminate].
    unfold to_string_c in Hname. apply converting_normal in Hname.
    rewrite existsb_one in Hname. destruct Hname as [Hconv ->].
    injection Hab as <-.
    assert (Hgot : map_get (m_key m)
                     (s_collection (s_ (on_s (fun s => set_collection
                        (map_set (m_key m)
                           (VObj (put (to_string (o_inject_property (o_ sl)))
                                      (stats m) props))
                           (s_collection s)) s) a)))
                   = Some (VObj (put (to_string (o_inject_property (o_ sl)))
                                     (stats m) props))).
    { destruct a as [[] ?]. cbn in *. eapply map_get_set_same. exact Hbefore. }
    rewrite Hgot. eexists. split; [reflexivity|]. split.
    + intros k Hk. now apply assoc_put_other.
    + intros Hproto. rewrite (get_ok (VObj _) _ eq_refl Hconv). cbn [own_property].
      now rewrite assoc_put_same.
  - intros elems Hitem. unfold item_of in Hitem.
    destruct (map_get (m_key m) (s_collection (s_ sl))) as [v|] eqn:Hget;
      [|discriminate].
    subst v. injection Hab as <-.
    destruct a as [[] ?]. cbn in *. now rewrite (map_get_set_same _ _ _ _ Hbefore).
Qed.

End Injection.

(** ** The iterators *)

(** With the instance as receiver the helpers are the ones the accessors
    use. *)
Lemma getItem_as_instance sl m :
  getItem_as (TheInstance sl) (Some m) = Normal (getItem_ sl m).
Proof. reflexivity. Qed.

(** X16: [next_] and [nextInject_] behave alike and never produce an item: past
    the last index they report [done], and otherwise they move the index on
    and raise a [TypeError], since the helper they call finds [fn_] as
    [this]. *)
Theorem iterators_never_yield_an_item :
  forall sl : Instance,
    next_ sl
    = (if s_index (s_ sl) >? s_lastIndex (s_ sl)
       then (sl, Normal Done)
       else (on_s (fun s => set_index (s_index s + 1) s) sl,
             Throw (TypeError "Cannot read property collection of undefined")))
    /\ nextInject_ sl = next_ sl
    /\ forall item, snd (next_ sl) <> Normal (Value item)
                    /\ snd (nextInject_ sl) <> Normal (Value item).
Proof.
  intros sl. unfold next_, nextInject_, next_match.
  destruct (s_index (s_ sl) >? s_lastIndex (s_ sl)); cbn;
    repeat split; intros; discriminate.
Qed.

(** ** Replacing and adding constraints *)

(** X17: [.for] after [.and] or [.for] gives what [.for] alone gives, and [.in]
    after [.or] or [.in] gives what [.in] alone gives. *)
Theorem for_and_in_forget_what_came_before :
  forall (sl sl1 : Instance) (earlier later : value),
    (and_ sl earlier = Normal sl1 \/ for_ sl earlier = Normal sl1 ->
     for_ sl1 later = for_ sl later)
    /\ (or_ sl earlier = Normal sl1 \/ in_ sl earlier = Normal sl1 ->
        in_ sl1 later = in_ sl later).
Proof.
  intros sl sl1 earlier later. split.
  - assert (Hand : forall x, and_ x earlier = Normal sl1 ->
                     for_ sl1 later = for_ x later).
    { intros x H. unfold and_ in H.
      repeat match type of H with
             | (if ?c then _ else _) = _ => destruct c
             | bind ?g _ = _ => destruct g as [[[? ?] ?]|]; cbn [bind] in H
             end;
        try discriminate; injection H as <-; destruct x as [[] ?]; reflexivity. }
    intros [H | H]; [now apply Hand|].
    unfold for_ in H. rewrite (Hand _ H). destruct sl as [[] ?]. reflexivity.
  - assert (Hor : forall x, or_ x earlier = Normal sl1 ->
                    in_ sl1 later = in_ x later).
    { intros x H. unfold or_ in H.
      repeat match type of H with
             | (if ?c then _ else _) = _ => destruct c
             | bind ?g _ = _ => destruct g; cbn [bind] in H
             end;
        try discriminate; injection H as <-; destruct x as [[] ?]; reflexivity. }
    intros [H | H]; [now apply Hor|].
    unfold in_ in H. rewrite (Hor _ H). destruct sl as [[] ?]. reflexivity.
Qed.

(** ** More that holds of every instance in use *)

Lemma new_Map_keys entries k :
  In k (map fst (new_Map entries)) -> In k (map fst entries).
Proof.
  unfold new_Map.
  assert (G : forall acc,
             In k (map fst (fold_left (fun m e => map_set (fst e) (snd e) m)
                                      entries acc)) ->
             In k (map fst acc) \/ In k (map fst entries)).
  { induction entries as [|[k0 v0] entries IH]; intros acc H; cbn in H; [now left|].
    destruct (IH _ H) as [Hacc | Hrest]; [|right; now right].
    cbn [map fst].
    assert (Hset : forall m, In k (map fst (map_set k0 v0 m)) ->
                     In k (map fst m) \/ k0 = k).
    { clear. induction m as [|[k' v'] m IHm]; cbn.
      - intros [-> | []]. now right.
      - destruct (key_eqb k' k0); cbn; intros [-> | H]; auto.
        destruct (IHm H); auto. }
    destruct (Hset _ Hacc); [now left | right; now left]. }
  intros H. destruct (G [] H) as [[] | H']; exact H'.
Qed.

Lemma map_c_collection_keys collection ks entries :
  map_c (i_collection_ collection) ks = Normal entries -> map fst entries = ks.
Proof.
  revert entries. induction ks as [|k ks IH]; intros entries H; cbn in H.
  - now injection H as <-.
  - unfold i_collection_ at 1 in H.
    destruct (get collection (key_value k)); cbn in H; [|discriminate].
    destruct (map_c _ ks) as [rest|]; cbn in H; [|discriminate].
    injection H as <-. cbn. now rewrite (IH rest).
Qed.

Lemma search_Consistent items sl : search items = Normal sl -> Consistent sl.
Proof.
  unfold search, collection_. intros H.
  destruct items; cbn in H;
    try (injection H as <-; constructor; cbn; intros; try discriminate;
         solve [reflexivity | contradiction | congruence]).
  - discriminate.
  - destruct (map_c _ _) as [entries|] eqn:E; cbn in H; [|discriminate].
    injection H as <-. constructor; cbn; intros; try discriminate;
      solve [reflexivity | congruence].
  - destruct (filter_c _ _) as [ks|] eqn:F; cbn in H; [|discriminate].
    destruct (map_c _ _) as [entries|] eqn:E; cbn in H; [|discriminate].
    injection H as <-. constructor; cbn; intros; try discriminate;
      try reflexivity.
    apply new_Map_keys in H0. rewrite (map_c_collection_keys _ _ _ E) in H0.
    apply in_map_iff in H0. destruct H0 as (name & <- & _). eauto.
Qed.

Lemma and_Consistent sl constraint sl' :
  Consistent sl -> and_ sl constraint = Normal sl' -> Consistent sl'.
Proof.
  intros HC H. destruct sl as [[] o]. open_con HC.
  unfold and_ in H. cbn [on_s s_ o_ set_searched set_complete set_ready] in H.
  split_result H; injection H as <-; close_con. apply trim_idem.
Qed.

Lemma for_Consistent sl constraint sl' :
  Consistent sl -> for_ sl constraint = Normal sl' -> Consistent sl'.
Proof.
  intros HC H. unfold for_ in H. revert H. apply and_Consistent.
  destruct sl as [[] o]. open_con HC. close_con.
Qed.

Lemma or_Consistent sl keys sl' :
  Consistent sl -> or_ sl keys = Normal sl' -> Consistent sl'.
Proof.
  intros HC H. destruct sl as [[] o]. open_con HC.
  unfold or_ in H. cbn in H. split_result H; injection H as <-; close_con.
Qed.

Lemma in_Consistent sl keys sl' :
  Consistent sl -> in_ sl keys = Normal sl' -> Consistent sl'.
Proof.
  intros HC H. unfold in_ in H. revert H. apply or_Consistent.
  destruct sl as [[] o]. open_con HC. close_con.
Qed.

Lemma sorted_Consistent sl : Consistent sl -> Consistent (sorted sl).
Proof.
  intros HC. destruct sl as [[] [? ? ? sort ? ? ?]]. open_con HC. unfold sorted. cbn.
  destruct sort; close_con.
Qed.

Lemma unsorted_Consistent sl : Consistent sl -> Consistent (unsorted sl).
Proof.
  intros HC. destruct sl as [[] [? ? ? sort ? ? ?]]. open_con HC. unfold unsorted. cbn.
  destruct sort; close_con.
Qed.

Lemma sortUsing_Consistent sl fn : Consistent sl -> Consistent (sortUsing sl fn).
Proof.
  intros HC. destruct sl as [[] []]. open_con HC. unfold sortUsing. close_con.
Qed.

Lemma compareCase_Consistent sl : Consistent sl -> Consistent (compareCase sl).
Proof.
  intros HC. destruct sl as [[] [? case ? ? ? ? ?]]. open_con HC. unfold compareCase. cbn.
  destruct case; close_con.
Qed.

Lemma ignoreCase_Consistent sl : Consistent sl -> Consistent (ignoreCase sl).
Proof.
  intros HC. destruct sl as [[] [? case ? ? ? ? ?]]. open_con HC. unfold ignoreCase. cbn.
  destruct case; close_con.
Qed.

Lemma withStats_Consistent sl property :
  Consistent sl -> Consistent (withStats sl property).
Proof.
  intros HC. destruct sl as [[] []]. open_con HC. unfold withStats. cbn.
  destruct (negb _); close_con.
Qed.

Lemma withoutStats_Consistent sl : Consistent sl -> Consistent (withoutStats sl).
Proof.
  intros HC. destruct sl as [[] []]. open_con HC. unfold withoutStats. close_con.
Qed.

Lemma updateConstraints_Consistent sl :
  Consistent sl -> Consistent (updateConstraints_ sl).
Proof.
  intros HC. destruct sl as [[? ? ? ? ? ? ? ? ? ? ? ? ? ready ? ? ?] []].
  open_con HC. unfold updateConstraints_. cbn.
  destruct ready; cbn; close_con.
Qed.

Lemma filter_all {A} (l : list A) : filter (fun _ => true) l = l.
Proof. induction l as [|x l IH]; cbn; [reflexivity | now rewrite IH]. Qed.

Lemma filter_nothing {A} (l : list A) : filter (fun _ => false) l = [].
Proof. induction l as [|x l IH]; cbn; [reflexivity | exact IH]. Qed.

Lemma filter_permutes {A} (p : A -> bool) l l' :
  Permutation l l' -> Permutation (filter p l) (filter p l').
Proof.
  induction 1 as [|x l l' _ IH|x y l|l l' l'' _ IH1 _ IH2]; cbn.
  - constructor.
  - destruct (p x); [now constructor | exact IH].
  - destruct (p x), (p y); try reflexivity. constructor.
  - now transitivity (filter p l').
Qed.

Lemma performSearch_Consistent sl sl' :
  Consistent sl -> performSearch_ sl = Normal sl' -> Consistent sl'.
Proof.
  intros HC H. rewrite performSearch_eq in H. cbv zeta in H.
  pose proof (updateConstraints_Consistent _ HC) as HU.
  set (u := updateConstraints_ sl) in *. clearbody u.
  destruct HU as [HT HN _ _].
  destruct (snd (isConstrained sl)).
  - destruct (pass_scores u) as [ms|] eqn:Hms; cbn [bind] in H; [|discriminate].
    injection H as <-. pose proof (pass_scores_keys _ _ Hms) as Hkeys.
    destruct u as [[] o]. cbn in *. constructor; cbn; auto.
    + intros _. now rewrite Hkeys.
    + intros _. eexists _, _. split; [|split; reflexivity].
      intros m Hp. destruct (is_partial _ m) eqn:Hq; [|reflexivity].
      exfalso. eapply full_not_partial; eassumption.
  - injection H as <-. destruct u as [[] o]. cbn in *. constructor; cbn; auto.
    + intros _. now rewrite emptyMatch_keys.
    + intros _. exists (fun _ => true), (fun _ => false).
      split; [reflexivity|]. now rewrite filter_all, filter_nothing.
Qed.

Lemma performSearch_interrupted_Consistent sl :
  Consistent sl -> s_searched (s_ sl) = false ->
  Consistent (performSearch_interrupted sl).
Proof.
  intros HC Hfresh.
  pose proof (updateConstraints_Consistent _ HC) as HU.
  pose proof (updateConstraints_frame sl)
    as (_ & _ & _ & _ & _ & _ & _ & _ & Hsearched & _).
  cbv zeta in Hsearched. rewrite <- Hsearched in Hfresh.
  destruct (performSearch_interrupted_eq sl) as (l1 & l2 & ms & _ & _ & ->).
  cbv zeta. set (u := updateConstraints_ sl) in *. clearbody u.
  destruct (snd (isConstrained sl)); [|exact HU].
  destruct u as [[] o]. open_con HU. cbn in Hfresh.
  constructor; cbn; auto; intros; congruence.
Qed.

Lemma con_sort_partial sl part :
  Consistent sl -> Permutation part (s_partial (s_ sl)) ->
  Consistent (on_s (set_partial part) sl).
Proof.
  intros HC Hp. destruct sl as [[] o]. open_con HC. cbn in Hp.
  constructor; cbn; auto. intros Hs.
  destruct (Hsplit Hs) as (p & q & Hpq & Hm & Hq).
  exists p, q. repeat split; auto. etransitivity; eassumption.
Qed.

Lemma con_sort_allItems sl all :
  Consistent sl -> Permutation all (s_allItems (s_ sl)) ->
  Consistent (on_s (set_allItems all) sl).
Proof.
  intros HC Hp. destruct sl as [[full ? items ? ? ? ? ? ? ? ? ? ? ? ? ? ?] o].
  open_con HC. cbn in Hp.
  constructor; cbn; auto.
  - intros Hs. rewrite <- (Hall Hs). now apply Permutation_map.
  - intros Hs. destruct (Hsplit Hs) as (p & q & Hpq & Hm & Hq).
    exists p, q. repeat split; auto.
    + unfold matches_array in *. cbn in *. destruct full.
      * transitivity (filter p items); [exact Hm|].
        apply filter_permutes. now symmetry.
      * transitivity items; [exact Hp|].
        transitivity (filter p items); [exact Hm|].
        apply filter_permutes. now symmetry.
    + transitivity (filter q items); [exact Hq|].
      apply filter_permutes. now symmetry.
Qed.

Lemma con_sort_matches sl full :
  Consistent sl -> Permutation full (matches_array (s_ sl)) ->
  Consistent (on_s (update_matches_array (fun _ => full)) sl).
Proof.
  intros HC Hp.
  destruct sl as [[ref ? items ? ? ? ? ? ? ? ? ? ? ? ? ? ?] o].
  unfold update_matches_array, matches_array in *. cbn in Hp |- *.
  destruct ref.
  - open_con HC. constructor; cbn; auto. intros Hs.
    destruct (Hsplit Hs) as (p & q & Hpq & Hm & Hq).
    exists p, q. repeat split; auto. unfold matches_array in *. cbn in *.
    etransitivity; eassumption.
  - apply (con_sort_allItems
             (mkInstance (mkState AllItemsArray _ items _ _ _ _ _ _ _ _ _ _ _ _ _ _) o)
             full HC Hp).
Qed.

Lemma con_completed sl total index lastIndex :
  Consistent sl ->
  Consistent (on_s (fun s =>
                      set_complete true
                        (set_lastIndex lastIndex
                           (set_index index (set_totalMatches total s)))) sl).
Proof. intros HC. destruct sl as [[] o]. open_con HC. close_con. Qed.

Lemma con_collection sl coll :
  Consistent sl -> map fst coll = map fst (s_collection (s_ sl)) ->
  Consistent (on_s (set_collection coll) sl).
Proof.
  intros HC Hk. destruct sl as [[] o]. open_con HC. cbn in Hk.
  constructor; cbn; rewrite ?Hk; auto.
Qed.

Lemma toOriginalFormat_Consistent sl ms sl' out :
  Consistent sl -> toOriginalFormat_ sl ms = Normal (sl', out) -> Consistent sl'.
Proof.
  intros HC H. destruct (toOriginalFormat_frame _ _ _ _ H) as (coll & -> & Hk).
  now apply con_collection.
Qed.

Section InUse.

Variable array_sort : (Match -> Match -> value) -> list Match -> list Match.

Hypothesis array_sort_permutes :
  forall comparefn a, Permutation (array_sort comparefn a) a.

Lemma performSort_Consistent sl a :
  Consistent sl -> Consistent (fst (performSort_ array_sort sl a)).
Proof.
  intros HC. destruct (performSort_spec _ array_sort_permutes sl a) as [[-> | ->] _];
    [exact HC | now apply updateConstraints_Consistent].
Qed.

Lemma updateMatches_Consistent sl sl' :
  Consistent sl -> updateMatches_ array_sort sl = Normal sl' -> Consistent sl'.
Proof.
  intros HC H. unfold updateMatches_ in H.
  destruct (s_complete (s_ sl)); cbn [bind negb] in H; [now injection H as <-|].
  destruct (if negb (s_searched (s_ sl)) then performSearch_ sl else Normal sl)
    as [sl1|] eqn:H1; cbn [bind negb] in H; [|discriminate].
  assert (HC1 : Consistent sl1).
  { destruct (s_searched (s_ sl)); cbn [negb] in H1.
    - now injection H1 as <-.
    - eapply performSearch_Consistent; eassumption. }
  pose proof (performSort_spec _ array_sort_permutes sl1 (matches_array (s_ sl1)))
    as [_ Hperm].
  pose proof (performSort_Consistent sl1 (matches_array (s_ sl1)) HC1) as HC2.
  pose proof (performSort_frame _ array_sort_permutes sl1 (matches_array (s_ sl1)))
    as (_ & _ & _ & _ & Hm & _ & Ha & _).
  destruct (performSort_ array_sort sl1 (matches_array (s_ sl1)))
    as [sl2 sorted_matches].
  cbn [fst snd] in *. injection H as <-.
  apply con_completed. apply con_sort_matches; [exact HC2|].
  unfold matches_array. rewrite Hm, Ha. exact Hperm.
Qed.

Lemma accessor_Consistent sl s1 out :
  Consistent sl ->
  get_matches array_sort sl = Normal (s1, out)
  \/ get_partialMatches array_sort sl = Normal (s1, out)
  \/ get_allMatches array_sort sl = Normal (s1, out)
  \/ get_allItems array_sort sl = Normal (s1, out) ->
  Consistent s1.
Proof.
  unfold get_matches, get_partialMatches, get_allMatches, get_allItems.
  intros HC H.
  destruct (updateMatches_ array_sort sl) as [u|] eqn:Hu;
    [|destruct H as [H | [H | [H | H]]]; discriminate].
  cbn [bind] in H. pose proof (updateMatches_Consistent _ _ HC Hu) as HCu.
  destruct H as [H | [H | [H | H]]].
  - eapply toOriginalFormat_Consistent; eassumption.
  - pose proof (performSort_spec _ array_sort_permutes u (s_partial (s_ u)))
      as [_ Hperm].
    pose proof (performSort_Consistent u (s_partial (s_ u)) HCu) as HC2.
    pose proof (performSort_frame _ array_sort_permutes u (s_partial (s_ u)))
      as (_ & _ & _ & _ & _ & Hp & _).
    destruct (performSort_ array_sort u (s_partial (s_ u))) as [u2 sp].
    cbn [fst snd] in *.
    eapply toOriginalFormat_Consistent; [|eassumption].
    apply con_sort_partial; [exact HC2 | now rewrite Hp].
  - pose proof (performSort_Consistent u
                  (matches_array (s_ u) ++ s_partial (s_ u))%list HCu) as HC2.
    destruct (performSort_ array_sort u _) as [u2 sa]. cbn [fst] in HC2.
    eapply toOriginalFormat_Consistent; eassumption.
  - pose proof (performSort_spec _ array_sort_permutes u (s_allItems (s_ u)))
      as [_ Hperm].
    pose proof (performSort_Consistent u (s_allItems (s_ u)) HCu) as HC2.
    pose proof (performSort_frame _ array_sort_permutes u (s_allItems (s_ u)))
      as (_ & _ & _ & _ & _ & _ & Ha & _).
    destruct (performSort_ array_sort u (s_allItems (s_ u))) as [u2 sa].
    cbn [fst snd] in *.
    eapply toOriginalFormat_Consistent; [|eassumption].
    apply con_sort_allItems; [exact HC2 | now rewrite Ha].
Qed.

Lemma call_Consistent c sl sl' :
  Consistent sl -> call array_sort c sl = Normal sl' -> Consistent sl'.
Proof.
  intros HC H. destruct c; cbn [call] in H; unfold catch_, then_, get_length in H;
    try (injection H as <-);
    eauto using and_Consistent, for_Consistent, or_Consistent, in_Consistent,
      sorted_Consistent, unsorted_Consistent, sortUsing_Consistent,
      compareCase_Consistent, ignoreCase_Consistent, withStats_Consistent,
      withoutStats_Consistent.
  1, 2: destruct (updateMatches_ array_sort sl) as [u|] eqn:Hu;
    [ pose proof (updateMatches_Consistent _ _ HC Hu);
      destruct (s_error (s_ u)); assumption
    | destruct (updateMatches_throws _ _ _ Hu) as (_ & Hs & _);
      now apply performSearch_interrupted_Consistent ].
  - destruct (updateMatches_ array_sort sl) as [u|] eqn:Hu; cbn [bind] in H;
      [|discriminate].
    injection H as <-. eapply updateMatches_Consistent; eassumption.
  - destruct (get_matches array_sort sl) as [[s1 out]|] eqn:Hr; cbn [bind] in H;
      [|discriminate].
    injection H as <-. eapply accessor_Consistent; eauto.
  - destruct (get_partialMatches array_sort sl) as [[s1 out]|] eqn:Hr;
      cbn [bind] in H; [|discriminate].
    injection H as <-. eapply accessor_Consistent; eauto.
  - destruct (get_allMatches array_sort sl) as [[s1 out]|] eqn:Hr; cbn [bind] in H;
      [|discriminate].
    injection H as <-. eapply accessor_Consistent; eauto.
  - destruct (get_allItems array_sort sl) as [[s1 out]|] eqn:Hr; cbn [bind] in H;
      [|discriminate].
    injection H as <-. eapply accessor_Consistent; eauto 6.
Qed.

Lemma Reachable_Consistent sl : Reachable array_sort sl -> Consistent sl.
Proof.
  induction 1 as [items sl H|c sl sl' _ IH H].
  - eapply search_Consistent; eassumption.
  - eapply call_Consistent; eassumption.
Qed.

End InUse.

(** ** What the accessors return *)

Lemma fold_reduce_keys ms acc :
  (forall m, In m ms -> exists name, m_key m = KName name) ->
  NoDup (map fst acc ++ map (fun m => to_string (key_value (m_key m))) ms) ->
  fold_left reduce_ ms acc
  = (acc ++ map (fun m => (to_string (key_value (m_key m)), m_key m))
                (filter (fun m => listed "object" (m_key m)) ms))%list.
Proof.
  revert acc. induction ms as [|m ms IH]; intros acc Hnames Hnd.
  - cbn. now rewrite app_nil_r.
  - cbn [map fold_left filter] in Hnd |- *. unfold reduce_ at 2, entry_put.
    destruct (Hnames m (or_introl eq_refl)) as [name Hname].
    rewrite Hname in Hnd |- *. cbn [key_value to_string] in Hnd |- *.
    change (listed "object" (KName name))
      with (negb (name =? "__proto__")%string).
    destruct (name =? "__proto__")%string; cbn [negb].
    + apply IH; [intros m' Hm'; apply Hnames; now right|].
      eapply NoDup_remove_1. exact Hnd.
    + rewrite entry_set_fresh by (apply NoDup_remove_2 in Hnd; intros Hin;
                                   apply Hnd; apply in_or_app; now left).
      rewrite IH.
      * cbn [map]. rewrite Hname. cbn [key_value to_string].
        now rewrite <- app_assoc.
      * intros m' Hm'. apply Hnames. now right.
      * rewrite map_app. cbn [map fst]. rewrite <- app_assoc. exact Hnd.
Qed.

Lemma filter_mapped {A B : Type} (f : A -> B) (p : B -> bool) l :
  map f (filter (fun x => p (f x)) l) = filter p (map f l).
Proof.
  induction l as [|x l IH]; cbn; [reflexivity|].
  destruct (p (f x)); cbn; now rewrite IH.
Qed.

Lemma filter_everything {A : Type} (p : A -> bool) l :
  (forall x, In x l -> p x = true) -> filter p l = l.
Proof.
  induction l as [|x l IH]; cbn; intros H; [reflexivity|].
  rewrite (H x (or_introl eq_refl)), IH; [reflexivity|].
  intros y Hy. apply H. now right.
Qed.

(** Every key but [__proto__] is listed. *)
Lemma listed_keys collectionType ks :
  ~ In (KName "__proto__") ks -> filter (listed collectionType) ks = ks.
Proof.
  intros H. apply filter_everything. intros k Hk. unfold listed.
  destruct k as [i|name]; [apply orb_true_r|].
  destruct (String.eqb_spec name "__proto__") as [-> | _];
    [contradiction|apply orb_true_r].
Qed.

Lemma names_NoDup ms :
  (forall m, In m ms -> exists name, m_key m = KName name) ->
  NoDup (map m_key ms) ->
  NoDup (map (fun m => to_string (key_value (m_key m))) ms).
Proof.
  induction ms as [|m ms IH]; intros Hnames Hnd; cbn; [constructor|].
  cbn in Hnd. inversion Hnd as [|? ? Hnotin Hnd']; subst. constructor.
  - intros Hin. apply in_map_iff in Hin. destruct Hin as (m' & Heq & Hm').
    apply Hnotin. apply in_map_iff. exists m'. split; [|exact Hm'].
    destruct (Hnames m (or_introl eq_refl)) as [n Hn].
    destruct (Hnames m' (or_intror Hm')) as [n' Hn'].
    rewrite Hn, Hn' in *. cbn in Heq. now subst.
  - apply IH; [|exact Hnd']. intros m' Hm'. apply Hnames. now right.
Qed.

(** The output built for matches under distinct keys of the collection holds
    their items, in their order: all of them in an array, all but the one
    under [__proto__] in an object. *)
Lemma format_refs_keys sl ms :
  Consistent sl ->
  NoDup (map m_key ms) ->
  (forall m, In m ms -> In (m_key m) (map fst (s_collection (s_ sl)))) ->
  output_keys (format_refs sl ms)
  = filter (listed (o_collectionType (o_ sl))) (map m_key ms).
Proof.
  intros HC Hnd Hin. unfold format_refs, listed.
  destruct (String.eqb_spec (o_collectionType (o_ sl)) "array") as [_ | Hobj].
  { cbn [output_keys orb]. symmetry. now apply filter_everything. }
  assert (Hnames : forall m, In m ms -> exists name, m_key m = KName name).
  { intros m Hm. apply (con_names _ HC Hobj). now apply Hin. }
  cbn [output_keys orb]. rewrite fold_reduce_keys; [|exact Hnames|].
  - cbn [app]. rewrite map_map. cbn [snd].
    apply (filter_mapped m_key (listed "object")).
  - cbn [map app]. now apply names_NoDup.
Qed.

Lemma NoDup_filters {A B} (f : A -> B) (p q : A -> bool) l :
  (forall x, p x = true -> q x = false) ->
  NoDup (map f l) ->
  NoDup (map f (filter p l ++ filter q l)).
Proof.
  intros Hpq. induction l as [|x l IH]; intros Hnd; [constructor|].
  cbn in Hnd. inversion Hnd as [|? ? Hnotin Hnd']; subst.
  specialize (IH Hnd').
  assert (Hfresh : ~ In (f x) (map f (filter p l ++ filter q l))).
  { intros Hin. apply Hnotin. apply in_map_iff in Hin.
    destruct Hin as (y & Hy & Hin). apply in_map_iff. exists y. split; [exact Hy|].
    apply in_app_or in Hin. destruct Hin as [Hin | Hin];
      apply filter_In in Hin; tauto. }
  cbn [filter]. destruct (p x) eqn:Hp.
  - rewrite (Hpq x Hp). cbn. now constructor.
  - destruct (q x); [|exact IH].
    rewrite map_app in *. cbn [map].
    apply (NoDup_Add (Add_app (f x) (map f (filter p l)) (map f (filter q l)))).
    split; [exact IH | exact Hfresh].
Qed.

Section Reads.

Variable array_sort : (Match -> Match -> value) -> list Match -> list Match.

Hypothesis array_sort_permutes :
  forall comparefn a, Permutation (array_sort comparefn a) a.

(** After the update every accessor begins with, the three arrays hold keys
    of the collection: all of them, and two parts that share none. *)
Lemma updated_arrays sl u :
  Reachable array_sort sl ->
  updateMatches_ array_sort sl = Normal u ->
  Consistent u
  /\ s_collection (s_ u) = s_collection (s_ sl)
  /\ o_ u = o_ sl
  /\ NoDup (map fst (s_collection (s_ u)))
  /\ Permutation (map m_key (s_allItems (s_ u))) (map fst (s_collection (s_ u)))
  /\ NoDup (map m_key (matches_array (s_ u) ++ s_partial (s_ u)))
  /\ (forall m, In m (matches_array (s_ u) ++ s_partial (s_ u)) ->
        In (m_key m) (map fst (s_collection (s_ u))))
  /\ s_totalMatches (s_ u) = Z.of_nat (List.length (matches_array (s_ u))).
Proof.
  intros HR Hu.
  pose proof (Reachable_Inv _ array_sort_permutes _ HR) as HI.
  pose proof (Reachable_Consistent _ array_sort_permutes _ HR) as HC.
  destruct (updateMatches_Inv _ array_sort_permutes _ _ HI Hu) as [HIu Hs].
  pose proof (updateMatches_Consistent _ array_sort_permutes _ _ HC Hu) as HCu.
  destruct (updateMatches_setup _ array_sort_permutes _ _ Hu)
    as [[Ho Hc _ _ _ _ _] Hcomplete].
  pose proof (con_all _ HCu Hs) as Hall.
  destruct (con_split _ HCu Hs) as (p & q & Hpq & Hm & Hq).
  assert (Hnd : NoDup (map m_key (s_allItems (s_ u)))).
  { eapply Permutation_NoDup; [symmetry; exact Hall | exact (inv_keys _ HIu)]. }
  assert (Hparts : Permutation (matches_array (s_ u) ++ s_partial (s_ u))
                     (filter p (s_allItems (s_ u)) ++ filter q (s_allItems (s_ u))))
    by now apply Permutation_app.
  repeat (apply conj); auto.
  - exact (inv_keys _ HIu).
  - eapply Permutation_NoDup; [symmetry; apply Permutation_map; exact Hparts|].
    now apply NoDup_filters.
  - intros m Hin. eapply Permutation_in; [exact Hall|].
    apply in_map. eapply Permutation_in in Hin; [|exact Hparts].
    apply in_app_or in Hin. destruct Hin as [Hin | Hin];
      apply filter_In in Hin; tauto.
  - exact (inv_total _ HIu Hcomplete).
Qed.

(** X18: on every instance in use whose collection has no key [__proto__],
    [length] is the number of items [matches] returns. *)
Theorem length_counts_the_matches :
  forall (sl s1 s2 : Instance) (n : Z) (out : Output),
    Reachable array_sort sl ->
    ~ In (KName "__proto__") (map fst (s_collection (s_ sl))) ->
    get_length array_sort sl = Normal (s1, n) ->
    get_matches array_sort sl = Normal (s2, out) ->
    n = Z.of_nat (List.length (output_keys out)).
Proof.
  intros sl s1 s2 n out HR Hproto Hlen Hm.
  unfold get_length in Hlen. unfold get_matches in Hm.
  destruct (updateMatches_ array_sort sl) as [u|] eqn:Hu; [|discriminate].
  cbn [bind] in Hlen, Hm. injection Hlen as <- <-.
  destruct (updated_arrays _ _ HR Hu) as (HCu & Hc & _ & _ & _ & Hnd & Hin & Htotal).
  apply toOriginalFormat_output in Hm. subst out.
  rewrite format_refs_keys; [| exact HCu | |].
  - rewrite listed_keys; [now rewrite length_map|].
    intros Hk. apply Hproto. rewrite <- Hc.
    apply in_map_iff in Hk. destruct Hk as (m & Hm & Hk).
    rewrite <- Hm. apply Hin. apply in_or_app. now left.
  - rewrite map_app in Hnd. now apply NoDup_app_remove_r in Hnd.
  - intros m Hm. apply Hin. apply in_or_app. now left.
Qed.

(** X19: on every instance in use [allMatches] returns the items of [matches]
    and of [partialMatches] together, each once. *)
Theorem allMatches_joins_matches_and_partialMatches :
  forall (sl s1 s2 s3 : Instance) (full part all : Output),
    Reachable array_sort sl ->
    get_matches array_sort sl = Normal (s1, full) ->
    get_partialMatches array_sort sl = Normal (s2, part) ->
    get_allMatches array_sort sl = Normal (s3, all) ->
    Permutation (output_keys all) (output_keys full ++ output_keys part)
    /\ NoDup (output_keys all).
Proof.
  intros sl s1 s2 s3 full part all HR Hf Hp Ha.
  unfold get_matches in Hf. unfold get_partialMatches in Hp.
  unfold get_allMatches in Ha.
  destruct (updateMatches_ array_sort sl) as [u|] eqn:Hu; [|discriminate].
  cbn [bind] in Hf, Hp, Ha.
  destruct (updated_arrays _ _ HR Hu) as (HCu & _ & _ & _ & _ & Hnd & Hin & _).
  assert (Hndf : NoDup (map m_key (matches_array (s_ u)))).
  { rewrite map_app in Hnd. now apply NoDup_app_remove_r in Hnd. }
  assert (Hndp : NoDup (map m_key (s_partial (s_ u)))).
  { rewrite map_app in Hnd. now apply NoDup_app_remove_l in Hnd. }
  (* matches *)
  apply toOriginalFormat_output in Hf.
  set (shown := listed (o_collectionType (o_ u))).
  assert (Ef : output_keys full = filter shown (map m_key (matches_array (s_ u)))).
  { subst full. apply format_refs_keys; auto.
    intros m Hm. apply Hin. apply in_or_app. now left. }
  (* partialMatches *)
  pose proof (performSort_spec _ array_sort_permutes u (s_partial (s_ u)))
    as [_ Hpp].
  pose proof (performSort_frame _ array_sort_permutes u (s_partial (s_ u)))
    as (Hop & Hcp & _ & _ & _ & Hpart & _).
  pose proof (performSort_Consistent _ array_sort_permutes u (s_partial (s_ u)) HCu)
    as HCp.
  destruct (performSort_ array_sort u (s_partial (s_ u))) as [up sp].
  cbn [fst snd] in Hpp, Hop, Hcp, Hpart, HCp. apply toOriginalFormat_output in Hp.
  assert (Ep : output_keys part = filter shown (map m_key sp)).
  { subst part shown. rewrite <- Hop.
    replace (s_partial (s_ (on_s (set_partial sp) up))) with sp
      by now destruct up as [[] ?].
    replace (o_ up) with (o_ (on_s (set_partial sp) up))
      by now destruct up as [[] ?].
    apply format_refs_keys.
    - apply con_sort_partial; [exact HCp | now rewrite Hpart].
    - eapply Permutation_NoDup; [symmetry; apply Permutation_map; exact Hpp|].
      exact Hndp.
    - intros m Hm.
      replace (s_collection (s_ (on_s (set_partial sp) up)))
        with (s_collection (s_ up)) by now destruct up as [[] ?].
      rewrite Hcp. apply Hin. apply in_or_app. right.
      eapply Permutation_in; eassumption. }
  (* allMatches *)
  pose proof (performSort_spec _ array_sort_permutes u
                (matches_array (s_ u) ++ s_partial (s_ u))%list) as [_ Hpa].
  pose proof (performSort_frame _ array_sort_permutes u
                (matches_array (s_ u) ++ s_partial (s_ u))%list)
    as (Hoa & Hca & _).
  pose proof (performSort_Consistent _ array_sort_permutes u
                (matches_array (s_ u) ++ s_partial (s_ u))%list HCu) as HCa.
  destruct (performSort_ array_sort u _) as [ua sa].
  cbn [fst snd] in Hpa, Hoa, Hca, HCa. apply toOriginalFormat_output in Ha.
  assert (Ea : output_keys all = filter shown (map m_key sa)).
  { subst all shown. rewrite <- Hoa. apply format_refs_keys; [exact HCa | |].
    - eapply Permutation_NoDup; [symmetry; apply Permutation_map; exact Hpa|].
      exact Hnd.
    - intros m Hm. rewrite Hca. apply Hin. eapply Permutation_in; eassumption. }
  rewrite Ef, Ep, Ea, <- filter_app. split.
  - apply filter_permutes.
    rewrite (Permutation_map m_key Hpa), map_app.
    apply Permutation_app_head. symmetry. now apply Permutation_map.
  - apply NoDup_filter.
    eapply Permutation_NoDup; [symmetry; apply Permutation_map; exact Hpa|].
    exact Hnd.
Qed.

(** X20: on every instance in use whose collection has no key [__proto__],
    whatever the constraints, [allItems] returns every item of the
    collection, each once. *)
Theorem allItems_returns_every_item_once :
  forall (sl s1 : Instance) (out : Output),
    Reachable array_sort sl ->
    ~ In (KName "__proto__") (map fst (s_collection (s_ sl))) ->
    get_allItems array_sort sl = Normal (s1, out) ->
    Permutation (output_keys out) (map fst (s_collection (s_ sl)))
    /\ NoDup (output_keys out).
Proof.
  intros sl s1 out HR Hproto H. unfold get_allItems in H.
  destruct (updateMatches_ array_sort sl) as [u|] eqn:Hu; [|discriminate].
  cbn [bind] in H.
  destruct (updated_arrays _ _ HR Hu) as (HCu & Hc & _ & Hkeys & Hall & _).
  pose proof (performSort_spec _ array_sort_permutes u (s_allItems (s_ u)))
    as [_ Hperm].
  pose proof (performSort_frame _ array_sort_permutes u (s_allItems (s_ u)))
    as (_ & Hcs & _ & _ & _ & _ & Hitems & _).
  pose proof (performSort_Consistent _ array_sort_permutes u (s_allItems (s_ u)) HCu)
    as HCs.
  destruct (performSort_ array_sort u (s_allItems (s_ u))) as [us sa].
  cbn [fst snd] in Hperm, Hcs, Hitems, HCs. apply toOriginalFormat_output in H.
  assert (Hsa : Permutation (map m_key sa) (map fst (s_collection (s_ u)))).
  { rewrite <- Hall. now apply Permutation_map. }
  assert (E : output_keys out = map m_key sa).
  { subst out.
    replace (s_allItems (s_ (on_s (set_allItems sa) us))) with sa
      by now destruct us as [[] ?].
    rewrite format_refs_keys.
    - apply listed_keys. intros Hk. apply Hproto. rewrite <- Hc.
      eapply Permutation_in; [exact Hsa | exact Hk].
    - apply con_sort_allItems; [exact HCs | now rewrite Hitems].
    - eapply Permutation_NoDup; [symmetry; exact Hsa | exact Hkeys].
    - intros m Hm.
      replace (s_collection (s_ (on_s (set_allItems sa) us)))
        with (s_collection (s_ us)) by now destruct us as [[] ?].
      rewrite Hcs. eapply Permutation_in; [exact Hsa|]. now apply in_map. }
  rewrite E, <- Hc. split; [exact Hsa|].
  eapply Permutation_NoDup; [symmetry; exact Hsa | exact Hkeys].
Qed.

(** X21: on every instance in use the stored search text has no white space at
    either end. *)
Theorem searchText_is_stored_trimmed :
  forall sl : Instance,
    Reachable array_sort sl ->
    trim (s_searchText (s_ sl)) = s_searchText (s_ sl).
Proof.
  intros sl HR. exact (con_text _ (Reachable_Consistent _ array_sort_permutes _ HR)).
Qed.

End Reads.

(** ** Sorting *)

Lemma updateConstraints_reordered c x f sl :
  updateConstraints_ (reordered c x f sl) = reordered c x f (updateConstraints_ sl).
Proof.
  destruct sl as [[? ? ? ? ? ? ? ? ? ? ? ? ? ready ? ? ?] []].
  unfold updateConstraints_, reordered. cbn. destruct ready; reflexivity.
Qed.

(** A search does not look at the order options. *)
Lemma performSearch_reordered c x f sl :
  performSearch_ (reordered c x f sl)
  = (r <- performSearch_ sl ;; Normal (reordered c x f r)).
Proof.
  rewrite !performSearch_eq. cbv zeta. unfold isConstrained. cbn [snd].
  rewrite updateConstraints_reordered.
  set (u := updateConstraints_ sl). clearbody u.
  replace (pass_scores (reordered c x f u)) with (pass_scores u)
    by (destruct u as [[] []]; apply pass_scores_ext; reflexivity).
  destruct (pass_scores u) as [ms|]; destruct u as [[] []]; cbn;
    match goal with |- context [if ?b then _ else _] => destruct b end;
    reflexivity.
Qed.

Lemma reordered_arrays c x f sl :
  matches_array (s_ (reordered c x f sl)) = matches_array (s_ sl)
  /\ s_searched (s_ (reordered c x f sl)) = s_searched (s_ sl).
Proof. destruct sl as [[] []]. split; reflexivity. Qed.

Lemma sorted_reordered sl :
  exists c, sorted sl = reordered c true (o_customSort (o_ sl)) sl.
Proof.
  destruct sl as [[? ? ? ? ? ? ? ? ? ? ? ? ? ? complete ? ?] [? ? ? sort ? ? ?]].
  unfold sorted, reordered. cbn.
  destruct sort; [exists complete | exists false]; reflexivity.
Qed.

Lemma unsorted_reordered sl :
  exists c, unsorted sl = reordered c false (o_customSort (o_ sl)) sl.
Proof.
  destruct sl as [[? ? ? ? ? ? ? ? ? ? ? ? ? ? complete ? ?] [? ? ? sort ? ? ?]].
  unfold unsorted, reordered. cbn.
  destruct sort; [exists false | exists complete]; reflexivity.
Qed.

Lemma sortUsing_reordered sl fn :
  sortUsing sl fn = reordered false (o_sort (o_ sl)) fn sl.
Proof. destruct sl as [[] []]. reflexivity. Qed.

Lemma matches_after_update total index lastIndex sm sl :
  matches_array
    (s_ (on_s (fun s =>
                 set_complete true
                   (set_lastIndex lastIndex
                      (set_index index (set_totalMatches total s))))
              (on_s (update_matches_array (fun _ => sm)) sl)))
  = sm.
Proof.
  destruct sl as [[ref ? ? ? ? ? ? ? ? ? ? ? ? ? ? ? ?] ?].
  unfold update_matches_array, matches_array. cbn. destruct ref; reflexivity.
Qed.

Section Sorting.

Variable array_sort : (Match -> Match -> value) -> list Match -> list Match.

Hypothesis array_sort_permutes :
  forall comparefn a, Permutation (array_sort comparefn a) a.

(** The full matches after an update: those stored, or those a search
    finds, in some order. *)
Lemma updateMatches_matches sl u :
  Inv sl -> updateMatches_ array_sort sl = Normal u ->
  (s_searched (s_ sl) = true ->
   Permutation (matches_array (s_ u)) (matches_array (s_ sl)))
  /\ (s_searched (s_ sl) = false ->
      exists r, performSearch_ sl = Normal r
                /\ Permutation (matches_array (s_ u)) (matches_array (s_ r))).
Proof.
  intros HI H. unfold updateMatches_ in H.
  destruct (s_complete (s_ sl)) eqn:Hc; cbn [bind negb] in H.
  - injection H as <-. pose proof (inv_complete _ HI Hc) as Hs.
    split; [reflexivity | congruence].
  - destruct (if negb (s_searched (s_ sl)) then performSearch_ sl else Normal sl)
      as [sl1|] eqn:H1; cbn [bind negb] in H; [|discriminate].
    pose proof (performSort_spec _ array_sort_permutes sl1 (matches_array (s_ sl1)))
      as [_ Hperm].
    destruct (performSort_ array_sort sl1 (matches_array (s_ sl1))) as [sl2 sm].
    cbn [snd] in Hperm. cbv zeta in H. injection H as <-.
    rewrite matches_after_update.
    destruct (s_searched (s_ sl)); cbn [negb] in H1.
    + injection H1 as <-. split; [intros _; exact Hperm | discriminate].
    + split; [discriminate|]. intros _. exists sl1. split; [exact H1 | exact Hperm].
Qed.

(** What [matches] returns under any order options: the matches the
    instance stores or, before a search has run, those a search finds. *)
Lemma matches_reordered c x f sl s1 out :
  Reachable array_sort (reordered c x f sl) ->
  get_matches array_sort (reordered c x f sl) = Normal (s1, out) ->
  let shown := listed (o_collectionType (o_ sl)) in
  (s_searched (s_ sl) = true ->
   Permutation (output_keys out)
               (filter shown (map m_key (matches_array (s_ sl)))))
  /\ (s_searched (s_ sl) = false ->
      exists r, performSearch_ sl = Normal r
                /\ Permutation (output_keys out)
                     (filter shown (map m_key (matches_array (s_ r))))).
Proof.
  intros HR H. unfold get_matches in H.
  destruct (updateMatches_ array_sort (reordered c x f sl)) as [u|] eqn:Hu;
    [|discriminate].
  cbn [bind] in H.
  destruct (updated_arrays _ array_sort_permutes _ _ HR Hu)
    as (HCu & _ & Ho & _ & _ & Hnd & Hin & _).
  apply toOriginalFormat_output in H. subst out.
  rewrite format_refs_keys; [| exact HCu | |].
  2: { rewrite map_app in Hnd. now apply NoDup_app_remove_r in Hnd. }
  2: { intros m Hm. apply Hin. apply in_or_app. now left. }
  replace (o_collectionType (o_ u)) with (o_collectionType (o_ sl))
    by (rewrite Ho; destruct sl as [? []]; reflexivity).
  pose proof (updateMatches_matches _ _
                (Reachable_Inv _ array_sort_permutes _ HR) Hu) as [Hs Hn].
  destruct (reordered_arrays c x f sl) as [Em Es]. rewrite Em, Es in *.
  cbv zeta. split.
  - intros Hsearched. apply filter_permutes, Permutation_map. now apply Hs.
  - intros Hsearched. destruct (Hn Hsearched) as (r' & Hr' & Hp).
    rewrite performSearch_reordered in Hr'.
    destruct (performSearch_ sl) as [r|]; cbn [bind] in Hr'; [|discriminate].
    injection Hr' as <-. exists r. split; [reflexivity|].
    apply filter_permutes, Permutation_map. rewrite Hp.
    now rewrite (proj1 (reordered_arrays c x f r)).
Qed.

(** X22: [sorted()], [unsorted()] and [sortUsing(fn)] change the order of what
    [matches] returns, never the items it returns. *)
Theorem order_options_only_reorder :
  forall (sl s1 s2 s3 : Instance) (fn : option SortCallback) (o1 o2 o3 : Output),
    Reachable array_sort sl ->
    get_matches array_sort (sorted sl) = Normal (s1, o1) ->
    get_matches array_sort (unsorted sl) = Normal (s2, o2) ->
    get_matches array_sort (sortUsing sl fn) = Normal (s3, o3) ->
    Permutation (output_keys o1) (output_keys o2)
    /\ Permutation (output_keys o3) (output_keys o2).
Proof.
  intros sl s1 s2 s3 fn o1 o2 o3 HR H1 H2 H3.
  assert (HRa : Reachable array_sort (sorted sl))
    by (eapply (reach_call _ CallSorted); [exact HR | reflexivity]).
  assert (HRb : Reachable array_sort (unsorted sl))
    by (eapply (reach_call _ CallUnsorted); [exact HR | reflexivity]).
  assert (HRc : Reachable array_sort (sortUsing sl fn))
    by (eapply (reach_call _ (CallSortUsing fn)); [exact HR | reflexivity]).
  destruct (sorted_reordered sl) as [ca Ea].
  destruct (unsorted_reordered sl) as [cb Eb].
  rewrite Ea in HRa, H1. rewrite Eb in HRb, H2.
  rewrite sortUsing_reordered in HRc, H3.
  destruct (matches_reordered _ _ _ _ _ _ HRa H1) as [Hsa Hna].
  destruct (matches_reordered _ _ _ _ _ _ HRb H2) as [Hsb Hnb].
  destruct (matches_reordered _ _ _ _ _ _ HRc H3) as [Hsc Hnc].
  destruct (s_searched (s_ sl)).
  - rewrite (Hsa eq_refl), (Hsb eq_refl), (Hsc eq_refl). split; reflexivity.
  - destruct (Hna eq_refl) as (ra & Hra & Hpa).
    destruct (Hnb eq_refl) as (rb & Hrb & Hpb).
    destruct (Hnc eq_refl) as (rc & Hrc & Hpc).
    rewrite Hra in Hrb, Hrc. injection Hrb as <-. injection Hrc as <-.
    rewrite Hpa, Hpb, Hpc. split; reflexivity.
Qed.

(** X23: no method changes the base threshold: on every instance in use it is
    0, and the threshold [updateConstraints_] leaves is the number of filters,
    plus 1 when there is a search text. *)
Theorem baseThreshold_stays_zero :
  forall sl : Instance,
    Reachable array_sort sl ->
    o_baseThreshold (o_ sl) = 0
    /\ s_threshold (s_ (updateConstraints_ sl))
       = Z.of_nat (List.length (s_filters (s_ sl)))
         + (if (s_searchText (s_ sl) =? "")%string then 0 else 1).
Proof.
  intros sl HR.
  pose proof (Reachable_Inv _ array_sort_permutes _ HR) as HI.
  split; [exact (inv_base _ HI)|].
  pose proof (updateConstraints_Inv _ HI) as HU.
  destruct (inv_ready _ HU (updateConstraints_ready sl)) as [Hterms ->].
  pose proof (updateConstraints_frame sl) as (Ho & _ & Ht & Hf & _).
  cbv zeta in Ho, Ht, Hf. rewrite Ho, (inv_base _ HI), Hf. rewrite Ht in Hterms.
  cbn [Z.add]. f_equal.
  destruct (String.eqb_spec (s_searchText (s_ sl)) "") as [E | E].
  - now rewrite (proj2 Hterms E).
  - destruct (s_searchTerms (s_ (updateConstraints_ sl))); [|reflexivity].
    exfalso. apply E. now apply Hterms.
Qed.

End Sorting.

(** ** Sorting under the host [stable_sort] *)

Lemma sort_order_negative x y :
  sort_order sortComparator_ x y < 0 <-> m_relevance y < m_relevance x.
Proof.
  unfold sort_order, sortComparator_.
  destruct (Z.gtb_spec (m_relevance y) (m_relevance x)); cbn; [lia|].
  destruct (Z.eqb_spec (m_relevance y) (m_relevance x)); cbn; [|lia].
  destruct (lt _ _); cbn; lia.
Qed.

Lemma insert_sorted_by_relevance x l :
  Sorted.StronglySorted (fun a b => m_relevance b <= m_relevance a) l ->
  Sorted.StronglySorted (fun a b => m_relevance b <= m_relevance a)
    (insert_sorted sortComparator_ x l).
Proof.
  induction 1 as [|y l Hsorted IH Hall]; cbn.
  - constructor; constructor.
  - destruct (Z.ltb_spec (sort_order sortComparator_ x y) 0) as [Hneg | Hnonneg].
    + apply sort_order_negative in Hneg. constructor.
      * now constructor.
      * constructor; [lia|]. rewrite Forall_forall in *. intros z Hz.
        specialize (Hall z Hz). cbn in Hall. lia.
    + assert (Hle : m_relevance x <= m_relevance y).
      { destruct (Z.lt_ge_cases (m_relevance y) (m_relevance x)) as [Hlt | Hge];
          [|lia].
        apply sort_order_negative in Hlt. lia. }
      constructor; [exact IH|]. rewrite Forall_forall in *. intros z Hz.
      apply (Permutation_in _ (insert_sorted_permutes sortComparator_ x l)) in Hz.
      destruct Hz as [<- | Hz]; [exact Hle | now apply Hall].
Qed.

Lemma stable_sort_by_relevance l :
  Sorted.StronglySorted (fun a b => m_relevance b <= m_relevance a)
    (stable_sort sortComparator_ l).
Proof.
  unfold stable_sort.
  assert (G : forall acc,
             Sorted.StronglySorted (fun a b => m_relevance b <= m_relevance a) acc ->
             Sorted.StronglySorted (fun a b => m_relevance b <= m_relevance a)
               (fold_left (fun acc x => insert_sorted sortComparator_ x acc) l acc)).
  { induction l as [|x l IH]; intros acc Hacc; cbn; [exact Hacc|].
    apply IH. now apply insert_sorted_by_relevance. }
  apply G. constructor.
Qed.

(** X24: under the host [stable_sort], with sorting on, a constraint set and no
    comparator of the caller, [performSort_] rearranges an array into
    non-increasing relevance. *)
Theorem stable_host_sorts_by_relevance :
  forall (sl : Instance) (a : list Match),
    o_sort (o_ sl) = true ->
    o_customSort (o_ sl) = None ->
    snd (isConstrained sl) = true ->
    Sorted.StronglySorted (fun x y => m_relevance y <= m_relevance x)
      (snd (performSort_ stable_sort sl a))
    /\ Permutation (snd (performSort_ stable_sort sl a)) a.
Proof.
  intros sl a Hsort Hcustom Hcon. split; [|apply performSort_spec, stable_sort_permutes].
  unfold performSort_. rewrite Hsort.
  pose proof (updateConstraints_frame sl) as (Ho & _). cbv zeta in Ho.
  unfold isConstrained in *. cbn [snd] in Hcon. rewrite Hcon. cbn [andb].
  destruct a as [|m a]; cbn [List.length Nat.eqb negb].
  - rewrite Ho, Hcustom. constructor.
  - rewrite Ho, Hcustom. cbn [snd]. apply stable_sort_by_relevance.
Qed.

(** ** Adding a search text *)

Lemma trim_start_trim s : trim_start (trim s) = trim s.
Proof.
  unfold trim. destruct (trim_start_head s) as [-> | (c & r & -> & Hc)]; [reflexivity|].
  cbn. rewrite Hc. cbn. now rewrite Hc.
Qed.

Lemma trim_end_trim s : trim_end (trim s) = trim s.
Proof. unfold trim. apply trim_end_idem. Qed.

Lemma trim_start_app x y :
  trim_start x = x -> x <> "" -> trim_start (x ++ y) = x ++ y.
Proof.
  destruct x as [|c x]; [congruence|]. cbn. intros H _.
  destruct (is_space c); [|reflexivity].
  exfalso. assert (Hlen : forall s, (String.length (trim_start s) <= String.length s)%nat).
  { clear. induction s as [|d s IH]; cbn; [lia|]. destruct (is_space d); cbn; lia. }
  specialize (Hlen x). rewrite H in Hlen. cbn in Hlen. lia.
Qed.

Lemma trim_end_app x y :
  trim_end y = y -> y <> "" -> trim_end (x ++ y) = x ++ y.
Proof.
  intros Hy Hne. induction x as [|c x IH]; cbn; [exact Hy|].
  rewrite IH. destruct (x ++ y) eqn:E.
  - destruct x; cbn in E; [congruence | discriminate].
  - cbn. now rewrite andb_false_r.
Qed.

Lemma toLowerCase_app a b :
  toLowerCase (a ++ b) = toLowerCase a ++ toLowerCase b.
Proof. induction a as [|c a IH]; cbn; [reflexivity | now rewrite IH]. Qed.

Lemma split_from_space_app cur x y :
  split_from " " 0 cur (x ++ String " " y)
  = (split_from " " 0 cur x ++ split_from " " 0 "" y)%list.
Proof.
  revert cur. induction x as [|c x IH]; intros cur.
  - cbn [append split_from]. rewrite prefix_space. reflexivity.
  - cbn [append split_from]. rewrite !prefix_space.
    destruct (Ascii.eqb c " "); cbn [String.length Nat.sub];
      rewrite IH; reflexivity.
Qed.

Lemma trim_joined old text :
  trim old = old -> old <> "" -> trim text = text -> text <> "" ->
  trim_end (trim_start (old ++ String " " text)) = old ++ String " " text.
Proof.
  intros Hold Hnonempty Htrim Hne.
  assert (Hos : trim_start old = old) by (rewrite <- Hold; apply trim_start_trim).
  assert (Hte : trim_end text = text) by (rewrite <- Htrim; apply trim_end_trim).
  rewrite (trim_start_app _ _ Hos Hnonempty).
  apply trim_end_app; [|discriminate].
  cbn. rewrite Hte. apply String.eqb_neq in Hne. now rewrite Hne.
Qed.

Section Adding.

Variable array_sort : (Match -> Match -> value) -> list Match -> list Match.

Hypothesis array_sort_permutes :
  forall comparefn a, Permutation (array_sort comparefn a) a.

(** X25: [.and(text)] with a trimmed, non-empty text appends: the stored text
    becomes the old one, a space and the new one, and the search terms are
    the old terms followed by the terms of the new text (the new text and its
    terms alone when there was no text). *)
Theorem and_appends_the_search_terms :
  forall (sl sl' : Instance) (text : string),
    Reachable array_sort sl ->
    trim text = text ->
    text <> "" ->
    and_ sl (VStr text) = Normal sl' ->
    (s_searchText (s_ sl) = "" ->
     s_searchText (s_ sl') = text
     /\ s_searchTerms (s_ (updateConstraints_ sl')) = terms_of sl text)
    /\ (s_searchText (s_ sl) <> "" ->
        s_searchText (s_ sl') = s_searchText (s_ sl) ++ " " ++ text
        /\ s_searchTerms (s_ (updateConstraints_ sl'))
           = (terms_of sl (s_searchText (s_ sl)) ++ terms_of sl text)%list).
Proof.
  intros sl sl' text HR Htrim Hne H.
  pose proof (con_text _ (Reachable_Consistent _ array_sort_permutes _ HR)) as Hold.
  unfold and_ in H. cbn [typeof String.eqb to_string] in H. cbn in H.
  injection H as <-.
  assert (Hts : trim_start text = text) by (rewrite <- Htrim; apply trim_start_trim).
  assert (Hte : trim_end text = text) by (rewrite <- Htrim; apply trim_end_trim).
  assert (Hfold : forall x, (x =? "")%string = false ->
            ((if o_case (o_ sl) then x else toLowerCase x) =? "")%string = false).
  { intros x Hx. destruct (o_case (o_ sl)); [exact Hx|]. now rewrite toLowerCase_empty. }
  destruct sl as [[? ? ? old ? ? ? ? ? ? ? ? ? ? ? ? ?] o]. cbn in Hold |- *.
  unfold updateConstraints_, terms_of. cbn.
  split.
  - intros ->. cbn. rewrite Hts, Hte.
    apply String.eqb_neq in Hne. rewrite Hne. split; reflexivity.
  - intros Hnonempty.
    rewrite (trim_joined old text Hold Hnonempty Htrim Hne).
    split; [reflexivity|].
    assert (Hnew : (old ++ String " " text =? "")%string = false)
      by (destruct old; [congruence | reflexivity]).
    rewrite Hnew. unfold split.
    destruct (o_case o).
    + destruct (old ++ String " " text) eqn:Happ; [discriminate|]. rewrite <- Happ.
      apply split_from_space_app.
    + rewrite toLowerCase_app. cbn [toLowerCase].
      change (lower_char " ") with " "%char.
      destruct (toLowerCase old ++ String " " (toLowerCase text)) eqn:Happ;
        [destruct (toLowerCase old); discriminate|].
      rewrite <- Happ. apply split_from_space_app.
Qed.

End Adding.

(** ** The order of the results *)

Lemma map_filter_keys {A B} (f : A -> B) (q : A -> bool) (keep : B -> bool) l :
  (forall x, In x l -> keep (f x) = q x) ->
  map f (filter q l) = filter keep (map f l).
Proof.
  induction l as [|x l IH]; intros H; [reflexivity|].
  cbn. rewrite (H x (or_introl eq_refl)).
  rewrite <- IH by (intros y Hy; apply H; now right).
  destruct (q x); reflexivity.
Qed.

Lemma filter_twice {A : Type} (p q : A -> bool) l :
  filter q (filter p l) = filter (fun x => p x && q x) l.
Proof.
  induction l as [|x l IH]; cbn; [reflexivity|].
  destruct (p x); cbn; [destruct (q x)|]; now rewrite IH.
Qed.

Lemma filter_by_key (q : Match -> bool) l :
  NoDup (map m_key l) ->
  exists keep : Key -> bool,
    map m_key (filter q l) = filter keep (map m_key l).
Proof.
  intros Hnd.
  exists (fun k => existsb (fun m => q m && key_eqb (m_key m) k) l).
  apply map_filter_keys. intros x Hx.
  destruct (q x) eqn:Hq.
  - apply existsb_exists. exists x. split; [exact Hx|].
    now rewrite Hq, key_eqb_refl.
  - destruct (existsb _ l) eqn:E; [|reflexivity].
    apply existsb_exists in E. destruct E as (m & Hm & Hqm).
    apply andb_true_iff in Hqm. destruct Hqm as [Hqm Hk].
    apply key_eqb_eq in Hk.
    rewrite (NoDup_map_injective m_key l m x Hnd Hm Hx Hk) in Hqm. congruence.
Qed.

Section Order.

Variable array_sort : (Match -> Match -> value) -> list Match -> list Match.

Hypothesis array_sort_permutes :
  forall comparefn a, Permutation (array_sort comparefn a) a.

(** X26: before any search has run, with sorting off and no comparator of the
    caller, [matches] returns its items in the order of the collection. *)
Theorem unsorted_matches_keep_collection_order :
  forall (sl s1 : Instance) (out : Output),
    Reachable array_sort sl ->
    s_searched (s_ sl) = false ->
    o_sort (o_ sl) = false ->
    o_customSort (o_ sl) = None ->
    get_matches array_sort sl = Normal (s1, out) ->
    exists keep : Key -> bool,
      output_keys out = filter keep (map fst (s_collection (s_ sl))).
Proof.
  intros sl s1 out HR Hs Hsort Hcustom H.
  pose proof (Reachable_Inv _ array_sort_permutes _ HR) as HI.
  unfold get_matches in H.
  destruct (updateMatches_ array_sort sl) as [u|] eqn:Hu; [|discriminate].
  cbn [bind] in H.
  destruct (updated_arrays _ array_sort_permutes _ _ HR Hu)
    as (HCu & Hc & _ & _ & _ & Hnd & Hin & _).
  apply toOriginalFormat_output in H. subst out.
  rewrite format_refs_keys; [| exact HCu | |].
  2: { rewrite map_app in Hnd. now apply NoDup_app_remove_r in Hnd. }
  2: { intros m Hm. apply Hin. apply in_or_app. now left. }
  generalize (listed (o_collectionType (o_ u))) as shown. intros shown.
  unfold updateMatches_ in Hu.
  assert (Hcomplete : s_complete (s_ sl) = false).
  { destruct (s_complete (s_ sl)) eqn:E; [|reflexivity].
    pose proof (inv_complete _ HI E). congruence. }
  rewrite Hcomplete, Hs in Hu. cbn [negb bind] in Hu.
  destruct (performSearch_ sl) as [r|] eqn:Hr; cbn [bind] in Hu; [|discriminate].
  pose proof (performSearch_result _ _ HI Hr) as (_ & _ & Hkeys & Hall & Hcase).
  cbv zeta in Hkeys, Hall, Hcase.
  pose proof (performSearch_setup _ _ Hr) as [Ho Hcoll _ _ _ _ _].
  assert (Hsame : snd (performSort_ array_sort r (matches_array (s_ r)))
                  = matches_array (s_ r)).
  { unfold performSort_. rewrite Ho, Hsort. cbn [fst snd].
    rewrite Ho, Hcustom. reflexivity. }
  destruct (performSort_ array_sort r (matches_array (s_ r))) as [r2 sm].
  cbn [snd] in Hsame. subst sm. cbv zeta in Hu. injection Hu as <-.
  rewrite matches_after_update. rewrite <- Hcoll, <- Hall.
  assert (Hnda : NoDup (map m_key (s_allItems (s_ r)))) by now rewrite Hall.
  destruct Hcase as [(_ & -> & _) | (_ & _ & _ & -> & _)].
  - destruct (filter_by_key (is_full (s_threshold (s_ r))) _ Hnda) as [keep ->].
    exists (fun k => keep k && shown k). apply filter_twice.
  - exists shown. reflexivity.
Qed.

End Order.

(** ** The subject of an object *)

Lemma append_assoc3 a b c : (a ++ b) ++ c = a ++ (b ++ c).
Proof. induction a as [|x a IH]; cbn; [reflexivity | now rewrite IH]. Qed.

Lemma fold_reduceProperties_object props l subject :
  NoDup (map fst props) -> incl l props ->
  fold_c (reduceProperties_ (VObj props)) (map fst l) subject
  = if existsb (fun p => unconvertible (snd p)) l
    then Throw conversion_error
    else Normal (subject
                 ++ fold_right (fun p rest => "|" ++ to_string (snd p) ++ rest)
                      "" l).
Proof.
  intros Hnd. revert subject. induction l as [|[k v] l IH]; intros subject Hincl.
  - cbn. now rewrite append_empty_r.
  - cbn [map fst snd fold_c existsb]. unfold reduceProperties_ at 1.
    rewrite (get_ok (VObj props) (VStr k) eq_refl eq_refl).
    cbn [own_property to_string].
    rewrite (assoc_In k v props Hnd) by (apply Hincl; now left).
    cbn [bind]. unfold to_string_c, converting. rewrite existsb_one.
    destruct (unconvertible v); cbn [bind orb]; [reflexivity|].
    rewrite IH by (intros e He; apply Hincl; now right).
    destruct (existsb _ l); [reflexivity|].
    cbn [fold_right snd]. now rewrite append_assoc3.
Qed.

(** X27: without restricted keys, the subject of an object item with distinct
    property names is the text of each of its property values in order, each
    preceded by ['|'], provided every value converts to a primitive;
    otherwise building the subject raises. *)
Theorem object_subject_lists_every_property :
  forall (sl : Instance) (props : list (string * value)),
    s_keys (s_ sl) = [] ->
    NoDup (map fst props) ->
    subject_of sl (VObj props)
    = if existsb (fun p => unconvertible (snd p)) props
      then Throw conversion_error
      else Normal (fold_right (fun p rest => "|" ++ to_string (snd p) ++ rest)
                     "" props).
Proof.
  intros sl props Hkeys Hnd. unfold subject_of. rewrite Hkeys.
  cbn [typeof String.eqb Ascii.eqb Bool.eqb List.length Nat.eqb negb Js.keys bind].
  cbn. now rewrite (fold_reduceProperties_object props props "" Hnd (incl_refl _)).
Qed.

(** X9: a [performSearch_] that returns had no constraint to apply or met no
    item that is [null] or [undefined]; it does return when there is no
    constraint, and also when no item is [null] or [undefined] and no
    conversion raises; it raises when, with a constraint set and no
    restricted key, an item is an object one of whose property values
    cannot be converted to a primitive; and when it raises, it raises a
    [TypeError]. *)
Theorem search_raises_only_TypeErrors :
  forall sl : Instance,
    ((exists sl', performSearch_ sl = Normal sl') ->
     snd (isConstrained sl) = false \/ scorable (s_collection (s_ sl)))
    /\ (snd (isConstrained sl) = false ->
        exists sl', performSearch_ sl = Normal sl')
    /\ (scorable (s_collection (s_ sl)) -> Convertible sl ->
        exists sl', performSearch_ sl = Normal sl')
    /\ (snd (isConstrained sl) = true -> s_keys (s_ sl) = [] ->
        forall k props,
          In (k, VObj props) (s_collection (s_ sl)) ->
          NoDup (map fst props) ->
          existsb (fun p => unconvertible (snd p)) props = true ->
          exists msg, performSearch_ sl = Throw (TypeError msg))
    /\ (forall e, performSearch_ sl = Throw e -> exists msg, e = TypeError msg).
Proof.
  intros sl.
  assert (Hthrows : forall e, performSearch_ sl = Throw e ->
                              exists msg, e = TypeError msg).
  { intros e H. rewrite performSearch_eq in H. cbv zeta in H.
    destruct (snd (isConstrained sl)); [|discriminate].
    destruct (pass_scores _) eqn:Hms; cbn [bind] in H; [discriminate|].
    injection H as <-. revert Hms. unfold pass_scores.
    apply (map_c_throws _ (fun e => exists msg, e = TypeError msg)).
    intros x e1. apply score_throws. }
  split; [|split; [|split; [|split]]].
  - intros [sl' H]. rewrite performSearch_eq in H. cbv zeta in H.
    destruct (snd (isConstrained sl)); [right | now left].
    destruct (scorable_dec (s_collection (s_ sl))) as [Hs | (e & He & Hn)];
      [exact Hs | exfalso].
    pose proof (updateConstraints_frame sl) as (_ & Hc & _).
    destruct (pass_scores _) as [ms|] eqn:Hms; cbn [bind] in H; [|discriminate].
    unfold pass_scores in Hms. rewrite Hc in Hms.
    destruct (map_c_each _ _ _ e Hms He) as [m Hm].
    destruct (score_nullish (updateConstraints_ sl) (snd e) (fst e) Hn) as [msg Hmsg].
    congruence.
  - intros Hun. rewrite performSearch_eq. cbv zeta. rewrite Hun. eauto.
  - apply performSearch_defined.
  - intros Hcon Hkeys k props Hin Hnd Hbad.
    assert (Hraise : exists e, performSearch_ sl = Throw e).
    { rewrite performSearch_eq. cbv zeta. rewrite Hcon.
      pose proof (updateConstraints_frame sl) as (_ & Hc & _). cbv zeta in Hc.
      set (u := updateConstraints_ sl) in *.
      assert (Hku : s_keys (s_ u) = [])
        by (subst u; destruct sl as [[? ? ? ? ? ? ? ? ? ? ? ? ? ready ? ? ?] ?];
            unfold updateConstraints_; cbn in *; destruct ready; exact Hkeys).
      destruct (map_c_raises (fun e => score u (snd e) (fst e))
                  (s_collection (s_ u)) (k, VObj props)) as [e He].
      - rewrite Hc. exact Hin.
      - cbn [fst snd]. unfold score.
        destruct (fold_c _ _ _); cbn [bind]; [|eauto].
        unfold subject_of. rewrite Hku.
        cbn [typeof String.eqb Ascii.eqb Bool.eqb List.length Nat.eqb negb
             Js.keys bind].
        cbn. rewrite (fold_reduceProperties_object props props "" Hnd (incl_refl _)),
          Hbad. cbn. eauto.
      - unfold pass_scores. rewrite He. cbn. eauto. }
    destruct Hraise as [e He]. destruct (Hthrows e He) as [msg ->]. eauto.
  - exact Hthrows.
Qed.

(** ** The promise *)

Lemma updateConstraints_settled all full part sl :
  updateConstraints_ (with_arrays all full part (updateConstraints_ sl))
  = with_arrays all full part (updateConstraints_ sl).
Proof.
  destruct sl as [[? ? ? ? ? ? ? ? ? ? ? ? ? ready ? ? ?] o].
  unfold updateConstraints_, with_arrays. cbn. destruct ready; reflexivity.
Qed.

Lemma pass_scores_with_arrays all full part sl :
  pass_scores (with_arrays all full part sl) = pass_scores sl.
Proof.
  unfold pass_scores.
  replace (s_collection (s_ (with_arrays all full part sl)))
    with (s_collection (s_ sl)) by (destruct sl as [[] o]; reflexivity).
  apply map_c_ext. intros e _. apply score_with_arrays.
Qed.

(** A search that raised raises again when it is run on the instance it
    left behind. *)
Lemma interrupted_search_raises_again sl e :
  performSearch_ sl = Throw e ->
  performSearch_ (performSearch_interrupted sl) = Throw e.
Proof.
  intros H. rewrite performSearch_eq in H. cbv zeta in H.
  destruct (performSearch_interrupted_eq sl) as (l1 & l2 & ms & _ & _ & ->).
  cbv zeta. destruct (snd (isConstrained sl)) eqn:Hcon; [|discriminate].
  destruct (pass_scores (updateConstraints_ sl)) as [|e1] eqn:Hp;
    cbn [bind] in H; [discriminate|].
  injection H as ->.
  rewrite performSearch_eq. cbv zeta.
  unfold isConstrained in Hcon |- *. cbn [snd] in Hcon |- *.
  rewrite updateConstraints_settled, pass_scores_with_arrays, Hp.
  replace (s_searchTerms (s_ (with_arrays _ _ _ (updateConstraints_ sl))))
    with (s_searchTerms (s_ (updateConstraints_ sl)))
    by (destruct (updateConstraints_ sl) as [[] o]; reflexivity).
  replace (s_filters (s_ (with_arrays _ _ _ (updateConstraints_ sl))))
    with (s_filters (s_ (updateConstraints_ sl)))
    by (destruct (updateConstraints_ sl) as [[] o]; reflexivity).
  rewrite Hcon. reflexivity.
Qed.

Section Promise.

Variable array_sort : (Match -> Match -> value) -> list Match -> list Match.

Hypothesis array_sort_permutes :
  forall comparefn a, Permutation (array_sort comparefn a) a.

(** X28: when the search raises, [then] rejects its promise with the
    exception and gives back an instance on which the results are still to
    be computed, so that the next read raises the same exception; when no
    item is [null] or [undefined], no conversion raises and no error is
    recorded, the search returns, the results are complete and the promise
    is fulfilled with an object whose getters are named [matches],
    [partialMatchess] and [allMatchess]. *)
Theorem then_settles_without_raising :
  forall sl : Instance,
    (forall e, updateMatches_ array_sort sl = Throw e ->
       let left := fst (then_ array_sort sl) in
       snd (then_ array_sort sl) = Rejected e
       /\ s_complete (s_ left) = false
       /\ s_searched (s_ left) = false
       /\ updateMatches_ array_sort left = Throw e)
    /\ (scorable (s_collection (s_ sl)) -> Convertible sl ->
        s_error (s_ sl) = false ->
        exists u,
          then_ array_sort sl
          = (u, Fulfilled ["matches"; "partialMatchess"; "allMatchess"])
          /\ updateMatches_ array_sort sl = Normal u
          /\ s_complete (s_ u) = true).
Proof.
  intros sl. split.
  - intros e Hu. cbv zeta. unfold then_. rewrite Hu. cbn [fst snd].
    destruct (updateMatches_throws _ _ _ Hu) as (Hc & Hs & Hp).
    pose proof (interrupted_search_raises_again _ _ Hp) as Hagain.
    pose proof (updateConstraints_frame sl)
      as (_ & _ & _ & _ & _ & _ & _ & Hcu & Hsu & _).
    cbv zeta in Hcu, Hsu.
    assert (Hleft : s_complete (s_ (performSearch_interrupted sl)) = false
                    /\ s_searched (s_ (performSearch_interrupted sl)) = false).
    { destruct (performSearch_interrupted_eq sl) as (l1 & l2 & ms & _ & _ & ->).
      cbv zeta. rewrite <- Hcu in Hc. rewrite <- Hsu in Hs.
      destruct (snd (isConstrained sl)); [|split; assumption].
      destruct (updateConstraints_ sl) as [[] o]. split; assumption. }
    destruct Hleft as [Hcl Hsl].
    repeat split; try assumption.
    unfold updateMatches_. rewrite Hcl, Hsl. cbn [negb]. rewrite Hagain.
    reflexivity.
  - intros Hs Hq Herr.
    destruct (updateMatches_defined array_sort sl
                (performSearch_defined sl Hs Hq)) as [u Hu].
    destruct (updateMatches_setup _ array_sort_permutes _ _ Hu)
      as [[_ _ _ _ _ He _] Hcomplete].
    exists u. unfold then_. rewrite Hu, He, Herr. auto.
Qed.

End Promise.

(** ** The further properties at concrete instances *)

Lemma numbered_Reachable : Reachable stable_sort numbered.
Proof.
  apply (use_Reachable _ (VObj [("a", VObj [("n", VNum 1)]);
                                ("b", VObj [("n", VNum 5)]);
                                ("c", VObj [("n", VNum 10)])])
                         [CallFor (VArr [VStr "n"; VStr ">="; VNum 5])]).
  vm_compute. reflexivity.
Qed.

Lemma mixed_Reachable : Reachable stable_sort mixed.
Proof.
  apply (use_Reachable _ (VArr [VObj [("n", VNum 1); ("t", VStr "x")];
                                VObj [("n", VNum 2); ("t", VStr "x")]])
                         [CallFor (VStr "x");
                          CallAnd (VArr [VStr "n"; VStr "=="; VNum 1])]).
  vm_compute. reflexivity.
Qed.

Lemma graded_Reachable : Reachable stable_sort graded.
Proof.
  apply (use_Reachable _ (VArr [VStr "a"; VStr "aa"]) [CallFor (VStr "a")]).
  vm_compute. reflexivity.
Qed.

Lemma plain_with_stats_Reachable : Reachable stable_sort plain_with_stats.
Proof.
  apply (use_Reachable _ (VArr [VStr "a"]) [CallWithStats VUndefined]).
  vm_compute. reflexivity.
Qed.

Lemma mistyped_Reachable : Reachable stable_sort mistyped.
Proof.
  apply (use_Reachable _ (VArr [VObj [("n", VNum 1)]])
                         [CallFor (VArr [VStr "n"; VStr "=>"; VNum 1])]).
  vm_compute. reflexivity.
Qed.

Lemma unconstrained_search_returns_the_object_witness :
  NoDup (map fst [("a", VNum 1); ("b", VStr "x")])
  /\ ~ In "hasOwnProperty" (map fst [("a", VNum 1); ("b", VStr "x")])
  /\ ~ In "__proto__" (map fst [("a", VNum 1); ("b", VStr "x")])
  /\ exists sl,
       search (VObj [("a", VNum 1); ("b", VStr "x")]) = Normal sl
       /\ observe (read stable_sort ViewMatches sl)
          = Normal (VObj [("a", VNum 1); ("b", VStr "x")]).
Proof.
  assert (Hnd : NoDup (map fst [("a", VNum 1); ("b", VStr "x")])).
  { cbn. repeat constructor; cbn; intuition discriminate. }
  assert (Hhas : ~ In "hasOwnProperty" (map fst [("a", VNum 1); ("b", VStr "x")])).
  { cbn. intuition discriminate. }
  assert (Hproto : ~ In "__proto__" (map fst [("a", VNum 1); ("b", VStr "x")])).
  { cbn. intuition discriminate. }
  split; [exact Hnd|]. split; [exact Hhas|]. split; [exact Hproto|].
  destruct (unconstrained_search_returns_the_object stable_sort
              [("a", VNum 1); ("b", VStr "x")] Hnd Hhas Hproto) as (sl & Hs & Hr).
  exists sl. split; [exact Hs | exact (proj1 (Hr ViewMatches))].
Defined.

Lemma filters_only_full_match_passes_every_filter_witness :
  Reachable stable_sort numbered
  /\ performSearch_ numbered = Normal numbered_searched
  /\ s_searchTerms (s_ numbered_searched) = []
  /\ In (mkMatch (KName "b") 1 "") (matches_array (s_ numbered_searched))
  /\ m_relevance (mkMatch (KName "b") 1 "")
     = Z.of_nat (List.length (s_filters (s_ numbered_searched))).
Proof.
  split; [exact numbered_Reachable|]. split; [reflexivity|]. split; [reflexivity|].
  assert (Hin : In (mkMatch (KName "b") 1 "") (matches_array (s_ numbered_searched)))
    by (left; reflexivity).
  split; [exact Hin|].
  exact (proj1 (proj1 (filters_only_full_match_passes_every_filter stable_sort
                         stable_sort_permutes numbered numbered_searched
                         numbered_Reachable eq_refl eq_refl)
                      (mkMatch (KName "b") 1 "") Hin)).
Defined.

Lemma unknown_operator_excludes_every_item_witness :
  Reachable stable_sort mistyped
  /\ performSearch_ mistyped = Normal mistyped_searched
  /\ s_searchTerms (s_ mistyped_searched) = []
  /\ In (mkFilter (VStr "n") (VStr "=>") (VNum 1)) (s_filters (s_ mistyped_searched))
  /\ known_operator (VStr "=>") = false
  /\ matches_array (s_ mistyped_searched) = [].
Proof.
  split; [exact mistyped_Reachable|]. split; [reflexivity|]. split; [reflexivity|].
  assert (Hin : In (mkFilter (VStr "n") (VStr "=>") (VNum 1))
                   (s_filters (s_ mistyped_searched))) by (left; reflexivity).
  split; [exact Hin|]. split; [reflexivity|].
  exact (unknown_operator_excludes_every_item stable_sort stable_sort_permutes
           mistyped mistyped_searched _ mistyped_Reachable eq_refl eq_refl Hin eq_refl).
Defined.

Lemma text_only_search_has_no_partial_match_witness :
  Reachable stable_sort apples
  /\ performSearch_ apples = Normal apples_searched
  /\ s_filters (s_ apples_searched) = []
  /\ ~ In "" (s_searchTerms (s_ apples_searched))
  /\ s_partial (s_ apples_searched) = [].
Proof.
  split; [exact apples_Reachable|]. split; [reflexivity|]. split; [reflexivity|].
  assert (Hne : ~ In "" (s_searchTerms (s_ apples_searched)))
    by (cbn; intuition discriminate).
  split; [exact Hne|].
  exact (proj1 (text_only_search_has_no_partial_match stable_sort stable_sort_permutes
                  apples apples_searched apples_Reachable eq_refl eq_refl Hne)).
Defined.

Lemma searchText_is_stored_trimmed_witness :
  Reachable stable_sort apples
  /\ trim (s_searchText (s_ apples)) = "apple".
Proof.
  split; [exact apples_Reachable|].
  exact (searchText_is_stored_trimmed stable_sort stable_sort_permutes apples
           apples_Reachable).
Defined.

Lemma searchTerms_rejoin_to_searchText_witness :
  s_ready (s_ apples) = false
  /\ String.concat " " (s_searchTerms (s_ (updateConstraints_ apples))) = "apple".
Proof.
  split; [reflexivity|].
  exact (proj1 (searchTerms_rejoin_to_searchText apples eq_refl)).
Defined.

Lemma case_of_text_item_is_ignored_witness :
  o_case (o_ apples_searched) = false
  /\ score apples_searched (VStr "Apple Pie") (KIndex 0)
     = score apples_searched (VStr "apple pie") (KIndex 0).
Proof.
  split; [reflexivity|].
  exact (case_of_text_item_is_ignored apples_searched "Apple Pie" (KIndex 0) eq_refl).
Defined.

Lemma case_of_search_text_is_ignored_witness :
  o_case (o_ desserts) = false
  /\ exists a b,
       for_ desserts (VStr "Apple") = Normal a
       /\ for_ desserts (VStr "apple") = Normal b
       /\ s_searchTerms (s_ (updateConstraints_ a))
          = s_searchTerms (s_ (updateConstraints_ b)).
Proof.
  split; [reflexivity|].
  assert (Ha : exists a, for_ desserts (VStr "Apple") = Normal a)
    by (eexists; reflexivity).
  assert (Hb : exists b, for_ desserts (VStr "apple") = Normal b)
    by (eexists; reflexivity).
  destruct Ha as [a Ha]. destruct Hb as [b Hb].
  exists a, b. split; [exact Ha|]. split; [exact Hb|].
  exact (proj1 (case_of_search_text_is_ignored desserts a b "Apple" eq_refl Ha Hb)).
Defined.

Lemma length_counts_the_matches_witness :
  Reachable stable_sort numbered
  /\ ~ In (KName "__proto__") (map fst (s_collection (s_ numbered)))
  /\ exists s1 s2 out,
       get_length stable_sort numbered = Normal (s1, 2)
       /\ get_matches stable_sort numbered = Normal (s2, out)
       /\ 2 = Z.of_nat (List.length (output_keys out)).
Proof.
  split; [exact numbered_Reachable|].
  assert (Hproto : ~ In (KName "__proto__") (map fst (s_collection (s_ numbered)))).
  { cbn. intuition discriminate. }
  split; [exact Hproto|].
  assert (Hl : exists s1, get_length stable_sort numbered = Normal (s1, 2))
    by (eexists; vm_compute; reflexivity).
  assert (Hm : exists s2 out, get_matches stable_sort numbered = Normal (s2, out))
    by (do 2 eexists; vm_compute; reflexivity).
  destruct Hl as [s1 Hl]. destruct Hm as (s2 & out & Hm).
  exists s1, s2, out. split; [exact Hl|]. split; [exact Hm|].
  exact (length_counts_the_matches stable_sort stable_sort_permutes
           numbered s1 s2 2 out numbered_Reachable Hproto Hl Hm).
Defined.

Lemma allMatches_joins_matches_and_partialMatches_witness :
  Reachable stable_sort mixed
  /\ exists s1 s2 s3 all,
       get_matches stable_sort mixed = Normal (s1, OutArray [KIndex 0])
       /\ get_partialMatches stable_sort mixed = Normal (s2, OutArray [KIndex 1])
       /\ get_allMatches stable_sort mixed = Normal (s3, all)
       /\ Permutation (output_keys all) [KIndex 0; KIndex 1].
Proof.
  split; [exact mixed_Reachable|].
  assert (Hf : exists s1, get_matches stable_sort mixed
                          = Normal (s1, OutArray [KIndex 0]))
    by (eexists; vm_compute; reflexivity).
  assert (Hp : exists s2, get_partialMatches stable_sort mixed
                          = Normal (s2, OutArray [KIndex 1]))
    by (eexists; vm_compute; reflexivity).
  assert (Ha : exists s3 all, get_allMatches stable_sort mixed = Normal (s3, all))
    by (do 2 eexists; vm_compute; reflexivity).
  destruct Hf as [s1 Hf]. destruct Hp as [s2 Hp]. destruct Ha as (s3 & all & Ha).
  exists s1, s2, s3, all. split; [exact Hf|]. split; [exact Hp|]. split; [exact Ha|].
  exact (proj1 (allMatches_joins_matches_and_partialMatches stable_sort
                  stable_sort_permutes mixed s1 s2 s3 _ _ all
                  mixed_Reachable Hf Hp Ha)).
Defined.

Lemma allItems_returns_every_item_once_witness :
  Reachable stable_sort numbered
  /\ ~ In (KName "__proto__") (map fst (s_collection (s_ numbered)))
  /\ exists s1 out,
       get_allItems stable_sort numbered = Normal (s1, out)
       /\ Permutation (output_keys out) [KName "a"; KName "b"; KName "c"].
Proof.
  split; [exact numbered_Reachable|].
  assert (Hproto : ~ In (KName "__proto__") (map fst (s_collection (s_ numbered)))).
  { cbn. intuition discriminate. }
  split; [exact Hproto|].
  assert (H : exists s1 out, get_allItems stable_sort numbered = Normal (s1, out))
    by (do 2 eexists; vm_compute; reflexivity).
  destruct H as (s1 & out & H). exists s1, out. split; [exact H|].
  exact (proj1 (allItems_returns_every_item_once stable_sort stable_sort_permutes
                  numbered s1 out numbered_Reachable Hproto H)).
Defined.

Lemma reads_leave_plain_items_alone_witness :
  is_object (item_of (s_collection (s_ plain_with_stats)) (KIndex 0)) = false
  /\ exists s1 out,
       get_matches stable_sort plain_with_stats = Normal (s1, out)
       /\ item_of (s_collection (s_ s1)) (KIndex 0) = VStr "a".
Proof.
  split; [reflexivity|].
  assert (H : exists s1 out, get_matches stable_sort plain_with_stats = Normal (s1, out))
    by (do 2 eexists; vm_compute; reflexivity).
  destruct H as (s1 & out & H). exists s1, out. split; [exact H|].
  exact (reads_leave_plain_items_alone stable_sort stable_sort_permutes
           plain_with_stats s1 out (KIndex 0) (or_introl H) eq_refl).
Defined.

Lemma results_are_cached_between_reads_witness :
  exists s1 out,
    get_matches stable_sort apples = Normal (s1, out)
    /\ updateMatches_ stable_sort s1 = Normal s1.
Proof.
  assert (H : exists s1 out, get_matches stable_sort apples = Normal (s1, out))
    by (do 2 eexists; vm_compute; reflexivity).
  destruct H as (s1 & out & H). exists s1, out. split; [exact H|].
  exact (proj1 (results_are_cached_between_reads stable_sort stable_sort_permutes
                  apples s1 out (or_introl H))).
Defined.

Lemma stats_are_stored_on_the_item_witness :
  Reachable stable_sort record_with_stats
  /\ o_inject_enabled (o_ record_with_stats) = true
  /\ get_matches stable_sort record_with_stats
     = Normal (record_read_once, OutArray [KIndex 0])
  /\ In (mkMatch (KIndex 0) 0 "") (matches_array (s_ record_read_once))
  /\ item_of (s_collection (s_ record_with_stats)) (KIndex 0) = VObj [("n", VNum 1)]
  /\ "searchResults" <> "__proto__"
  /\ get (getItem_ record_read_once (mkMatch (KIndex 0) 0 "")) (VStr "searchResults")
     = Normal (stats (mkMatch (KIndex 0) 0 "")).
Proof.
  split; [exact record_with_stats_Reachable|]. split; [reflexivity|].
  assert (Hread : get_matches stable_sort record_with_stats
                  = Normal (record_read_once, OutArray [KIndex 0]))
    by (vm_compute; reflexivity).
  split; [exact Hread|].
  assert (Hin : In (mkMatch (KIndex 0) 0 "") (matches_array (s_ record_read_once)))
    by (left; reflexivity).
  split; [exact Hin|]. split; [reflexivity|].
  assert (Hname : "searchResults" <> "__proto__") by discriminate.
  split; [exact Hname|].
  destruct (proj1 (stats_are_stored_on_the_item stable_sort stable_sort_permutes
                     record_with_stats record_read_once (OutArray [KIndex 0])
                     (mkMatch (KIndex 0) 0 "")
                     record_with_stats_Reachable eq_refl Hread Hin)
                  [("n", VNum 1)] eq_refl) as (props' & _ & _ & Hget).
  exact (Hget Hname).
Defined.

Lemma for_and_in_forget_what_came_before_witness :
  exists sl1,
    and_ desserts (VStr "pie") = Normal sl1
    /\ for_ sl1 (VStr "tart") = for_ desserts (VStr "tart").
Proof.
  assert (H : exists sl1, and_ desserts (VStr "pie") = Normal sl1)
    by (eexists; reflexivity).
  destruct H as [sl1 H]. exists sl1. split; [exact H|].
  exact (proj1 (for_and_in_forget_what_came_before desserts sl1
                  (VStr "pie") (VStr "tart")) (or_introl H)).
Defined.

Lemma order_options_only_reorder_witness :
  Reachable stable_sort graded
  /\ exists s1 s2 s3 o3,
       get_matches stable_sort (sorted graded)
       = Normal (s1, OutArray [KIndex 1; KIndex 0])
       /\ get_matches stable_sort (unsorted graded)
          = Normal (s2, OutArray [KIndex 0; KIndex 1])
       /\ get_matches stable_sort (sortUsing graded None) = Normal (s3, o3)
       /\ Permutation [KIndex 1; KIndex 0] [KIndex 0; KIndex 1].
Proof.
  split; [exact graded_Reachable|].
  assert (H1 : exists s1, get_matches stable_sort (sorted graded)
                          = Normal (s1, OutArray [KIndex 1; KIndex 0]))
    by (eexists; vm_compute; reflexivity).
  assert (H2 : exists s2, get_matches stable_sort (unsorted graded)
                          = Normal (s2, OutArray [KIndex 0; KIndex 1]))
    by (eexists; vm_compute; reflexivity).
  assert (H3 : exists s3 o3, get_matches stable_sort (sortUsing graded None)
                             = Normal (s3, o3))
    by (do 2 eexists; vm_compute; reflexivity).
  destruct H1 as [s1 H1]. destruct H2 as [s2 H2]. destruct H3 as (s3 & o3 & H3).
  exists s1, s2, s3, o3. split; [exact H1|]. split; [exact H2|]. split; [exact H3|].
  exact (proj1 (order_options_only_reorder stable_sort stable_sort_permutes
                  graded s1 s2 s3 None _ _ o3 graded_Reachable H1 H2 H3)).
Defined.

Lemma baseThreshold_stays_zero_witness :
  Reachable stable_sort apples
  /\ o_baseThreshold (o_ apples) = 0
  /\ s_threshold (s_ (updateConstraints_ apples)) = 0 + 1.
Proof.
  split; [exact apples_Reachable|].
  exact (baseThreshold_stays_zero stable_sort stable_sort_permutes apples
           apples_Reachable).
Defined.

Lemma stable_host_sorts_by_relevance_witness :
  o_sort (o_ (sorted graded)) = true
  /\ o_customSort (o_ (sorted graded)) = None
  /\ snd (isConstrained (sorted graded)) = true
  /\ Permutation
       (snd (performSort_ stable_sort (sorted graded)
               [mkMatch (KIndex 0) 1 ""; mkMatch (KIndex 1) 2 ""]))
       [mkMatch (KIndex 0) 1 ""; mkMatch (KIndex 1) 2 ""].
Proof.
  split; [reflexivity|]. split; [reflexivity|]. split; [reflexivity|].
  exact (proj2 (stable_host_sorts_by_relevance (sorted graded)
                  [mkMatch (KIndex 0) 1 ""; mkMatch (KIndex 1) 2 ""]
                  eq_refl eq_refl eq_refl)).
Defined.

Lemma missing_property_fails_relational_filters_witness :
  typeof (VObj [("m", VNum 1)]) <> "string"
  /\ get (VObj [("m", VNum 1)]) (VStr "n") = Normal VUndefined
  /\ filter_ (VObj [("m", VNum 1)]) (emptyMatch_ (KIndex 0))
             (mkFilter (VStr "n") (VStr "<") (VNum 5))
     = Normal (emptyMatch_ (KIndex 0)).
Proof.
  assert (Ht : typeof (VObj [("m", VNum 1)]) <> "string") by discriminate.
  split; [exact Ht|]. split; [reflexivity|].
  exact (proj1 (missing_property_fails_relational_filters (VObj [("m", VNum 1)])
                  (VStr "n") (VNum 5) (emptyMatch_ (KIndex 0)) Ht eq_refl)
               "<" (or_introl eq_refl)).
Defined.

Lemma unsorted_matches_keep_collection_order_witness :
  Reachable stable_sort apples
  /\ s_searched (s_ apples) = false
  /\ o_sort (o_ apples) = false
  /\ o_customSort (o_ apples) = None
  /\ exists s1 out,
       get_matches stable_sort apples = Normal (s1, out)
       /\ exists keep : Key -> bool,
            output_keys out = filter keep [KIndex 0; KIndex 1; KIndex 2].
Proof.
  split; [exact apples_Reachable|]. split; [reflexivity|]. split; [reflexivity|].
  split; [reflexivity|].
  assert (H : exists s1 out, get_matches stable_sort apples = Normal (s1, out))
    by (do 2 eexists; vm_compute; reflexivity).
  destruct H as (s1 & out & H). exists s1, out. split; [exact H|].
  exact (unsorted_matches_keep_collection_order stable_sort stable_sort_permutes
           apples s1 out apples_Reachable eq_refl eq_refl eq_refl H).
Defined.

Lemma and_appends_the_search_terms_witness :
  Reachable stable_sort apples
  /\ trim "tart" = "tart"
  /\ "tart" <> ""
  /\ exists sl',
       and_ apples (VStr "tart") = Normal sl'
       /\ s_searchText (s_ sl') = "apple tart"
       /\ s_searchTerms (s_ (updateConstraints_ sl')) = ["apple"; "tart"].
Proof.
  split; [exact apples_Reachable|]. split; [reflexivity|].
  assert (Hne : "tart" <> "") by discriminate.
  split; [exact Hne|].
  assert (H : exists sl', and_ apples (VStr "tart") = Normal sl')
    by (eexists; reflexivity).
  destruct H as [sl' H]. exists sl'. split; [exact H|].
  assert (Hold : s_searchText (s_ apples) <> "") by discriminate.
  exact (proj2 (and_appends_the_search_terms stable_sort stable_sort_permutes
                  apples sl' "tart" apples_Reachable eq_refl Hne H) Hold).
Defined.

Lemma object_subject_lists_every_property_witness :
  s_keys (s_ desserts) = []
  /\ NoDup (map fst [("a", VNum 1); ("b", VNull)])
  /\ subject_of desserts (VObj [("a", VNum 1); ("b", VNull)]) = Normal "|1|null".
Proof.
  split; [reflexivity|].
  assert (Hnd : NoDup (map fst [("a", VNum 1); ("b", VNull)])).
  { cbn. repeat constructor; cbn; intuition discriminate. }
  split; [exact Hnd|].
  exact (object_subject_lists_every_property desserts
           [("a", VNum 1); ("b", VNull)] eq_refl Hnd).
Defined.

Lemma then_settles_without_raising_witness :
  (exists e,
      updateMatches_ stable_sort holed = Throw e
      /\ snd (then_ stable_sort holed) = Rejected e
      /\ updateMatches_ stable_sort (fst (then_ stable_sort holed)) = Throw e)
  /\ scorable (s_collection (s_ apples))
  /\ Convertible apples
  /\ s_error (s_ apples) = false
  /\ exists u,
       then_ stable_sort apples
       = (u, Fulfilled ["matches"; "partialMatchess"; "allMatchess"])
       /\ updateMatches_ stable_sort apples = Normal u
       /\ s_complete (s_ u) = true.
Proof.
  split.
  { assert (He : exists e, updateMatches_ stable_sort holed = Throw e)
      by (eexists; vm_compute; reflexivity).
    destruct He as [e He]. exists e. split; [exact He|].
    destruct (proj1 (then_settles_without_raising stable_sort stable_sort_permutes
                       holed) e He) as (Hrejected & _ & _ & Hagain).
    split; [exact Hrejected | exact Hagain]. }
  assert (Hs : scorable (s_collection (s_ apples))).
  { intros e He. cbn in He. destruct He as [<- | [<- | [<- | []]]]; reflexivity. }
  assert (Hq : Convertible apples).
  { constructor.
    - intros e v He Hv. cbn in He.
      destruct He as [<- | [<- | [<- | []]]]; destruct Hv.
    - intros k [].
    - intros f []. }
  split; [exact Hs|]. split; [exact Hq|]. split; [reflexivity|].
  exact (proj2 (then_settles_without_raising stable_sort stable_sort_permutes
                  apples) Hs Hq eq_refl).
Defined.
